(** * MonoDeal rules engine: a shallow embedding of [src/App.tsx]

    The development follows the TypeScript sources: the value objects of
    [types.ts] (cards, property sets, players, pending actions, the game
    state), the lookup tables [SET_LIMITS] and [RENT_VALUES], the deck of
    [constants.tsx], and the engine of [App.tsx] ([shuffle],
    [initializeGame], [checkWinCondition], [processPayment],
    [handleRentCollection], [resolvePendingAction], [initiateForceDeal],
    [initiateSlyDeal], [executeMove], [startTurn], [endTurn]).

    Conventions of the embedding.
    - JavaScript arrays are lists in array order: [push] appends at the end,
      [pop] takes the last element, [shift] takes the first, [unshift]
      prepends.
    - Every engine update starts from [JSON.parse(JSON.stringify(prev))], a
      deep copy, and then mutates the copy in place.  The embedding threads
      the copy through functional updates; an object obtained by [find] and
      mutated afterwards is an update at the index where [find] stopped.
    - [players] always holds exactly two players and the indices
      [activePlayerIndex] and [attackerIndex] only take the values 0 and 1
      ([initializeGame] starts at 0, [endTurn] computes [(i + 1) % 2], the
      attacker index is a copy of the active index), so they are a two-valued
      type and [1 - i] is [other i].
    - Record fields carry a prefix ([c_] card, [s_] property set, [p_]
      player, [pa_] pending action, [g_] game state) because several
      interfaces share the field names [id], [name], [type], [color] and
      [cards]. *)

From Stdlib Require Import ZArith String Ascii List Bool Arith Lia.
From Stdlib Require Import Permutation Sorted DecimalString.
Import ListNotations.

Local Open Scope string_scope.
Local Open Scope list_scope.

(** A template literal: the concatenation of its pieces. *)
Definition template (parts : list string) : string := String.concat "" parts.

#[global] Arguments template : simpl never.

(** ** Array helpers *)

Section ArrayHelpers.
Context {A : Type}.

(** [Array.prototype.findIndex]; [None] stands for -1. *)
Fixpoint findIndex (f : A -> bool) (l : list A) : option nat :=
  match l with
  | [] => None
  | x :: r =>
      if f x then Some 0%nat
      else match findIndex f r with
           | Some i => Some (S i)
           | None => None
           end
  end.

(** In-place mutation of the element at index [i]. *)
Fixpoint updateAt (i : nat) (f : A -> A) (l : list A) : list A :=
  match l, i with
  | [], _ => []
  | x :: r, O => f x :: r
  | x :: r, S j => x :: updateAt j f r
  end.

(** [l.splice(i, 1)] when only the array is used afterwards. *)
Fixpoint spliceOut (i : nat) (l : list A) : list A :=
  match l, i with
  | [], _ => []
  | _ :: r, O => r
  | x :: r, S j => x :: spliceOut j r
  end.

(** [l.pop()]: the last element and the remaining array. *)
Definition pop (l : list A) : option (A * list A) :=
  match rev l with
  | [] => None
  | x :: r => Some (x, rev r)
  end.
End ArrayHelpers.

(** [Array.prototype.find] followed by a mutation of the object found: the
    position and the element. *)
Definition findEntry {A : Type} (f : A -> bool) (l : list A) : option (nat * A) :=
  match findIndex f l with
  | Some i => match nth_error l i with Some x => Some (i, x) | None => None end
  | None => None
  end.

(** ** types.ts *)

Inductive PropertyColor : Type :=
| BROWN | LIGHT_BLUE | PINK | ORANGE | RED | YELLOW | GREEN | DARK_BLUE
| RAILROAD | UTILITY | ANY.

Inductive CardType : Type := PROPERTY | ACTION | RENT | MONEY | WILD.

Record Card : Type := mkCard {
  c_id : string;
  c_name : string;
  c_type : CardType;
  c_value : Z;
  c_color : option PropertyColor;
  c_secondaryColor : option PropertyColor;
  c_description : option string
}.

Record PropertySet : Type := mkSet {
  s_color : PropertyColor;
  s_cards : list Card;
  s_isComplete : bool
}.

Record Player : Type := mkPlayer {
  p_id : string;
  p_name : string;
  p_hand : list Card;
  p_bank : list Card;
  p_properties : list PropertySet;
  p_isAI : bool
}.

Inductive GamePhase : Type :=
| LOBBY | START_TURN | PLAY_PHASE | END_TURN | GAME_OVER.

Inductive PendingType : Type :=
| FORCE_DEAL | SLY_DEAL | DEAL_BREAKER | RENT_ALL | DEBT_COLLECTOR | BIRTHDAY.

(** The two positions of the [players] array. *)
Inductive PlayerIndex : Type := P0 | P1.

(** [1 - i], which is also [(i + 1) % 2] on the two indices. *)
Definition other (i : PlayerIndex) : PlayerIndex :=
  match i with P0 => P1 | P1 => P0 end.

Record PendingAction : Type := mkPending {
  pa_type : PendingType;
  pa_card : Card;
  pa_attackerIndex : PlayerIndex;
  pa_targetIndex : option nat;
  pa_targetSetIndex : option nat;
  pa_mySetIndex : option nat;
  pa_jsnStack : option nat
}.

Inductive MultiplayerRole : Type := HOST | JOINER.

Record GameState : Type := mkState {
  g_player0 : Player;
  g_player1 : Player;
  g_activePlayerIndex : PlayerIndex;
  g_deck : list Card;
  g_discardPile : list Card;
  g_phase : GamePhase;
  g_actionsRemaining : Z;
  g_logs : list string;
  g_winner : option string;
  g_multiplayerRole : option MultiplayerRole;
  g_pendingAction : option PendingAction
}.

Definition SET_LIMITS (c : PropertyColor) : nat :=
  match c with
  | BROWN => 2 | LIGHT_BLUE => 3 | PINK => 3 | ORANGE => 3 | RED => 3
  | YELLOW => 3 | GREEN => 3 | DARK_BLUE => 2 | RAILROAD => 4 | UTILITY => 2
  | ANY => 999
  end.

Definition RENT_VALUES (c : PropertyColor) : list Z :=
  match c with
  | BROWN => [1; 2] | LIGHT_BLUE => [1; 2; 3] | PINK => [1; 2; 4]
  | ORANGE => [1; 3; 5] | RED => [2; 3; 6] | YELLOW => [2; 4; 6]
  | GREEN => [2; 4; 7] | DARK_BLUE => [3; 8] | RAILROAD => [1; 2; 3; 4]
  | UTILITY => [1; 2] | ANY => [0]
  end%Z.

(** ** Decidable equalities and printing *)

Definition PropertyColor_eq_dec (a b : PropertyColor) : {a = b} + {a <> b}.
Proof. decide equality. Defined.

Definition colorEqb (a b : PropertyColor) : bool :=
  if PropertyColor_eq_dec a b then true else false.

Definition CardType_eq_dec (a b : CardType) : {a = b} + {a <> b}.
Proof. decide equality. Defined.

Definition Card_eq_dec (a b : Card) : {a = b} + {a <> b}.
Proof.
  decide equality;
    try apply string_dec; try apply Z.eq_dec; try apply CardType_eq_dec;
    decide equality; try apply string_dec; apply PropertyColor_eq_dec.
Defined.

(** The text a template literal prints for a colour. *)
Definition colorName (c : PropertyColor) : string :=
  match c with
  | BROWN => "BROWN" | LIGHT_BLUE => "LIGHT_BLUE" | PINK => "PINK"
  | ORANGE => "ORANGE" | RED => "RED" | YELLOW => "YELLOW" | GREEN => "GREEN"
  | DARK_BLUE => "DARK_BLUE" | RAILROAD => "RAILROAD" | UTILITY => "UTILITY"
  | ANY => "ANY"
  end.

(** The text a template literal prints for an integer. *)
Definition showZ (z : Z) : string := NilZero.string_of_int (Z.to_int z).

(** ** Field updates on the deep copy *)

Definition getPlayer (i : PlayerIndex) (g : GameState) : Player :=
  match i with P0 => g_player0 g | P1 => g_player1 g end.

Definition setPlayer (i : PlayerIndex) (p : Player) (g : GameState) : GameState :=
  match i with
  | P0 => mkState p (g_player1 g) (g_activePlayerIndex g) (g_deck g)
            (g_discardPile g) (g_phase g) (g_actionsRemaining g) (g_logs g)
            (g_winner g) (g_multiplayerRole g) (g_pendingAction g)
  | P1 => mkState (g_player0 g) p (g_activePlayerIndex g) (g_deck g)
            (g_discardPile g) (g_phase g) (g_actionsRemaining g) (g_logs g)
            (g_winner g) (g_multiplayerRole g) (g_pendingAction g)
  end.

Definition withHand (h : list Card) (p : Player) : Player :=
  mkPlayer (p_id p) (p_name p) h (p_bank p) (p_properties p) (p_isAI p).

Definition withBank (b : list Card) (p : Player) : Player :=
  mkPlayer (p_id p) (p_name p) (p_hand p) b (p_properties p) (p_isAI p).

Definition withProperties (ps : list PropertySet) (p : Player) : Player :=
  mkPlayer (p_id p) (p_name p) (p_hand p) (p_bank p) ps (p_isAI p).

Definition withDeck (d : list Card) (g : GameState) : GameState :=
  mkState (g_player0 g) (g_player1 g) (g_activePlayerIndex g) d
    (g_discardPile g) (g_phase g) (g_actionsRemaining g) (g_logs g)
    (g_winner g) (g_multiplayerRole g) (g_pendingAction g).

Definition withDiscardPile (d : list Card) (g : GameState) : GameState :=
  mkState (g_player0 g) (g_player1 g) (g_activePlayerIndex g) (g_deck g)
    d (g_phase g) (g_actionsRemaining g) (g_logs g)
    (g_winner g) (g_multiplayerRole g) (g_pendingAction g).

Definition withPhase (ph : GamePhase) (g : GameState) : GameState :=
  mkState (g_player0 g) (g_player1 g) (g_activePlayerIndex g) (g_deck g)
    (g_discardPile g) ph (g_actionsRemaining g) (g_logs g)
    (g_winner g) (g_multiplayerRole g) (g_pendingAction g).

Definition withActionsRemaining (n : Z) (g : GameState) : GameState :=
  mkState (g_player0 g) (g_player1 g) (g_activePlayerIndex g) (g_deck g)
    (g_discardPile g) (g_phase g) n (g_logs g)
    (g_winner g) (g_multiplayerRole g) (g_pendingAction g).

Definition withLogs (l : list string) (g : GameState) : GameState :=
  mkState (g_player0 g) (g_player1 g) (g_activePlayerIndex g) (g_deck g)
    (g_discardPile g) (g_phase g) (g_actionsRemaining g) l
    (g_winner g) (g_multiplayerRole g) (g_pendingAction g).

Definition withWinner (w : option string) (g : GameState) : GameState :=
  mkState (g_player0 g) (g_player1 g) (g_activePlayerIndex g) (g_deck g)
    (g_discardPile g) (g_phase g) (g_actionsRemaining g) (g_logs g)
    w (g_multiplayerRole g) (g_pendingAction g).

Definition withPendingAction (pa : option PendingAction) (g : GameState)
  : GameState :=
  mkState (g_player0 g) (g_player1 g) (g_activePlayerIndex g) (g_deck g)
    (g_discardPile g) (g_phase g) (g_actionsRemaining g) (g_logs g)
    (g_winner g) (g_multiplayerRole g) pa.

Definition withActivePlayerIndex (i : PlayerIndex) (g : GameState)
  : GameState :=
  mkState (g_player0 g) (g_player1 g) i (g_deck g)
    (g_discardPile g) (g_phase g) (g_actionsRemaining g) (g_logs g)
    (g_winner g) (g_multiplayerRole g) (g_pendingAction g).

(** [logs.unshift(msg)]. *)
Definition unshiftLog (msg : string) (g : GameState) : GameState :=
  withLogs (msg :: g_logs g) g.

(** [card.color || 'ANY']. *)
Definition colorOrAny (c : Card) : PropertyColor :=
  match c_color c with Some k => k | None => ANY end.

(** [set.cards.length >= SET_LIMITS[set.color]]. *)
Definition reachesLimit (color : PropertyColor) (cards : list Card) : bool :=
  (SET_LIMITS color <=? length cards)%nat.

(** [target.cards.push(c); target.isComplete = target.cards.length >=
    SET_LIMITS[target.color]] on a set already in the array. *)
Definition pushCard (c : Card) (s : PropertySet) : PropertySet :=
  mkSet (s_color s) (s_cards s ++ [c]) (reachesLimit (s_color s) (s_cards s ++ [c])).

(** The same two statements on a set created by
    [{ color: targetColor, cards: [], isComplete: false }] and pushed at the
    end of the array. *)
Definition pushNewSet (color : PropertyColor) (c : Card)
  (props : list PropertySet) : list PropertySet :=
  props ++ [pushCard c (mkSet color [] false)].

(** [set.cards.pop()] on the set at [idx], followed by
    [if (set.cards.length === 0) props.splice(idx, 1) else set.isComplete = false]. *)
Definition afterPop (idx : nat) (rest : list Card) (props : list PropertySet)
  : list PropertySet :=
  match rest with
  | [] => spliceOut idx props
  | _ :: _ => updateAt idx (fun s => mkSet (s_color s) rest false) props
  end.

(** ** checkWinCondition (App.tsx 157-166) *)

Definition fullSets (p : Player) : nat :=
  length (filter s_isComplete (p_properties p)).

Definition checkWinCondition (state : GameState) : bool * GameState :=
  let player := getPlayer (g_activePlayerIndex state) state in
  if (3 <=? fullSets player)%nat
  then (true, withPhase GAME_OVER (withWinner (Some (p_name player)) state))
  else (false, state).

(** ** processPayment (App.tsx 168-209) *)

(** [bank.sort((a, b) => a.value - b.value)]: the stable ascending sort by
    value that the language prescribes, as an insertion sort that keeps
    cards of equal value in their original order. *)
Fixpoint insertByValue (c : Card) (l : list Card) : list Card :=
  match l with
  | [] => [c]
  | d :: r =>
      if (c_value c <=? c_value d)%Z then c :: d :: r
      else d :: insertByValue c r
  end.

Definition sortByValue (l : list Card) : list Card :=
  fold_right insertByValue [] l.

(** The variables both loops of [processPayment] read and write. *)
Record Payment : Type := mkPayment {
  fromPlayer : Player;
  toPlayer : Player;
  remaining : Z;
  log : list string
}.

(** One iteration of the bank loop, [None] when its condition
    [remaining > 0 && fromPlayer.bank.length > 0] is false. *)
Definition bankIteration (st : Payment) : option Payment :=
  if (0 <? remaining st)%Z then
    match p_bank (fromPlayer st) with
    | [] => None
    | card :: rest =>
        let remaining' := (remaining st - c_value card)%Z in
        let log1 :=
          template [p_name (fromPlayer st); " paid "; c_name card; " (";
                    showZ (c_value card); "M) from bank."] :: log st in
        let log2 :=
          if (remaining' <? 0)%Z
          then "Note: No change is given in MonoDeal!" :: log1
          else log1 in
        Some (mkPayment (withBank rest (fromPlayer st))
                (withBank (p_bank (toPlayer st) ++ [card]) (toPlayer st))
                remaining' log2)
    end
  else None.

(** One iteration of the property loop, [None] when its condition
    [remaining > 0 && fromPlayer.properties.length > 0] is false or when it
    leaves through [break].  The set [findIndex] stops at holds a card, so
    [pop] returns one. *)
Definition propertyIteration (st : Payment) : option Payment :=
  if (0 <? remaining st)%Z then
    let props := p_properties (fromPlayer st) in
    match props with
    | [] => None
    | _ :: _ =>
        match findEntry (fun p => (0 <? length (s_cards p))%nat) props with
        | None => None
        | Some (setIdx, set) =>
            match pop (s_cards set) with
            | None => None
            | Some (card, rest) =>
                let fromProps := afterPop setIdx rest props in
                let targetColor := colorOrAny card in
                let toProps :=
                  match findIndex (fun p => colorEqb (s_color p) targetColor)
                          (p_properties (toPlayer st)) with
                  | Some j => updateAt j (pushCard card) (p_properties (toPlayer st))
                  | None => pushNewSet targetColor card (p_properties (toPlayer st))
                  end in
                Some (mkPayment
                        (withProperties fromProps (fromPlayer st))
                        (withProperties toProps (toPlayer st))
                        (remaining st - c_value card)%Z
                        (template [p_name (fromPlayer st);
                                   " surrendered property "; c_name card;
                                   " to settle debt."] :: log st))
            end
        end
    end
  else None.

(** A [while] loop run for at most [fuel] iterations; the state is returned
    as it stands when the condition fails or the fuel is used up. *)
Fixpoint while {S : Type} (fuel : nat) (body : S -> option S) (st : S) : S :=
  match fuel with
  | O => st
  | Datatypes.S k =>
      match body st with
      | None => st
      | Some st' => while k body st'
      end
  end.

(** The number of cards a player can pay with. *)
Definition propertyCards (ps : list PropertySet) : list Card :=
  concat (map s_cards ps).

Definition assetCount (p : Player) : nat :=
  (length (p_bank p) + length (propertyCards (p_properties p)))%nat.

(** [processPayment(fromPlayer, toPlayer, amount, log)].  The three mutated
    arguments are returned.  Each loop is given as many iterations as the
    debtor holds cards; [processPayment_loops_exit] shows that this is
    enough for both loops to reach their exit. *)
Definition processPayment (from to : Player) (amount : Z) (lg : list string)
  : Payment :=
  let st0 := mkPayment (withBank (sortByValue (p_bank from)) from) to amount lg in
  let st1 := while (assetCount from) bankIteration st0 in
  while (assetCount from) propertyIteration st1.

(** ** Placement of a transferred card *)

(** [placeCard] (App.tsx 303-314), the closure of the Force Deal branch. *)
Definition placeCard (p : Player) (c : Card) : Player :=
  let targetColor := colorOrAny c in
  let props := p_properties p in
  let target1 :=
    findIndex (fun set => colorEqb (s_color set) targetColor
                          && negb (s_isComplete set)) props in
  let target2 :=
    match target1, c_secondaryColor c with
    | None, Some sc =>
        findIndex (fun set => colorEqb (s_color set) sc
                              && negb (s_isComplete set)) props
    | _, _ => target1
    end in
  let target3 :=
    match target2 with
    | None => findIndex (fun set => colorEqb (s_color set) targetColor) props
    | Some _ => target2
    end in
  match target3 with
  | Some j => withProperties (updateAt j (pushCard c) props) p
  | None => withProperties (pushNewSet targetColor c props) p
  end.

(** The inline placement of the Sly Deal branch (App.tsx 332-340). *)
Definition slyDealPlace (attacker : Player) (stolen : Card) : Player :=
  let targetColor := colorOrAny stolen in
  let props := p_properties attacker in
  let mySet1 :=
    findIndex (fun p => colorEqb (s_color p) targetColor
                        && negb (s_isComplete p)) props in
  let mySet2 :=
    match mySet1, c_secondaryColor stolen with
    | None, Some sc =>
        findIndex (fun p => colorEqb (s_color p) sc
                            && negb (s_isComplete p)) props
    | _, _ => mySet1
    end in
  match mySet2 with
  | Some j => withProperties (updateAt j (pushCard stolen) props) attacker
  | None => withProperties (pushNewSet targetColor stolen props) attacker
  end.

(** ** resolvePendingAction (App.tsx 240-370) *)

(** [pendingAction.jsnStack || 0]. *)
Definition jsnStackOf (pa : PendingAction) : nat :=
  match pa_jsnStack pa with Some n => n | None => 0%nat end.

(** The responder at the current depth of the counter chain. *)
Definition responderIndex (pa : PendingAction) : PlayerIndex :=
  if Nat.even (jsnStackOf pa) then other (pa_attackerIndex pa)
  else pa_attackerIndex pa.

Definition isJustSayNo (c : Card) : bool := String.eqb (c_name c) "Just Say No".

(** The branch taken when the responder plays a counter card found at
    [jsnIndex] (App.tsx 257-265). *)
Definition playJustSayNo (pa : PendingAction) (jsnIndex : nat) (jsnCard : Card)
  (newState : GameState) : GameState :=
  let playerIndex := responderIndex pa in
  let player := getPlayer playerIndex newState in
  let currentJsnStack := jsnStackOf pa in
  let s1 := setPlayer playerIndex
              (withHand (spliceOut jsnIndex (p_hand player)) player) newState in
  let s2 := withDiscardPile (g_discardPile s1 ++ [jsnCard]) s1 in
  let s3 := withPendingAction
              (Some (mkPending (pa_type pa) (pa_card pa) (pa_attackerIndex pa)
                       (pa_targetIndex pa) (pa_targetSetIndex pa)
                       (pa_mySetIndex pa) (Some (currentJsnStack + 1)%nat))) s2 in
  unshiftLog (template [p_name player; " used JUST SAY NO! (Chain: ";
                        showZ (Z.of_nat (currentJsnStack + 1)); ")"]) s3.

(** The branch taken when the chain ends on an odd depth (App.tsx 273-280). *)
Definition blockAction (pa : PendingAction) (newState : GameState) : GameState :=
  let s1 := unshiftLog (template ["Action "; c_name (pa_card pa);
                                  " blocked by Just Say No."]) newState in
  let s2 := withDiscardPile (g_discardPile s1 ++ [pa_card pa]) s1 in
  let s3 := withPendingAction None s2 in
  withActionsRemaining (g_actionsRemaining s3 - 1)%Z s3.

(** The effect of the action by type (App.tsx 283-361): the [if]/[else if]
    chain over [type], acting on the attacker, the opponent and the log. *)
Definition applyEffect (pa : PendingAction) (newState : GameState) : GameState :=
  let attackerIndex := pa_attackerIndex pa in
  let attacker := getPlayer attackerIndex newState in
  let opponent := getPlayer (other attackerIndex) newState in
  let store (a o : Player) (s : GameState) :=
    setPlayer attackerIndex a (setPlayer (other attackerIndex) o s) in
  match pa_type pa with
  | FORCE_DEAL =>
      match pa_mySetIndex pa, pa_targetSetIndex pa with
      | Some mySetIndex, Some targetSetIndex =>
          match nth_error (p_properties attacker) mySetIndex,
                nth_error (p_properties opponent) targetSetIndex with
          | Some mySet, Some oppSet =>
              match pop (s_cards mySet), pop (s_cards oppSet) with
              | Some (myCard, myRest), Some (oppCard, oppRest) =>
                  let attacker1 :=
                    withProperties
                      (afterPop mySetIndex myRest (p_properties attacker)) attacker in
                  let opponent1 :=
                    withProperties
                      (afterPop targetSetIndex oppRest (p_properties opponent))
                      opponent in
                  let attacker2 := placeCard attacker1 oppCard in
                  let opponent2 := placeCard opponent1 myCard in
                  unshiftLog
                    (template [p_name attacker; " played Force Deal: Swapped ";
                               c_name myCard; " for "; c_name oppCard; "."])
                    (store attacker2 opponent2 newState)
              | _, _ => newState
              end
          | _, _ => newState
          end
      | _, _ => newState
      end
  | SLY_DEAL =>
      match pa_targetSetIndex pa with
      | Some targetSetIndex =>
          let invalid :=
            unshiftLog (template [p_name attacker;
                                  " tried Sly Deal but target was invalid."])
              newState in
          match nth_error (p_properties opponent) targetSetIndex with
          | Some targetSet =>
              if negb (s_isComplete targetSet) then
                match pop (s_cards targetSet) with
                | Some (stolen, rest) =>
                    let opponent1 :=
                      withProperties
                        (afterPop targetSetIndex rest (p_properties opponent))
                        opponent in
                    let attacker1 := slyDealPlace attacker stolen in
                    unshiftLog
                      (template [p_name attacker; " stole "; c_name stolen;
                                 " with Sly Deal."])
                      (store attacker1 opponent1 newState)
                | None => invalid
                end
              else invalid
          | None => invalid
          end
      | None => newState
      end
  | DEAL_BREAKER =>
      match findEntry s_isComplete (p_properties opponent) with
      | Some (i, targetSet) =>
          let opponent1 :=
            withProperties (spliceOut i (p_properties opponent)) opponent in
          let attacker1 :=
            withProperties (p_properties attacker ++ [targetSet]) attacker in
          unshiftLog
            (template [p_name attacker; " played Deal Breaker: Stole a complete ";
                       colorName (s_color targetSet); " set!"])
            (store attacker1 opponent1 newState)
      | None => newState
      end
  | DEBT_COLLECTOR =>
      let logs1 :=
        template [p_name attacker; " used Debt Collector: "; p_name opponent;
                  " owes 5M."] :: g_logs newState in
      let paid := processPayment opponent attacker 5 logs1 in
      withLogs (log paid) (store (toPlayer paid) (fromPlayer paid) newState)
  | BIRTHDAY =>
      let logs1 :=
        template [p_name attacker; " used It's My Birthday! "; p_name opponent;
                  " owes 2M."] :: g_logs newState in
      let paid := processPayment opponent attacker 2 logs1 in
      withLogs (log paid) (store (toPlayer paid) (fromPlayer paid) newState)
  | RENT_ALL => newState
  end.

(** The statements every resolution ends with (App.tsx 363-368). *)
Definition concludeAction (pa : PendingAction) (newState : GameState) : GameState :=
  let s1 := withDiscardPile (g_discardPile newState ++ [pa_card pa]) newState in
  let s2 := withActionsRemaining (g_actionsRemaining s1 - 1)%Z s1 in
  let s3 := withPendingAction None s2 in
  snd (checkWinCondition s3).

Definition resolvePendingAction (useJSN : bool) (prev : GameState) : GameState :=
  match g_pendingAction prev with
  | None => prev
  | Some pa =>
      let player := getPlayer (responderIndex pa) prev in
      let counter :=
        if useJSN then findEntry isJustSayNo (p_hand player) else None in
      match counter with
      | Some (jsnIndex, jsnCard) => playJustSayNo pa jsnIndex jsnCard prev
      | None =>
          let actionBlocked := Nat.odd (jsnStackOf pa) in
          if actionBlocked then blockAction pa prev
          else concludeAction pa (applyEffect pa prev)
      end
  end.

(** ** The component state

    Besides [gameState] the component keeps three interaction states
    (App.tsx 19-21) that hold a played card between the move and the choice
    of its target. *)

Record ForceDealChoice : Type := mkForceDeal {
  fd_card : Card;
  fd_mySetIndex : option nat
}.

Record App : Type := mkApp {
  gameState : GameState;
  pendingRentCard : option Card;
  pendingForceDeal : option ForceDealChoice;
  pendingSlyDeal : option Card
}.

Definition withGameState (g : GameState) (a : App) : App :=
  mkApp g (pendingRentCard a) (pendingForceDeal a) (pendingSlyDeal a).

(** ** handleRentCollection (App.tsx 211-238) *)

(** [rentArr[count - 1] || 0] with [count = Math.min(cards.length, rentArr.length)]. *)
Definition rentValue (targetSet : PropertySet) : Z :=
  let rentArr := RENT_VALUES (s_color targetSet) in
  let count := Nat.min (length (s_cards targetSet)) (length rentArr) in
  match count with
  | O => 0%Z
  | S k => nth k rentArr 0%Z
  end.

(** [None] is the [TypeError] raised by [targetSet.color] when [setIndex]
    is not the index of one of the player's sets. *)
Definition handleRentCollection (setIndex : nat) (a : App) : option App :=
  match pendingRentCard a with
  | None => Some a
  | Some rentCard =>
      let newState := gameState a in
      let active := g_activePlayerIndex newState in
      let player := getPlayer active newState in
      let opponent := getPlayer (other active) newState in
      match nth_error (p_properties player) setIndex with
      | None => None
      | Some targetSet =>
          let rentVal := rentValue targetSet in
          let logs1 :=
            template [p_name player; " collected "; showZ rentVal; "M rent for ";
                      colorName (s_color targetSet); " set."] :: g_logs newState in
          let paid := processPayment opponent player rentVal logs1 in
          let s1 := withLogs (log paid)
                      (setPlayer active (toPlayer paid)
                         (setPlayer (other active) (fromPlayer paid) newState)) in
          let s2 := withDiscardPile (g_discardPile s1 ++ [rentCard]) s1 in
          let s3 := withActionsRemaining (g_actionsRemaining s2 - 1)%Z s2 in
          Some (mkApp (snd (checkWinCondition s3)) None
                  (pendingForceDeal a) (pendingSlyDeal a))
      end
  end.

(** ** initiateForceDeal, initiateSlyDeal (App.tsx 372-409) and the click
    that chooses the attacker's own set (App.tsx 988) *)

Definition initiateForceDeal (targetSetIndex : nat) (a : App) : App :=
  let prev := gameState a in
  let next :=
    match pendingForceDeal a with
    | Some (mkForceDeal card (Some mySetIndex)) =>
        withPendingAction
          (Some (mkPending FORCE_DEAL card (g_activePlayerIndex prev) None
                   (Some targetSetIndex) (Some mySetIndex) (Some 0%nat))) prev
    | _ => prev
    end in
  mkApp next (pendingRentCard a) None (pendingSlyDeal a).

Definition initiateSlyDeal (targetSetIndex : nat) (a : App) : App :=
  let prev := gameState a in
  let next :=
    match pendingSlyDeal a with
    | Some card =>
        withPendingAction
          (Some (mkPending SLY_DEAL card (g_activePlayerIndex prev) None
                   (Some targetSetIndex) None (Some 0%nat))) prev
    | None => prev
    end in
  mkApp next (pendingRentCard a) (pendingForceDeal a) None.

(** [setPendingForceDeal(prev => ({...prev!, mySetIndex: i}))]; the click
    handler only runs it while a Force Deal awaits its source set. *)
Definition selectMySet (i : nat) (a : App) : App :=
  match pendingForceDeal a with
  | Some fd =>
      mkApp (gameState a) (pendingRentCard a)
        (Some (mkForceDeal (fd_card fd) (Some i))) (pendingSlyDeal a)
  | None => a
  end.

(** ** executeMove (App.tsx 411-541) *)

(** The placement of the [PROPERTY] case (App.tsx 433-440):
    [find(p => p.color === color)], a new set when there is none, then the
    push and the recomputation of [isComplete]. *)
Definition assignToProperty (props : list PropertySet) (card : Card)
  : list PropertySet :=
  let color := colorOrAny card in
  match findIndex (fun p => colorEqb (s_color p) color) props with
  | Some j => updateAt j (pushCard card) props
  | None => pushNewSet color card props
  end.

Module Move.
Inductive t : Type := BANK | PROPERTY | ACTION_PLAY.
End Move.

(** The truth value of [prev.winner], a [string | null]. *)
Definition truthyWinner (w : option string) : bool :=
  match w with
  | Some n => negb (String.eqb n "")
  | None => false
  end.

Definition isSome {A : Type} (o : option A) : bool :=
  match o with Some _ => true | None => false end.

(** [props.map((p, i) => ({p, i})).filter(x => !x.p.isComplete &&
    x.p.cards.length > 0)], keeping the indices. *)
Fixpoint eligibleFrom (i : nat) (props : list PropertySet) : list nat :=
  match props with
  | [] => []
  | p :: r =>
      if negb (s_isComplete p) && (0 <? length (s_cards p))%nat
      then i :: eligibleFrom (S i) r
      else eligibleFrom (S i) r
  end.

Definition eligibleIndices (props : list PropertySet) : list nat :=
  eligibleFrom 0 props.

(** [indices[Math.floor(Math.random() * indices.length)].i].  The random
    number is an argument of the embedding: a draw [r] selects position
    [r mod length], which covers the positions [0 .. length - 1] and nothing
    else, like the floor of a number of [[0, 1)] scaled by the length. *)
Definition pickRandom (r : nat) (indices : list nat) : nat :=
  nth (r mod length indices) indices 0%nat.

Definition cardHasId (cardId : string) (c : Card) : bool :=
  String.eqb (c_id c) cardId.

(** [card.type === t]. *)
Definition hasType (t : CardType) (c : Card) : bool :=
  if CardType_eq_dec (c_type c) t then true else false.

(** The tail every branch that leaves the [switch] through [break] runs. *)
Definition finishMove (a : App) (newState : GameState) : App :=
  withGameState (snd (checkWinCondition newState)) a.

Definition executeMove (r1 r2 : nat) (type : Move.t) (cardId : string) (a : App)
  : App :=
  let prev := gameState a in
  if (g_actionsRemaining prev <=? 0)%Z
     || match g_phase prev with PLAY_PHASE => false | _ => true end
     || truthyWinner (g_winner prev)
     || isSome (g_pendingAction prev)
  then a
  else
    let active := g_activePlayerIndex prev in
    let player := getPlayer active prev in
    let opponent := getPlayer (other active) prev in
    match findEntry (cardHasId cardId) (p_hand player) with
    | None => a
    | Some (cardIndex, card) =>
        let hand' := spliceOut cardIndex (p_hand player) in
        let spent (s : GameState) :=
          withActionsRemaining (g_actionsRemaining s - 1)%Z s in
        match type with
        | Move.BANK =>
            let player1 := withBank (p_bank player ++ [card]) (withHand hand' player) in
            finishMove a
              (spent
                 (unshiftLog
                    (template [p_name player; " banked "; c_name card; " (";
                               showZ (c_value card); "M)."])
                    (setPlayer active player1 prev)))
        | Move.PROPERTY =>
            if negb (hasType PROPERTY card) && negb (hasType WILD card) then a
            else
              let player1 :=
                withProperties (assignToProperty (p_properties player) card)
                  (withHand hand' player) in
              finishMove a
                (spent
                   (unshiftLog (template [p_name player; " deployed ";
                                          c_name card; "."])
                      (setPlayer active player1 prev)))
        | Move.ACTION_PLAY =>
            let player1 := withHand hand' player in
            let newState := setPlayer active player1 prev in
            if hasType RENT card then
              mkApp newState (Some card) (pendingForceDeal a) (pendingSlyDeal a)
            else
                if String.eqb (c_name card) "Force Deal" then
                  if p_isAI player then
                    let myIndices := eligibleIndices (p_properties player) in
                    let oppIndices := eligibleIndices (p_properties opponent) in
                    match myIndices, oppIndices with
                    | _ :: _, _ :: _ =>
                        let myIdx := pickRandom r1 myIndices in
                        let oppIdx := pickRandom r2 oppIndices in
                        withGameState
                          (withPendingAction
                             (Some (mkPending FORCE_DEAL card active None
                                      (Some oppIdx) (Some myIdx) (Some 0%nat)))
                             newState) a
                    | _, _ =>
                        let s1 :=
                          unshiftLog
                            "AI tried Force Deal but had no valid targets. Card wasted."
                            newState in
                        let s2 := withDiscardPile (g_discardPile s1 ++ [card]) s1 in
                        withGameState (spent s2) a
                    end
                  else
                    mkApp newState (pendingRentCard a)
                      (Some (mkForceDeal card None)) (pendingSlyDeal a)
                else if String.eqb (c_name card) "Sly Deal" then
                  if p_isAI player then
                    let oppIndices := eligibleIndices (p_properties opponent) in
                    match oppIndices with
                    | _ :: _ =>
                        let oppIdx := pickRandom r1 oppIndices in
                        withGameState
                          (withPendingAction
                             (Some (mkPending SLY_DEAL card active None
                                      (Some oppIdx) None (Some 0%nat)))
                             newState) a
                    | [] =>
                        let s1 :=
                          unshiftLog
                            "AI tried Sly Deal but nothing to steal. Card wasted."
                            newState in
                        let s2 := withDiscardPile (g_discardPile s1 ++ [card]) s1 in
                        withGameState (spent s2) a
                    end
                  else
                    mkApp newState (pendingRentCard a) (pendingForceDeal a)
                      (Some card)
                else
                  let contested (t : PendingType) :=
                    finishMove a
                      (withPendingAction
                         (Some (mkPending t card active None None None (Some 0%nat)))
                         newState) in
                  if String.eqb (c_name card) "Deal Breaker" then contested DEAL_BREAKER
                  else if String.eqb (c_name card) "Debt Collector"
                  then contested DEBT_COLLECTOR
                  else if String.eqb (c_name card) "It's My Birthday"
                  then contested BIRTHDAY
                  else
                    let s1 :=
                      if String.eqb (c_name card) "Pass Go" then
                        let drawn := firstn 2 (g_deck newState) in
                        let s := withDeck (skipn 2 (g_deck newState)) newState in
                        unshiftLog (template [p_name player; " played Pass Go: +2 cards."])
                          (setPlayer active (withHand (hand' ++ drawn) player1) s)
                      else
                        unshiftLog (template [p_name player; " played ";
                                              c_name card; "."]) newState in
                    let s2 := withDiscardPile (g_discardPile s1 ++ [card]) s1 in
                    finishMove a (spent s2)
        end
    end.

(** ** startTurn and endTurn (App.tsx 543-577) *)

Definition startTurn (a : App) : App :=
  let prev := gameState a in
  match g_phase prev with
  | START_TURN =>
      let active := g_activePlayerIndex prev in
      let player := getPlayer active prev in
      let drawCount := match p_hand player with [] => 5%nat | _ :: _ => 2%nat end in
      let drawn := firstn drawCount (g_deck prev) in
      let s1 := withDeck (skipn drawCount (g_deck prev)) prev in
      let s2 := setPlayer active (withHand (p_hand player ++ drawn) player) s1 in
      let s3 := withPhase PLAY_PHASE (withActionsRemaining 3 s2) in
      withGameState
        (unshiftLog (template [p_name player; " draws ";
                               showZ (Z.of_nat drawCount); " cards."]) s3) a
  | _ => a
  end.

(** The three interaction states are reset after the state update, whether
    the guard let the update through or not. *)
Definition endTurn (a : App) : App :=
  let prev := gameState a in
  let next :=
    match g_phase prev with
    | PLAY_PHASE =>
        let nextIdx := other (g_activePlayerIndex prev) in
        unshiftLog (template ["Turn change: "; p_name (getPlayer nextIdx prev);
                              "'s turn."])
          (withPhase START_TURN
             (withActionsRemaining 3 (withActivePlayerIndex nextIdx prev)))
    | _ => prev
    end in
  mkApp next None None None.

(** ** constants.tsx *)

(** [createCard]; the random suffix of the identifier,
    [Math.random().toString(36).substr(2, 9)], is the argument [rand]. *)
Definition createCard (rand : string) (name : string) (type : CardType)
  (value : Z) (color : option PropertyColor) (desc : option string)
  (secondaryColor : option PropertyColor) : Card :=
  mkCard (template [name; "-"; rand]) name type value color secondaryColor desc.

(** [Array(n).fill(null).map(() => create(...))], the k-th copy drawing the
    suffix [k] written in decimal. *)
Definition copies (n : nat) (create : string -> Card) : list Card :=
  map (fun k => create (showZ (Z.of_nat k))) (seq 0 n).

Definition INITIAL_DECK : list Card :=
  (* Money Cards *)
  copies 1 (fun r => createCard r "10M" MONEY 10 None None None)
  ++ copies 2 (fun r => createCard r "5M" MONEY 5 None None None)
  ++ copies 3 (fun r => createCard r "4M" MONEY 4 None None None)
  ++ copies 3 (fun r => createCard r "3M" MONEY 3 None None None)
  ++ copies 5 (fun r => createCard r "2M" MONEY 2 None None None)
  ++ copies 6 (fun r => createCard r "1M" MONEY 1 None None None)
  (* Action Cards *)
  ++ copies 2 (fun r => createCard r "Deal Breaker" ACTION 7 None
                          (Some "Steal a complete set from any player.") None)
  ++ copies 3 (fun r => createCard r "Sly Deal" ACTION 3 None
                          (Some "Steal a single property from any player.") None)
  ++ copies 3 (fun r => createCard r "Force Deal" ACTION 3 None
                          (Some "Swap a property with another player.") None)
  ++ copies 3 (fun r => createCard r "Just Say No" ACTION 4 None
                          (Some "Counter any action card.") None)
  ++ copies 3 (fun r => createCard r "Debt Collector" ACTION 3 None
                          (Some "Collect 5M from one player.") None)
  ++ copies 3 (fun r => createCard r "It's My Birthday" ACTION 2 None
                          (Some "Collect 2M from all players.") None)
  ++ copies 10 (fun r => createCard r "Pass Go" ACTION 1 None
                           (Some "Draw 2 extra cards.") None)
  (* Rent Cards *)
  ++ copies 2 (fun r => createCard r "Rent (Brown/L.Blue)" RENT 1 (Some BROWN)
                          (Some "Collect rent for Brown or Light Blue sets.")
                          (Some LIGHT_BLUE))
  ++ copies 2 (fun r => createCard r "Rent (Pink/Orange)" RENT 1 (Some PINK)
                          (Some "Collect rent for Pink or Orange sets.")
                          (Some ORANGE))
  ++ copies 2 (fun r => createCard r "Rent (Red/Yellow)" RENT 1 (Some RED)
                          (Some "Collect rent for Red or Yellow sets.")
                          (Some YELLOW))
  ++ copies 2 (fun r => createCard r "Rent (Green/D.Blue)" RENT 1 (Some GREEN)
                          (Some "Collect rent for Green or Dark Blue sets.")
                          (Some DARK_BLUE))
  ++ copies 2 (fun r => createCard r "Rent (Rail/Util)" RENT 1 (Some RAILROAD)
                          (Some "Collect rent for Railroad or Utility sets.")
                          (Some UTILITY))
  ++ copies 3 (fun r => createCard r "Any Rent" RENT 3 (Some ANY)
                          (Some "Collect rent for ANY color set.") None)
  (* Properties *)
  ++ copies 2 (fun r => createCard r "Old Kent Road" PROPERTY 1 (Some BROWN) None None)
  ++ copies 3 (fun r => createCard r "The Angel Islington" PROPERTY 1
                          (Some LIGHT_BLUE) None None)
  ++ copies 3 (fun r => createCard r "Whitehall" PROPERTY 2 (Some PINK) None None)
  ++ copies 3 (fun r => createCard r "Bow Street" PROPERTY 2 (Some ORANGE) None None)
  ++ copies 3 (fun r => createCard r "Fleet Street" PROPERTY 3 (Some RED) None None)
  ++ copies 3 (fun r => createCard r "Leicester Square" PROPERTY 3
                          (Some YELLOW) None None)
  ++ copies 3 (fun r => createCard r "Bond Street" PROPERTY 4 (Some GREEN) None None)
  ++ copies 2 (fun r => createCard r "Park Lane" PROPERTY 4 (Some DARK_BLUE) None None)
  ++ copies 4 (fun r => createCard r "King's Cross Station" PROPERTY 2
                          (Some RAILROAD) None None)
  ++ copies 2 (fun r => createCard r "Water Works" PROPERTY 2 (Some UTILITY) None None)
  (* Wildcards *)
  ++ [createCard "0" "Dark Blue/Green Wild" WILD 4 (Some DARK_BLUE)
        (Some "Use as Dark Blue or Green property.") (Some GREEN);
      createCard "0" "Light Blue/Brown Wild" WILD 1 (Some LIGHT_BLUE)
        (Some "Use as Light Blue or Brown property.") (Some BROWN)].

(** ** initializeGame (App.tsx 50-73)

    [deck] is the outcome of [shuffle([...RAW_DECK])]. *)
Definition initializeGame (deck : list Card) (vsAI isMultiplayer : bool) : App :=
  let player1Hand := firstn 5 deck in
  let deck1 := skipn 5 deck in
  let player2Hand := firstn 5 deck1 in
  let deck2 := skipn 5 deck1 in
  mkApp
    (mkState
       (mkPlayer "p1" (if isMultiplayer then "Host" else "Player 1")
          player1Hand [] [] false)
       (mkPlayer "p2"
          (if vsAI then "Gemini AI"
           else if isMultiplayer then "Guest" else "Player 2")
          player2Hand [] [] vsAI)
       P0 deck2 [] START_TURN 3 ["Game started! Master the market."] None
       (if isMultiplayer then Some HOST else None) None)
    None None None.

(** ** Executions

    The operations the component offers on its state, and the states a game
    can reach through them. *)

Inductive Op : Type :=
| OpExecuteMove (r1 r2 : nat) (type : Move.t) (cardId : string)
| OpResolvePendingAction (useJSN : bool)
| OpHandleRentCollection (setIndex : nat)
| OpSelectMySet (i : nat)
| OpInitiateForceDeal (targetSetIndex : nat)
| OpInitiateSlyDeal (targetSetIndex : nat)
| OpStartTurn
| OpEndTurn.

(** [None] only where the operation raises an exception. *)
Definition applyOp (o : Op) (a : App) : option App :=
  match o with
  | OpExecuteMove r1 r2 type cardId => Some (executeMove r1 r2 type cardId a)
  | OpResolvePendingAction useJSN =>
      Some (withGameState (resolvePendingAction useJSN (gameState a)) a)
  | OpHandleRentCollection setIndex => handleRentCollection setIndex a
  | OpSelectMySet i => Some (selectMySet i a)
  | OpInitiateForceDeal i => Some (initiateForceDeal i a)
  | OpInitiateSlyDeal i => Some (initiateSlyDeal i a)
  | OpStartTurn => Some (startTurn a)
  | OpEndTurn => Some (endTurn a)
  end.

(** The state after a sequence of operations, [None] when one raises. *)
Fixpoint runOps (ops : list Op) (a : App) : option App :=
  match ops with
  | [] => Some a
  | o :: r =>
      match applyOp o a with
      | Some a' => runOps r a'
      | None => None
      end
  end.

Inductive reachableFrom (a0 : App) : App -> Prop :=
| reach_init : reachableFrom a0 a0
| reach_step a o a' :
    reachableFrom a0 a -> applyOp o a = Some a' -> reachableFrom a0 a'.

(** A game starts from [initializeGame] on some shuffle of the deck. *)
Definition reachable (a : App) : Prop :=
  exists deck vsAI isMultiplayer,
    reachableFrom (initializeGame deck vsAI isMultiplayer) a.

(** A shuffle for the examples: the cards at the positions [front] of the
    deck come first, in that order, followed by the other cards. *)
Fixpoint removePositions (ks : list nat) (i : nat) (d : list Card) : list Card :=
  match d with
  | [] => []
  | c :: r =>
      if existsb (Nat.eqb i) ks then removePositions ks (S i) r
      else c :: removePositions ks (S i) r
  end.

Definition bringToFront (front : list nat) (d : list Card) : list Card :=
  flat_map (fun k => match nth_error d k with Some c => [c] | None => [] end) front
  ++ removePositions front 0 d.

(** ** Measures on states, used by the statements below *)

(** The sum of a weight over a container.  With the weight [c_value] it is
    the money value of the container, with an indicator it counts the copies
    of one card. *)
Definition sumBy (w : Card -> Z) (l : list Card) : Z :=
  fold_right (fun c acc => (w c + acc)%Z) 0%Z l.

Definition totalValue (l : list Card) : Z := sumBy c_value l.

(** What a player can pay with: bank and properties. *)
Definition assetCards (p : Player) : list Card :=
  p_bank p ++ propertyCards (p_properties p).

Definition assetValue (p : Player) : Z := totalValue (assetCards p).

Definition playerCards (p : Player) : list Card :=
  p_hand p ++ assetCards p.

(** The containers the data model names: deck, discard pile, and both
    players' hands, banks and properties. *)
Definition tableCards (g : GameState) : list Card :=
  g_deck g ++ g_discardPile g
  ++ playerCards (g_player0 g) ++ playerCards (g_player1 g).

Definition optCard (o : option Card) : list Card :=
  match o with Some c => [c] | None => [] end.

(** The cards in flight: the triggering card of the pending action and the
    cards the three interaction states hold. *)
Definition inFlightCards (a : App) : list Card :=
  optCard (option_map pa_card (g_pendingAction (gameState a)))
  ++ optCard (pendingRentCard a)
  ++ optCard (option_map fd_card (pendingForceDeal a))
  ++ optCard (pendingSlyDeal a).

Definition allCards (a : App) : list Card :=
  tableCards (gameState a) ++ inFlightCards a.

(** The fields of a player a settlement leaves alone. *)
Definition sameOwner (p p' : Player) : Prop :=
  p_id p' = p_id p /\ p_name p' = p_name p /\ p_hand p' = p_hand p
  /\ p_isAI p' = p_isAI p.

(** One iteration moved [card] from the debtor's assets to the creditor's
    and reduced the debt by its value. *)
Definition transfers (st st' : Payment) (card : Card) : Prop :=
  (forall w, sumBy w (assetCards (fromPlayer st'))
             = (sumBy w (assetCards (fromPlayer st)) - w card)%Z)
  /\ (forall w, sumBy w (assetCards (toPlayer st'))
                = (sumBy w (assetCards (toPlayer st)) + w card)%Z)
  /\ remaining st' = (remaining st - c_value card)%Z
  /\ (0 < remaining st)%Z
  /\ sameOwner (fromPlayer st) (fromPlayer st')
  /\ sameOwner (toPlayer st) (toPlayer st').

(** Ascending order of value. *)
Definition ascending (l : list Card) : Prop :=
  StronglySorted (fun a b => (c_value a <= c_value b)%Z) l.

(** The weight that counts the copies of [x]. *)
Definition indicator (x : Card) (c : Card) : Z :=
  if Card_eq_dec c x then 1%Z else 0%Z.

(** ** The colour-resolution rule as the specification words it

    Section 4.1 of the specification: prefer an existing incomplete set of
    the card's primary colour, then of its secondary colour, then any
    existing set of the primary colour, else create a new set.  The card is
    appended to the chosen set and [isComplete] recomputed. *)
Definition firstOf (candidates : list (option nat)) : option nat :=
  fold_right (fun o acc => match o with Some i => Some i | None => acc end)
    None candidates.

Definition colorResolution41 (props : list PropertySet) (card : Card)
  : list PropertySet :=
  let primary := colorOrAny card in
  let incompleteOf k :=
    findIndex (fun s => colorEqb (s_color s) k && negb (s_isComplete s)) props in
  let choice :=
    firstOf [incompleteOf primary;
             match c_secondaryColor card with
             | Some k => incompleteOf k
             | None => None
             end;
             findIndex (fun s => colorEqb (s_color s) primary) props] in
  match choice with
  | Some i => updateAt i (pushCard card) props
  | None => props ++ [mkSet primary [card] (reachesLimit primary [card])]
  end.

(** The completion invariant of the data model on one set. *)
Definition completionHolds (s : PropertySet) : Prop :=
  s_isComplete s = reachesLimit (s_color s) (s_cards s).

(** ** Predicates on executions *)

(** The winner is set exactly in phase GAME_OVER, and it is the name of the
    active player. *)
Definition WinInv (g : GameState) : Prop :=
  match g_winner g with
  | None => g_phase g <> GAME_OVER
  | Some n => g_phase g = GAME_OVER
              /\ n = p_name (getPlayer (g_activePlayerIndex g) g)
  end.

Definition sameNames (g g' : GameState) : Prop :=
  forall i, p_name (getPlayer i g') = p_name (getPlayer i g).

Definition sameSets (g g' : GameState) : Prop :=
  forall i, p_properties (getPlayer i g') = p_properties (getPlayer i g).

(** The three shapes a step of the engine has with respect to the win
    condition: it leaves winner, phase, active player and property sets
    alone; or it ends in [checkWinCondition]; or it is a turn change between
    two phases other than GAME_OVER that leaves the property sets alone. *)
Definition Quiet (g g' : GameState) : Prop :=
  g_winner g' = g_winner g /\ g_phase g' = g_phase g
  /\ g_activePlayerIndex g' = g_activePlayerIndex g
  /\ sameNames g g' /\ sameSets g g'.

Definition Checked (g g' : GameState) : Prop :=
  exists s, g' = snd (checkWinCondition s)
            /\ g_winner s = g_winner g /\ g_phase s = g_phase g
            /\ g_activePlayerIndex s = g_activePlayerIndex g
            /\ sameNames g s.

Definition TurnChange (g g' : GameState) : Prop :=
  g_phase g <> GAME_OVER /\ g_phase g' <> GAME_OVER
  /\ g_winner g' = g_winner g /\ sameNames g g' /\ sameSets g g'.

Definition StepShape (g g' : GameState) : Prop :=
  Quiet g g' \/ Checked g g' \/ TurnChange g g'.

(** The number of sets flagged complete that player [i] holds. *)
Definition completeCount (i : PlayerIndex) (g : GameState) : nat :=
  fullSets (getPlayer i g).

(** ** Guarded executions

    The guards the user interface puts in front of the engine while an
    interaction state holds a card: [handleCardClick] selects no card, so no
    move is issued, the END TURN button is disabled, and a click on an
    opponent set starts the Force Deal only once the attacker's own set is
    chosen. *)
Definition slotsEmpty (a : App) : bool :=
  negb (isSome (pendingRentCard a))
  && negb (isSome (pendingForceDeal a))
  && negb (isSome (pendingSlyDeal a)).

Definition guardOk (o : Op) (a : App) : bool :=
  match o with
  | OpExecuteMove _ _ _ _ => slotsEmpty a
  | OpEndTurn => slotsEmpty a
  | OpInitiateForceDeal _ =>
      match pendingForceDeal a with
      | Some (mkForceDeal _ None) => false
      | _ => true
      end
  | _ => true
  end.

Inductive reachableGuarded (a0 : App) : App -> Prop :=
| greach_init : reachableGuarded a0 a0
| greach_step a o a' :
    reachableGuarded a0 a -> guardOk o a = true -> applyOp o a = Some a' ->
    reachableGuarded a0 a'.

(** At most one interaction state holds a card, and then no action is
    pending. *)
Definition SlotInv (a : App) : Prop :=
  match pendingRentCard a, pendingForceDeal a, pendingSlyDeal a with
  | None, None, None => True
  | Some _, None, None | None, Some _, None | None, None, Some _ =>
      g_pendingAction (gameState a) = None
  | _, _, _ => False
  end.

(** The weight of the cards a player holds. *)
Definition playerWeight (w : Card -> Z) (p : Player) : Z :=
  (sumBy w (p_hand p) + sumBy w (p_bank p)
   + sumBy w (propertyCards (p_properties p)))%Z.

Definition optWeight (w : Card -> Z) (o : option Card) : Z :=
  match o with Some c => w c | None => 0%Z end.

(** The weight of all cards of the component, by container. *)
Definition appWeight (i : PlayerIndex) (w : Card -> Z) (a : App) : Z :=
  (sumBy w (g_deck (gameState a)) + sumBy w (g_discardPile (gameState a))
   + playerWeight w (getPlayer i (gameState a))
   + playerWeight w (getPlayer (other i) (gameState a))
   + optWeight w (option_map pa_card (g_pendingAction (gameState a)))
   + optWeight w (pendingRentCard a)
   + optWeight w (option_map fd_card (pendingForceDeal a))
   + optWeight w (pendingSlyDeal a))%Z.

(** ** Example games

    Each example fixes a shuffle of [INITIAL_DECK] and a sequence of
    operations from [initializeGame]. *)

Definition playFrom (a0 : App) (ops : list Op) : App :=
  match runOps ops a0 with
  | Some a => a
  | None => a0
  end.

(** Player 1 deploys both Park Lanes and the Dark Blue/Green wildcard;
    Player 2 deploys a Bond Street and plays It's My Birthday. *)
Definition birthdayDeck : list Card :=
  bringToFront [80; 81; 88; 14; 15; 77; 34; 16; 17; 18] INITIAL_DECK.

Definition birthdayOps : list Op :=
  [OpStartTurn;
   OpExecuteMove 0 0 Move.PROPERTY "Park Lane-0";
   OpExecuteMove 0 0 Move.PROPERTY "Park Lane-1";
   OpExecuteMove 0 0 Move.PROPERTY "Dark Blue/Green Wild-0";
   OpEndTurn;
   OpStartTurn;
   OpExecuteMove 0 0 Move.PROPERTY "Bond Street-0";
   OpExecuteMove 0 0 Move.ACTION_PLAY "It's My Birthday-0"].

Definition birthdayPending : App :=
  playFrom (initializeGame birthdayDeck false false) birthdayOps.

Definition birthdayPaid : App :=
  playFrom birthdayPending [OpResolvePendingAction false].

(** Player 1 deploys both Park Lanes, Player 2 the Dark Blue/Green
    wildcard, and Player 1 plays a Sly Deal on that set. *)
Definition slyDeck : list Card :=
  bringToFront [80; 81; 22; 14; 15; 88; 16; 17; 18; 19] INITIAL_DECK.

Definition slyOps : list Op :=
  [OpStartTurn;
   OpExecuteMove 0 0 Move.PROPERTY "Park Lane-0";
   OpExecuteMove 0 0 Move.PROPERTY "Park Lane-1";
   OpEndTurn;
   OpStartTurn;
   OpExecuteMove 0 0 Move.PROPERTY "Dark Blue/Green Wild-0";
   OpEndTurn;
   OpStartTurn;
   OpExecuteMove 0 0 Move.ACTION_PLAY "Sly Deal-0";
   OpInitiateSlyDeal 0].

Definition slyPending : App :=
  playFrom (initializeGame slyDeck false false) slyOps.

(** Player 2 builds two complete sets and two single cards; Player 1 swaps
    his Water Works for Player 2's station with a Force Deal. *)
Definition forceDeck : list Card :=
  bringToFront [86; 25; 14; 15; 16;  60; 61; 80; 81; 87;
                17; 18;  82; 19] INITIAL_DECK.

Definition forceOps : list Op :=
  [OpStartTurn;
   OpExecuteMove 0 0 Move.PROPERTY "Water Works-0";
   OpEndTurn;
   OpStartTurn;
   OpExecuteMove 0 0 Move.PROPERTY "Old Kent Road-0";
   OpExecuteMove 0 0 Move.PROPERTY "Old Kent Road-1";
   OpExecuteMove 0 0 Move.PROPERTY "Park Lane-0";
   OpEndTurn;
   OpStartTurn;
   OpEndTurn;
   OpStartTurn;
   OpExecuteMove 0 0 Move.PROPERTY "Park Lane-1";
   OpExecuteMove 0 0 Move.PROPERTY "Water Works-1";
   OpExecuteMove 0 0 Move.PROPERTY "King's Cross Station-0";
   OpEndTurn;
   OpStartTurn;
   OpExecuteMove 0 0 Move.ACTION_PLAY "Force Deal-0";
   OpSelectMySet 0;
   OpInitiateForceDeal 3].

Definition forcePending : App :=
  playFrom (initializeGame forceDeck false false) forceOps.

(** Against the automated player: Player 1 deploys two properties of
    different colours and the automated player is about to play a Sly
    Deal. *)
Definition randomDeck : list Card :=
  bringToFront [60; 80; 14; 15; 16; 22; 17; 18; 19; 9] INITIAL_DECK.

Definition randomOps : list Op :=
  [OpStartTurn;
   OpExecuteMove 0 0 Move.PROPERTY "Old Kent Road-0";
   OpExecuteMove 0 0 Move.PROPERTY "Park Lane-0";
   OpEndTurn;
   OpStartTurn].

Definition randomTurn : App :=
  playFrom (initializeGame randomDeck true false) randomOps.

(** The guarded run of a sequence of operations. *)
Fixpoint runGuarded (ops : list Op) (a : App) : option App :=
  match ops with
  | [] => Some a
  | o :: r =>
      if guardOk o a then
        match applyOp o a with
        | Some a' => runGuarded r a'
        | None => None
        end
      else None
  end.

(** A decision procedure for equality of multisets of cards. *)
Definition sameMultiset (l1 l2 : list Card) : bool :=
  forallb (fun c => Nat.eqb (count_occ Card_eq_dec l1 c)
                      (count_occ Card_eq_dec l2 c)) (l1 ++ l2).

Definition darkBlueGreenWild : Card :=
  createCard "0" "Dark Blue/Green Wild" WILD 4 (Some DARK_BLUE)
    (Some "Use as Dark Blue or Green property.") (Some GREEN).

Definition slyDealCard : Card :=
  createCard "0" "Sly Deal" ACTION 3 None
    (Some "Steal a single property from any player.") None.

Definition birthdayCard : Card :=
  createCard "0" "It's My Birthday" ACTION 2 None
    (Some "Collect 2M from all players.") None.

(** The settlement the birthday example runs: Player 1 owes Player 2 2M. *)
Definition birthdaySettlement : Payment :=
  mkPayment (g_player0 (gameState birthdayPending))
    (g_player1 (gameState birthdayPending)) 2
    ("Player 2 used It's My Birthday! Player 1 owes 2M."
       :: g_logs (gameState birthdayPending)).

Definition birthdaySettlementNext : Payment :=
  match propertyIteration birthdaySettlement with
  | Some st => st
  | None => birthdaySettlement
  end.

Definition slyResolved : App :=
  playFrom slyPending [OpResolvePendingAction false].

Definition forceResolved : App :=
  playFrom forcePending [OpResolvePendingAction false].

(** ** shuffle (App.tsx 35-42) *)

(** [[arr[i], arr[j]] = [arr[j], arr[i]]]: both elements are read, then
    [arr[i]] and [arr[j]] are written in this order.  The loop only swaps
    positions inside the array. *)
Definition swapAt {T : Type} (i j : nat) (arr : list T) : list T :=
  match nth_error arr i, nth_error arr j with
  | Some ai, Some aj => updateAt j (fun _ => ai) (updateAt i (fun _ => aj) arr)
  | _, _ => arr
  end.

(** The loop [for (let i = newArr.length - 1; i > 0; i--)], entered with the
    current [i].  [rand i] is the random draw of the iteration with index
    [i]; [Math.floor(Math.random() * (i + 1))] is [rand i mod (i + 1)]. *)
Fixpoint shuffleLoop {T : Type} (rand : nat -> nat) (i : nat) (newArr : list T)
  : list T :=
  match i with
  | O => newArr
  | S k => shuffleLoop rand k (swapAt i (rand i mod (i + 1)) newArr)
  end.

Definition shuffle {T : Type} (rand : nat -> nat) (array : list T) : list T :=
  shuffleLoop rand (length array - 1) array.

(** ** Sound property sets *)

(** A set holds a card, and a set flagged complete holds at least as many
    cards as its colour requires. *)
Definition setSound (s : PropertySet) : Prop :=
  s_cards s <> []
  /\ (s_isComplete s = true -> reachesLimit (s_color s) (s_cards s) = true).

Definition playerSound (p : Player) : Prop := Forall setSound (p_properties p).

Definition stateSound (g : GameState) : Prop :=
  forall i, playerSound (getPlayer i g).

(** ** Further predicates on steps *)

(** [l'] is [l] with entries put in front. *)
Definition extendsFront {A : Type} (l l' : list A) : Prop :=
  exists new, l' = new ++ l.

(** [l'] is [l] with at most one entry put at the end. *)
Definition extendsBack {A : Type} (l l' : list A) : Prop :=
  exists added, l' = l ++ added /\ (length added <= 1)%nat.

(** An action is pending or an interaction state holds a card. *)
Definition busy (a : App) : bool :=
  isSome (g_pendingAction (gameState a)) || negb (slotsEmpty a).

(** The weight of a card with a negative value, 0 for every other card. *)
Definition deficit (c : Card) : Z := Z.max 0 (- c_value c).

(** The number of counter cards in the two hands. *)
Definition jsnCount (g : GameState) : nat :=
  length (filter isJustSayNo (p_hand (g_player0 g) ++ p_hand (g_player1 g))).

(** Player 1 completes the brown, the dark blue and the utility set in two
    turns. *)
Definition winDeck : list Card :=
  bringToFront [60; 61; 80; 81; 86; 14; 15; 16; 17; 18; 87; 19] INITIAL_DECK.

Definition winOps : list Op :=
  [OpStartTurn;
   OpExecuteMove 0 0 Move.PROPERTY "Old Kent Road-0";
   OpExecuteMove 0 0 Move.PROPERTY "Old Kent Road-1";
   OpExecuteMove 0 0 Move.PROPERTY "Park Lane-0";
   OpEndTurn;
   OpStartTurn;
   OpEndTurn;
   OpStartTurn;
   OpExecuteMove 0 0 Move.PROPERTY "Park Lane-1";
   OpExecuteMove 0 0 Move.PROPERTY "Water Works-0";
   OpExecuteMove 0 0 Move.PROPERTY "Water Works-1"].

Definition winReached : App :=
  playFrom (initializeGame winDeck false false) winOps.

(** Cards and states for the examples of the responses and of the
    settlement. *)
Definition justSayNoCard : Card :=
  createCard "0" "Just Say No" ACTION 4 None
    (Some "Cancel an action played against you.") None.

Definition oneMillion : Card := createCard "0" "1M" MONEY 1 None None None.

Definition fiveMillion : Card := createCard "0" "5M" MONEY 5 None None None.

(** The birthday example with a 'Just Say No' as Player 1's hand. *)
Definition counterPending : GameState :=
  setPlayer P0
    (withHand [justSayNoCard] (g_player0 (gameState birthdayPending)))
    (gameState birthdayPending).

(** The Force Deal example with a Deal Breaker pending in its place. *)
Definition dealBreakerPending : GameState :=
  withPendingAction
    (Some (mkPending DEAL_BREAKER birthdayCard P0 None None None (Some 0%nat)))
    (gameState forcePending).

(** A debtor with 6M in the bank and one property, and a creditor. *)
Definition debtor : Player :=
  mkPlayer "p1" "Player 1" [] [fiveMillion; oneMillion]
    [mkSet DARK_BLUE [darkBlueGreenWild] false] false.

Definition creditor : Player := mkPlayer "p2" "Player 2" [] [] [] false.

Definition anyRentCard : Card :=
  createCard "0" "Any Rent" RENT 3 (Some ANY)
    (Some "Collect rent for ANY color set.") None.

(** The birthday example after the payment, with a rent card awaiting the
    set it collects rent on. *)
Definition rentPending : App :=
  mkApp (gameState birthdayPaid) (Some anyRentCard) None None.

(** The first turn of the birthday example, after the draw. *)
Definition firstTurn : App :=
  playFrom (initializeGame birthdayDeck false false) [OpStartTurn].

(** ** Dropped cards

    The writes that lose a card: an interaction state is set by
    [setPendingRentCard(card)], [setPendingForceDeal({ card })] or
    [setPendingSlyDeal({ card })] (App.tsx 447, 477, 504) whatever it held,
    [endTurn] resets all three (App.tsx 574-576), [initiateForceDeal] resets
    its state also when no own set is chosen (App.tsx 374, 389), and both
    [initiate] functions assign [pendingAction] whatever it held (App.tsx
    377, 397).  [dropped o a] lists the cards held before the operation [o]
    that such a write of [o] replaces. *)
Definition dropped (o : Op) (a : App) : list Card :=
  let prev := gameState a in
  let pendingCard := optCard (option_map pa_card (g_pendingAction prev)) in
  match o with
  | OpExecuteMove _ _ type cardId =>
      if (g_actionsRemaining prev <=? 0)%Z
         || match g_phase prev with PLAY_PHASE => false | _ => true end
         || truthyWinner (g_winner prev)
         || isSome (g_pendingAction prev)
      then []
      else
        let player := getPlayer (g_activePlayerIndex prev) prev in
        match type, findEntry (cardHasId cardId) (p_hand player) with
        | Move.ACTION_PLAY, Some (_, card) =>
            if hasType RENT card then optCard (pendingRentCard a)
            else if String.eqb (c_name card) "Force Deal" then
              if p_isAI player then []
              else optCard (option_map fd_card (pendingForceDeal a))
            else if String.eqb (c_name card) "Sly Deal" then
              if p_isAI player then [] else optCard (pendingSlyDeal a)
            else []
        | _, _ => []
        end
  | OpInitiateForceDeal _ =>
      match pendingForceDeal a with
      | Some (mkForceDeal _ (Some _)) => pendingCard
      | Some (mkForceDeal card None) => [card]
      | None => []
      end
  | OpInitiateSlyDeal _ =>
      match pendingSlyDeal a with
      | Some _ => pendingCard
      | None => []
      end
  | OpEndTurn =>
      optCard (pendingRentCard a)
      ++ optCard (option_map fd_card (pendingForceDeal a))
      ++ optCard (pendingSlyDeal a)
  | _ => []
  end.

(** The states a game reaches through operations none of which drops a
    card. *)
Inductive reachableKeeping (a0 : App) : App -> Prop :=
| keep_init : reachableKeeping a0 a0
| keep_step a o a' :
    reachableKeeping a0 a -> dropped o a = [] -> applyOp o a = Some a' ->
    reachableKeeping a0 a'.

(** [dropped o a] is empty. *)
Definition dropsNothing (o : Op) (a : App) : bool :=
  match dropped o a with [] => true | _ :: _ => false end.

(** The run of a sequence of operations none of which drops a card. *)
Fixpoint runKeeping (ops : list Op) (a : App) : option App :=
  match ops with
  | [] => Some a
  | o :: r =>
      if dropsNothing o a then
        match applyOp o a with
        | Some a' => runKeeping r a'
        | None => None
        end
      else None
  end.

(** Against the automated player, who holds both Brown/Light Blue rent
    cards; Player 1 holds a Sly Deal, a Force Deal and an It's My
    Birthday. *)
Definition lossDeck : list Card :=
  bringToFront [22; 25; 34; 14; 15; 47; 48; 16; 17; 18] INITIAL_DECK.

Definition lossGame : App := initializeGame lossDeck true false.

(** The automated player plays a rent card and his turn ends. *)
Definition rentThenEndTurn : list Op :=
  [OpStartTurn; OpEndTurn; OpStartTurn;
   OpExecuteMove 0 0 Move.ACTION_PLAY "Rent (Brown/L.Blue)-0";
   OpEndTurn].

(** The automated player plays both rent cards. *)
Definition rentTwice : list Op :=
  [OpStartTurn; OpEndTurn; OpStartTurn;
   OpExecuteMove 0 0 Move.ACTION_PLAY "Rent (Brown/L.Blue)-0";
   OpExecuteMove 0 0 Move.ACTION_PLAY "Rent (Brown/L.Blue)-1"].

(** Player 1 plays the Force Deal and a set of the opponent is chosen
    before one of his own. *)
Definition forceDealWithoutOwnSet : list Op :=
  [OpStartTurn;
   OpExecuteMove 0 0 Move.ACTION_PLAY "Force Deal-0";
   OpInitiateForceDeal 0].

(** Player 1 plays the Sly Deal, then It's My Birthday, then chooses the
    target of the Sly Deal. *)
Definition slyDealOverBirthday : list Op :=
  [OpStartTurn;
   OpExecuteMove 0 0 Move.ACTION_PLAY "Sly Deal-0";
   OpExecuteMove 0 0 Move.ACTION_PLAY "It's My Birthday-0";
   OpInitiateSlyDeal 0].

Definition rentCardLost : App := playFrom lossGame rentThenEndTurn.
Definition rentCardOverwritten : App := playFrom lossGame rentTwice.
Definition forceDealLost : App := playFrom lossGame forceDealWithoutOwnSet.
Definition birthdayOverwritten : App := playFrom lossGame slyDealOverBirthday.

Definition brownRentCard : Card :=
  createCard "0" "Rent (Brown/L.Blue)" RENT 1 (Some BROWN)
    (Some "Collect rent for Brown or Light Blue sets.") (Some LIGHT_BLUE).

(** * Properties of the engine *)

(** ** Lemmas on the array helpers *)

Lemma pop_Some {A : Type} (l : list A) x r :
  pop l = Some (x, r) -> l = r ++ [x].
Proof.
  unfold pop. intros H.
  destruct (rev l) as [|y t] eqn:E; [discriminate|].
  inversion H; subst.
  rewrite <- (rev_involutive l), E. reflexivity.
Qed.

Lemma pop_None {A : Type} (l : list A) : pop l = None -> l = [].
Proof.
  unfold pop. intros H.
  destruct (rev l) as [|y t] eqn:E; [|discriminate].
  rewrite <- (rev_involutive l), E. reflexivity.
Qed.

Lemma pop_snoc {A : Type} (r : list A) x : pop (r ++ [x]) = Some (x, r).
Proof.
  unfold pop. rewrite rev_app_distr. simpl. now rewrite rev_involutive.
Qed.

Lemma findIndex_Some {A : Type} (f : A -> bool) l i :
  findIndex f l = Some i ->
  exists x, nth_error l i = Some x /\ f x = true
            /\ forall j y, (j < i)%nat -> nth_error l j = Some y -> f y = false.
Proof.
  revert i. induction l as [|a l IH]; simpl; intros i H; [discriminate|].
  destruct (f a) eqn:Fa.
  - inversion H; subst. exists a. repeat split; auto. intros j y Hj. lia.
  - destruct (findIndex f l) as [k|] eqn:E; [|discriminate].
    inversion H; subst. destruct (IH k eq_refl) as (x & Hx & Fx & Hlt).
    exists x. repeat split; auto.
    intros [|j] y Hj Hy; simpl in Hy.
    + now inversion Hy; subst.
    + apply (Hlt j); auto. lia.
Qed.

Lemma findIndex_None {A : Type} (f : A -> bool) l :
  findIndex f l = None -> forall x, In x l -> f x = false.
Proof.
  induction l as [|a l IH]; simpl; intros H x Hx; [contradiction|].
  destruct (f a) eqn:Fa; [discriminate|].
  destruct (findIndex f l) eqn:E; [discriminate|].
  destruct Hx as [<-|Hx]; auto.
Qed.

Lemma findEntry_Some {A : Type} (f : A -> bool) l i x :
  findEntry f l = Some (i, x) ->
  findIndex f l = Some i /\ nth_error l i = Some x /\ f x = true.
Proof.
  unfold findEntry. intros H.
  destruct (findIndex f l) as [k|] eqn:E; [|discriminate].
  destruct (findIndex_Some f l k E) as (y & Hy & Fy & _).
  rewrite Hy in H. inversion H; subst. auto.
Qed.

Lemma findEntry_None {A : Type} (f : A -> bool) l :
  findEntry f l = None -> findIndex f l = None.
Proof.
  unfold findEntry. intros H.
  destruct (findIndex f l) as [k|] eqn:E; auto.
  destruct (findIndex_Some f l k E) as (y & Hy & _). now rewrite Hy in H.
Qed.

Lemma spliceOut_split {A : Type} (l : list A) i x :
  nth_error l i = Some x ->
  exists l1 l2, l = l1 ++ x :: l2 /\ spliceOut i l = l1 ++ l2
                /\ length l1 = i.
Proof.
  revert i. induction l as [|a l IH]; intros [|i] H; simpl in *; try discriminate.
  - inversion H; subst. now exists [], l.
  - destruct (IH i H) as (l1 & l2 & -> & E & L).
    exists (a :: l1), l2. simpl. now rewrite E, L.
Qed.

Lemma updateAt_split {A : Type} (f : A -> A) (l : list A) i x :
  nth_error l i = Some x ->
  exists l1 l2, l = l1 ++ x :: l2 /\ updateAt i f l = l1 ++ f x :: l2
                /\ length l1 = i.
Proof.
  revert i. induction l as [|a l IH]; intros [|i] H; simpl in *; try discriminate.
  - inversion H; subst. now exists [], l.
  - destruct (IH i H) as (l1 & l2 & -> & E & L).
    exists (a :: l1), l2. simpl. now rewrite E, L.
Qed.

(** ** Lemmas on weights *)

Lemma sumBy_app w l1 l2 : sumBy w (l1 ++ l2) = (sumBy w l1 + sumBy w l2)%Z.
Proof. induction l1; simpl; lia. Qed.

Lemma sumBy_cons w c l : sumBy w (c :: l) = (w c + sumBy w l)%Z.
Proof. reflexivity. Qed.

Lemma sumBy_nil w : sumBy w [] = 0%Z.
Proof. reflexivity. Qed.

Lemma propertyCards_app l1 l2 :
  propertyCards (l1 ++ l2) = propertyCards l1 ++ propertyCards l2.
Proof. unfold propertyCards. now rewrite map_app, concat_app. Qed.

Lemma propertyCards_cons s l :
  propertyCards (s :: l) = s_cards s ++ propertyCards l.
Proof. reflexivity. Qed.

Lemma sumBy_firstn_skipn w n l :
  (sumBy w (firstn n l) + sumBy w (skipn n l))%Z = sumBy w l.
Proof. rewrite <- sumBy_app. now rewrite firstn_skipn. Qed.

Lemma sumBy_spliceOut w (l : list Card) i x :
  nth_error l i = Some x ->
  sumBy w (spliceOut i l) = (sumBy w l - w x)%Z.
Proof.
  intros H. destruct (spliceOut_split l i x H) as (l1 & l2 & -> & -> & _).
  rewrite !sumBy_app, sumBy_cons. lia.
Qed.

Lemma sumBy_props_spliceOut w (l : list PropertySet) i s :
  nth_error l i = Some s ->
  sumBy w (propertyCards (spliceOut i l))
  = (sumBy w (propertyCards l) - sumBy w (s_cards s))%Z.
Proof.
  intros H. destruct (spliceOut_split l i s H) as (l1 & l2 & -> & -> & _).
  rewrite !propertyCards_app, propertyCards_cons, !sumBy_app. lia.
Qed.

Lemma sumBy_props_updateAt w f (l : list PropertySet) i s :
  nth_error l i = Some s ->
  sumBy w (propertyCards (updateAt i f l))
  = (sumBy w (propertyCards l) - sumBy w (s_cards s) + sumBy w (s_cards (f s)))%Z.
Proof.
  intros H. destruct (updateAt_split f l i s H) as (l1 & l2 & -> & -> & _).
  rewrite !propertyCards_app, !propertyCards_cons, !sumBy_app. lia.
Qed.

Lemma sumBy_props_afterPop w props i set card rest :
  nth_error props i = Some set -> s_cards set = rest ++ [card] ->
  sumBy w (propertyCards (afterPop i rest props))
  = (sumBy w (propertyCards props) - w card)%Z.
Proof.
  intros H E. unfold afterPop. destruct rest as [|c0 rest'].
  - rewrite (sumBy_props_spliceOut w props i set H), E. simpl. lia.
  - rewrite (sumBy_props_updateAt w _ props i set H), E. simpl s_cards.
    rewrite !sumBy_app. simpl. lia.
Qed.

Lemma sumBy_props_pushAt w props j c f :
  findIndex f props = Some j ->
  sumBy w (propertyCards (updateAt j (pushCard c) props))
  = (sumBy w (propertyCards props) + w c)%Z.
Proof.
  intros H. destruct (findIndex_Some f props j H) as (s & Hs & _).
  rewrite (sumBy_props_updateAt w _ props j s Hs). simpl.
  rewrite sumBy_app. simpl. lia.
Qed.

Lemma sumBy_props_pushNewSet w props color c :
  sumBy w (propertyCards (pushNewSet color c props))
  = (sumBy w (propertyCards props) + w c)%Z.
Proof.
  unfold pushNewSet. rewrite propertyCards_app, sumBy_app. simpl. lia.
Qed.

(** ** The settlement loops *)

Lemma sumBy_ones l : sumBy (fun _ => 1%Z) l = Z.of_nat (length l).
Proof.
  induction l as [|c l IH]; [reflexivity|].
  rewrite sumBy_cons, IH. simpl length. lia.
Qed.

Lemma assetCount_sumBy p :
  Z.of_nat (assetCount p) = sumBy (fun _ => 1%Z) (assetCards p).
Proof.
  unfold assetCount, assetCards. rewrite sumBy_app, !sumBy_ones. lia.
Qed.

Lemma sameOwner_refl p : sameOwner p p.
Proof. repeat split. Qed.

Lemma sameOwner_trans p q r : sameOwner p q -> sameOwner q r -> sameOwner p r.
Proof.
  unfold sameOwner. intros (A1 & A2 & A3 & A4) (B1 & B2 & B3 & B4).
  repeat split; congruence.
Qed.

Lemma bankIteration_Some st st' :
  bankIteration st = Some st' ->
  exists card,
    p_bank (fromPlayer st) = card :: p_bank (fromPlayer st')
    /\ p_bank (toPlayer st') = p_bank (toPlayer st) ++ [card]
    /\ p_properties (fromPlayer st') = p_properties (fromPlayer st)
    /\ p_properties (toPlayer st') = p_properties (toPlayer st)
    /\ transfers st st' card.
Proof.
  unfold bankIteration. intros H.
  destruct (0 <? remaining st)%Z eqn:R; [|discriminate].
  apply Z.ltb_lt in R.
  destruct (p_bank (fromPlayer st)) as [|card rest] eqn:B; [discriminate|].
  inversion H; subst; clear H. exists card. simpl.
  repeat split; auto; intros; unfold assetCards; simpl;
    rewrite ?B, ?sumBy_app, ?sumBy_cons; simpl; lia.
Qed.

Lemma bankIteration_None st :
  bankIteration st = None ->
  (remaining st <= 0)%Z \/ p_bank (fromPlayer st) = [].
Proof.
  unfold bankIteration. intros H.
  destruct (0 <? remaining st)%Z eqn:R.
  - destruct (p_bank (fromPlayer st)); [now right | discriminate].
  - apply Z.ltb_ge in R. now left.
Qed.

Lemma propertyIteration_Some st st' :
  propertyIteration st = Some st' ->
  exists setIdx set card rest,
    findEntry (fun p => (0 <? length (s_cards p))%nat)
      (p_properties (fromPlayer st)) = Some (setIdx, set)
    /\ s_cards set = rest ++ [card]
    /\ p_properties (fromPlayer st')
       = afterPop setIdx rest (p_properties (fromPlayer st))
    /\ p_properties (toPlayer st')
       = match findIndex (fun p => colorEqb (s_color p) (colorOrAny card))
                 (p_properties (toPlayer st)) with
         | Some j => updateAt j (pushCard card) (p_properties (toPlayer st))
         | None => pushNewSet (colorOrAny card) card (p_properties (toPlayer st))
         end
    /\ p_bank (fromPlayer st') = p_bank (fromPlayer st)
    /\ p_bank (toPlayer st') = p_bank (toPlayer st)
    /\ transfers st st' card.
Proof.
  unfold propertyIteration. intros H.
  destruct (0 <? remaining st)%Z eqn:R; [|discriminate].
  apply Z.ltb_lt in R.
  destruct (p_properties (fromPlayer st)) as [|s0 ps] eqn:P; [discriminate|].
  destruct (findEntry _ (s0 :: ps)) as [[setIdx set]|] eqn:F; [|discriminate].
  destruct (pop (s_cards set)) as [[card rest]|] eqn:Pp; [|discriminate].
  inversion H; subst; clear H.
  apply pop_Some in Pp.
  destruct (findEntry_Some _ _ _ _ F) as (_ & Hn & _).
  exists setIdx, set, card, rest. simpl.
  repeat split; auto; intros; unfold assetCards; simpl; rewrite !sumBy_app.
  - rewrite (sumBy_props_afterPop w _ _ _ _ _ Hn Pp). rewrite ?P. lia.
  - destruct (findIndex _ (p_properties (toPlayer st))) as [j|] eqn:E.
    + rewrite (sumBy_props_pushAt w _ _ _ _ E). lia.
    + rewrite sumBy_props_pushNewSet. lia.
Qed.

Lemma propertyIteration_None st :
  propertyIteration st = None ->
  (remaining st <= 0)%Z \/ propertyCards (p_properties (fromPlayer st)) = [].
Proof.
  unfold propertyIteration. intros H.
  destruct (0 <? remaining st)%Z eqn:R; [|apply Z.ltb_ge in R; now left].
  right.
  destruct (p_properties (fromPlayer st)) as [|s0 ps] eqn:P; [reflexivity|].
  destruct (findEntry _ (s0 :: ps)) as [[setIdx set]|] eqn:F.
  - destruct (findEntry_Some _ _ _ _ F) as (_ & _ & Hne).
    destruct (pop (s_cards set)) as [[card rest]|] eqn:Pp; [discriminate|].
    apply pop_None in Pp. rewrite Pp in Hne. discriminate.
  - apply findEntry_None in F.
    assert (A : forall x, In x (s0 :: ps) -> s_cards x = []).
    { intros x Hx. pose proof (findIndex_None _ _ F x Hx) as E.
      revert E. cbv beta. destruct (s_cards x); [reflexivity | discriminate]. }
    clear F P. induction (s0 :: ps) as [|y l IH]; [reflexivity|].
    rewrite propertyCards_cons, (A y (or_introl eq_refl)). simpl.
    apply IH. intros x Hx. apply A. now right.
Qed.

Lemma while_invariant {S : Type} (P : S -> Prop) (body : S -> option S) :
  (forall s s', body s = Some s' -> P s -> P s') ->
  forall fuel st, P st -> P (while fuel body st).
Proof.
  intros Hstep fuel. induction fuel as [|k IH]; intros st Hst; simpl; auto.
  destruct (body st) as [st'|] eqn:E; auto.
  apply IH. eapply Hstep; eauto.
Qed.

Lemma while_exit {S : Type} (m : S -> nat) (body : S -> option S) :
  (forall s s', body s = Some s' -> (m s' < m s)%nat) ->
  forall fuel st, (m st <= fuel)%nat -> body (while fuel body st) = None.
Proof.
  intros Hdec fuel. induction fuel as [|k IH]; intros st Hm; simpl.
  - destruct (body st) as [st'|] eqn:E; auto.
    specialize (Hdec _ _ E). lia.
  - destruct (body st) as [st'|] eqn:E; auto.
    apply IH. specialize (Hdec _ _ E). lia.
Qed.

Lemma while_stuck {S : Type} (body : S -> option S) fuel st :
  body st = None -> while fuel body st = st.
Proof. intros H. destruct fuel; simpl; [reflexivity | now rewrite H]. Qed.

Lemma transfers_count st st' card :
  transfers st st' card ->
  S (assetCount (fromPlayer st')) = assetCount (fromPlayer st).
Proof.
  intros (Hf & _). specialize (Hf (fun _ => 1%Z)).
  rewrite <- !assetCount_sumBy in Hf. lia.
Qed.

Lemma while_more_fuel {S : Type} (body : S -> option S) n :
  forall m st, body (while n body st) = None -> (n <= m)%nat ->
               while m body st = while n body st.
Proof.
  induction n as [|k IH]; intros m st H Hm; simpl in *.
  - now apply while_stuck.
  - destruct m as [|m]; [lia|]. simpl.
    destruct (body st) as [st'|] eqn:E; auto.
    apply IH; auto. lia.
Qed.

(** ** The sort of the bank *)

Lemma insertByValue_perm c l : Permutation (insertByValue c l) (c :: l).
Proof.
  induction l as [|d r IH]; simpl; auto.
  destruct (c_value c <=? c_value d)%Z; auto.
  rewrite IH. apply perm_swap.
Qed.

Lemma sortByValue_perm l : Permutation (sortByValue l) l.
Proof.
  induction l as [|c l IH]; simpl; auto.
  rewrite insertByValue_perm. now constructor.
Qed.

Lemma insertByValue_ascending c l :
  ascending l -> ascending (insertByValue c l).
Proof.
  unfold ascending. induction l as [|d r IH]; simpl; intros H.
  - constructor; constructor.
  - destruct (c_value c <=? c_value d)%Z eqn:E.
    + apply Z.leb_le in E. constructor; auto.
      constructor; auto.
      apply StronglySorted_inv in H. destruct H as [_ H].
      eapply Forall_impl; [|exact H]. intros a Ha. simpl in Ha. lia.
    + apply Z.leb_gt in E. apply StronglySorted_inv in H. destruct H as [H1 H2].
      constructor; auto.
      eapply Permutation_Forall; [symmetry; apply insertByValue_perm|].
      constructor; auto. lia.
Qed.

Lemma sortByValue_ascending l : ascending (sortByValue l).
Proof.
  induction l as [|c l IH]; simpl.
  - constructor.
  - now apply insertByValue_ascending.
Qed.

Lemma sumBy_perm w l l' : Permutation l l' -> sumBy w l = sumBy w l'.
Proof.
  induction 1; rewrite ?sumBy_cons; lia.
Qed.

Lemma snoc_split {A : Type} (paid q q' : list A) (card c : A) :
  paid ++ [card] = q ++ c :: q' ->
  (q = paid /\ c = card /\ q' = [])
  \/ exists q'', q' = q'' ++ [card] /\ paid = q ++ c :: q''.
Proof.
  intros H. destruct (exists_last (l := c :: q')) as (t & z & E); [discriminate|].
  rewrite E, app_assoc in H. apply app_inj_tail in H. destruct H as [-> ->].
  destruct t as [|c' t'].
  - left. simpl in E. inversion E; subst. rewrite app_nil_r. auto.
  - right. simpl in E. inversion E; subst. exists t'. auto.
Qed.

(** Both loops of [processPayment] have reached their exit when the
    iterations it is given are used up. *)
Lemma payment_loops_reach_exit (from to : Player) (amount : Z)
  (lg : list string) :
  bankIteration
    (while (assetCount from) bankIteration
       (mkPayment (withBank (sortByValue (p_bank from)) from) to amount lg))
  = None
  /\ propertyIteration (processPayment from to amount lg) = None.
Proof.
  set (st0 := mkPayment (withBank (sortByValue (p_bank from)) from) to amount lg).
  set (st1 := while (assetCount from) bankIteration st0).
  assert (Hb : forall s s', bankIteration s = Some s' ->
                 (assetCount (fromPlayer s') < assetCount (fromPlayer s))%nat).
  { intros s s' H. destruct (bankIteration_Some _ _ H) as (c & _ & _ & _ & _ & T).
    apply transfers_count in T. lia. }
  assert (Hp : forall s s', propertyIteration s = Some s' ->
                 (assetCount (fromPlayer s') < assetCount (fromPlayer s))%nat).
  { intros s s' H.
    destruct (propertyIteration_Some _ _ H) as (i & x & c & r & _ & _ & _ & _ & _ & _ & T).
    apply transfers_count in T. lia. }
  assert (H0 : assetCount (fromPlayer st0) = assetCount from).
  { unfold st0, assetCount. simpl.
    now rewrite (Permutation_length (sortByValue_perm (p_bank from))). }
  assert (H1 : (assetCount (fromPlayer st1) <= assetCount from)%nat).
  { unfold st1.
    apply (while_invariant
             (fun s => (assetCount (fromPlayer s) <= assetCount from)%nat)).
    - intros s s' H Hs. specialize (Hb _ _ H). lia.
    - lia. }
  split.
  - apply (while_exit (fun s => assetCount (fromPlayer s))); auto. lia.
  - unfold processPayment. fold st0. fold st1.
    apply (while_exit (fun s => assetCount (fromPlayer s))); auto.
Qed.

(** C10.  [processPayment] terminates on every input: each iteration of the
    bank loop takes exactly one card out of the debtor's bank, each
    iteration of the property loop takes exactly one card out of the
    debtor's properties, the property loop stops when no set holds a card,
    and so both loops have reached their exit within as many iterations as
    the debtor holds cards, whatever the amount and the card values; a
    larger budget of iterations returns the same payment. *)
Theorem processPayment_loops_exit (from to : Player) (amount : Z)
  (lg : list string) :
  let st0 := mkPayment (withBank (sortByValue (p_bank from)) from) to amount lg in
  let st1 := while (assetCount from) bankIteration st0 in
  bankIteration st1 = None
  /\ propertyIteration (processPayment from to amount lg) = None
  /\ (forall n m, (assetCount from <= n)%nat -> (assetCount from <= m)%nat ->
        while m propertyIteration (while n bankIteration st0)
        = processPayment from to amount lg)
  /\ (forall st st', bankIteration st = Some st' ->
        S (length (p_bank (fromPlayer st'))) = length (p_bank (fromPlayer st))
        /\ p_properties (fromPlayer st') = p_properties (fromPlayer st)
        /\ S (assetCount (fromPlayer st')) = assetCount (fromPlayer st))
  /\ (forall st st', propertyIteration st = Some st' ->
        S (length (propertyCards (p_properties (fromPlayer st'))))
        = length (propertyCards (p_properties (fromPlayer st)))
        /\ p_bank (fromPlayer st') = p_bank (fromPlayer st)
        /\ S (assetCount (fromPlayer st')) = assetCount (fromPlayer st))
  /\ (forall st, propertyCards (p_properties (fromPlayer st)) = [] ->
        propertyIteration st = None).
Proof.
  intros st0 st1.
  assert (Hb : forall s s', bankIteration s = Some s' ->
                 (assetCount (fromPlayer s') < assetCount (fromPlayer s))%nat).
  { intros s s' H. destruct (bankIteration_Some _ _ H) as (c & _ & _ & _ & _ & T).
    apply transfers_count in T. lia. }
  assert (Hp : forall s s', propertyIteration s = Some s' ->
                 (assetCount (fromPlayer s') < assetCount (fromPlayer s))%nat).
  { intros s s' H.
    destruct (propertyIteration_Some _ _ H) as (i & x & c & r & _ & _ & _ & _ & _ & _ & T).
    apply transfers_count in T. lia. }
  assert (H0 : assetCount (fromPlayer st0) = assetCount from).
  { unfold st0, assetCount. simpl.
    now rewrite (Permutation_length (sortByValue_perm (p_bank from))). }
  assert (E1 : bankIteration st1 = None).
  { apply (while_exit (fun s => assetCount (fromPlayer s))); auto. lia. }
  assert (H1 : (assetCount (fromPlayer st1) <= assetCount from)%nat).
  { unfold st1.
    apply (while_invariant
             (fun s => (assetCount (fromPlayer s) <= assetCount from)%nat)).
    - intros s s' H Hs. specialize (Hb _ _ H). lia.
    - lia. }
  assert (E2 : propertyIteration (processPayment from to amount lg) = None).
  { unfold processPayment. fold st0. fold st1.
    apply (while_exit (fun s => assetCount (fromPlayer s))); auto. }
  split; [exact E1|]. split; [exact E2|]. split; [|split; [|split]].
  - intros n m Hn Hm. unfold processPayment. fold st0.
    rewrite (while_more_fuel bankIteration (assetCount from) n st0 E1 Hn).
    fold st1. apply while_more_fuel; auto.
  - intros st st' H.
    destruct (bankIteration_Some _ _ H) as (c & B & _ & P & _ & T).
    rewrite B, P. simpl. repeat split. now apply transfers_count in T.
  - intros st st' H.
    destruct (propertyIteration_Some _ _ H)
      as (i & x & c & r & _ & _ & _ & _ & B & _ & T).
    pose proof (transfers_count _ _ _ T) as Hc.
    unfold assetCount in Hc. rewrite B in Hc. repeat split; auto.
    + lia.
    + unfold assetCount. rewrite B. lia.
  - intros st Hst. destruct (propertyIteration st) as [st'|] eqn:E; auto.
    destruct (propertyIteration_Some _ _ E)
      as (i & x & c & r & _ & _ & _ & _ & B & _ & T).
    pose proof (transfers_count _ _ _ T) as Hc.
    unfold assetCount in Hc. rewrite B, Hst in Hc. simpl in Hc. lia.
Qed.

(** ** Weights and multisets *)

Lemma sumBy_indicator x l :
  sumBy (indicator x) l = Z.of_nat (count_occ Card_eq_dec l x).
Proof.
  induction l as [|c l IH]; [reflexivity|].
  rewrite sumBy_cons, IH. unfold indicator. simpl count_occ.
  destruct (Card_eq_dec c x); lia.
Qed.

Lemma Permutation_of_sumBy l1 l2 :
  (forall w, sumBy w l1 = sumBy w l2) -> Permutation l1 l2.
Proof.
  intros H. apply (Permutation_count_occ Card_eq_dec). intros x.
  specialize (H (indicator x)). rewrite !sumBy_indicator in H. lia.
Qed.

(** ** Settlement *)

(** What the bank loop has done when it stops. *)
Lemma bank_loop_paid (from to : Player) (amount : Z) (lg : list string) fuel :
  let st0 := mkPayment (withBank (sortByValue (p_bank from)) from) to amount lg in
  let st1 := while fuel bankIteration st0 in
  exists paid,
    sortByValue (p_bank from) = paid ++ p_bank (fromPlayer st1)
    /\ p_bank (toPlayer st1) = p_bank to ++ paid
    /\ remaining st1 = (amount - totalValue paid)%Z
    /\ (forall q c q', paid = q ++ c :: q' -> (0 < amount - totalValue q)%Z)
    /\ p_properties (fromPlayer st1) = p_properties from
    /\ p_properties (toPlayer st1) = p_properties to.
Proof.
  intros st0 st1. unfold st1.
  apply (while_invariant
           (fun st => exists paid,
                sortByValue (p_bank from) = paid ++ p_bank (fromPlayer st)
                /\ p_bank (toPlayer st) = p_bank to ++ paid
                /\ remaining st = (amount - totalValue paid)%Z
                /\ (forall q c q', paid = q ++ c :: q' ->
                                   (0 < amount - totalValue q)%Z)
                /\ p_properties (fromPlayer st) = p_properties from
                /\ p_properties (toPlayer st) = p_properties to)).
  - intros s s' H (paid & A & B & C & D & E & F).
    destruct (bankIteration_Some _ _ H) as (card & Hb & Ht & Pf & Pt & T).
    destruct T as (_ & _ & Hr & Hpos & _).
    exists (paid ++ [card]). repeat split.
    + rewrite A, Hb, <- app_assoc. reflexivity.
    + rewrite Ht, B, <- app_assoc. reflexivity.
    + rewrite Hr, C. unfold totalValue. rewrite sumBy_app. simpl. lia.
    + intros q c q' Hq. apply snoc_split in Hq.
      destruct Hq as [(-> & _ & _)|(q'' & _ & Hq)]; [lia | eauto].
    + congruence.
    + congruence.
  - exists []. repeat split; auto.
    + cbn. now rewrite app_nil_r.
    + unfold totalValue. rewrite sumBy_nil. cbn [remaining st0]. lia.
    + intros q c q' Hq. destruct q; discriminate.
Qed.

(** What both loops preserve. *)
Lemma payment_loop_invariant (P : Payment -> Prop) :
  (forall st st' card, transfers st st' card -> P st -> P st') ->
  forall n m st, P st ->
    P (while m propertyIteration (while n bankIteration st)).
Proof.
  intros Hstep n m st Hst.
  apply while_invariant.
  - intros s s' H Hs.
    destruct (propertyIteration_Some _ _ H)
      as (i & x & c & r & _ & _ & _ & _ & _ & _ & T). eauto.
  - apply while_invariant; auto.
    intros s s' H Hs.
    destruct (bankIteration_Some _ _ H) as (c & _ & _ & _ & _ & T). eauto.
Qed.

(** Every weight is conserved between debtor and creditor, the debt falls
    by the value handed over, and nothing but banks and properties moves. *)
Lemma processPayment_conserves (from to : Player) (amount : Z) (lg : list string) :
  let r := processPayment from to amount lg in
  (forall w, (sumBy w (assetCards (fromPlayer r)) + sumBy w (assetCards (toPlayer r))
              = sumBy w (assetCards from) + sumBy w (assetCards to))%Z)
  /\ (remaining r + assetValue (toPlayer r) = amount + assetValue to)%Z
  /\ sameOwner from (fromPlayer r) /\ sameOwner to (toPlayer r).
Proof.
  intros r. unfold r, processPayment.
  set (st0 := mkPayment (withBank (sortByValue (p_bank from)) from) to amount lg).
  assert (S0 : forall w, sumBy w (assetCards (fromPlayer st0))
                         = sumBy w (assetCards from)).
  { intros w. unfold st0, assetCards. simpl. rewrite !sumBy_app.
    now rewrite (sumBy_perm w _ _ (sortByValue_perm (p_bank from))). }
  apply (payment_loop_invariant
           (fun st =>
              (forall w, (sumBy w (assetCards (fromPlayer st))
                          + sumBy w (assetCards (toPlayer st))
                          = sumBy w (assetCards from) + sumBy w (assetCards to))%Z)
              /\ (remaining st + assetValue (toPlayer st) = amount + assetValue to)%Z
              /\ sameOwner from (fromPlayer st) /\ sameOwner to (toPlayer st))).
  - intros st st' card (Tf & Tt & Tr & _ & Of & Ot) (A & B & D & E).
    split; [|split; [|split]].
    + intros w. rewrite Tf, Tt. specialize (A w). lia.
    + unfold assetValue, totalValue in *. rewrite Tt, Tr. lia.
    + apply (sameOwner_trans _ _ _ D Of).
    + apply (sameOwner_trans _ _ _ E Ot).
  - split; [|split; [|split]].
    + intros w. rewrite S0. reflexivity.
    + reflexivity.
    + unfold st0. simpl. repeat split.
    + apply sameOwner_refl.
Qed.

Lemma propertyIteration_paid st :
  (remaining st <= 0)%Z -> propertyIteration st = None.
Proof.
  intros H. unfold propertyIteration.
  destruct (0 <? remaining st)%Z eqn:R; auto. apply Z.ltb_lt in R. lia.
Qed.

(** The property loop leaves both banks alone and only shrinks the debtor's
    sets. *)
Lemma property_loop_banks fuel st :
  let r := while fuel propertyIteration st in
  p_bank (fromPlayer r) = p_bank (fromPlayer st)
  /\ p_bank (toPlayer r) = p_bank (toPlayer st)
  /\ (length (propertyCards (p_properties (fromPlayer r)))
      <= length (propertyCards (p_properties (fromPlayer st))))%nat.
Proof.
  intros r. unfold r.
  apply (while_invariant
           (fun s => p_bank (fromPlayer s) = p_bank (fromPlayer st)
                     /\ p_bank (toPlayer s) = p_bank (toPlayer st)
                     /\ (length (propertyCards (p_properties (fromPlayer s)))
                         <= length (propertyCards (p_properties (fromPlayer st))))%nat)).
  - intros s s' H (A & B & C).
    destruct (propertyIteration_Some _ _ H)
      as (i & x & c & q & _ & _ & _ & _ & Bf & Bt & T).
    pose proof (transfers_count _ _ _ T) as Hc.
    unfold assetCount in Hc. rewrite Bf in Hc.
    repeat split; try congruence. lia.
  - repeat split; auto.
Qed.

(** C4.  Settlement: the debtor's bank is put in ascending order of value
    and its cards go to the creditor's bank one at a time from the lowest,
    each while debt remains, until the debt is at most 0 or the bank is
    empty; cards move whole and nothing comes back, so what the debtor
    loses is what the creditor gains; no container of the debtor holds more
    than before (the hand is untouched); and the value the creditor
    receives is at least the smaller of the amount and the debtor's total
    asset value. *)
Theorem processPayment_settles (from to : Player) (amount : Z)
  (lg : list string) :
  let r := processPayment from to amount lg in
  let sorted := sortByValue (p_bank from) in
  exists paid,
    ascending sorted /\ Permutation sorted (p_bank from)
    /\ sorted = paid ++ p_bank (fromPlayer r)
    /\ p_bank (toPlayer r) = p_bank to ++ paid
    /\ (forall q c q', paid = q ++ c :: q' -> (0 < amount - totalValue q)%Z)
    /\ ((amount - totalValue paid <= 0)%Z \/ p_bank (fromPlayer r) = [])
    /\ Permutation (assetCards (fromPlayer r) ++ assetCards (toPlayer r))
         (assetCards from ++ assetCards to)
    /\ (length (p_bank (fromPlayer r)) + length paid = length (p_bank from))%nat
    /\ (length (propertyCards (p_properties (fromPlayer r)))
        <= length (propertyCards (p_properties from)))%nat
    /\ p_hand (fromPlayer r) = p_hand from
    /\ (Z.min amount (assetValue from)
        <= assetValue (toPlayer r) - assetValue to)%Z.
Proof.
  intros r sorted.
  destruct (bank_loop_paid from to amount lg (assetCount from))
    as (paid & A & B & C & D & E & F).
  destruct (payment_loops_reach_exit from to amount lg) as (E1 & E2).
  destruct (processPayment_conserves from to amount lg) as (W & R & Of & Ot).
  set (st0 := mkPayment (withBank (sortByValue (p_bank from)) from) to amount lg) in *.
  set (st1 := while (assetCount from) bankIteration st0) in *.
  destruct (property_loop_banks (assetCount from) st1) as (Bf & Bt & Lp).
  fold r in E2, W, R, Of, Ot.
  change (while (assetCount from) propertyIteration st1) with r in Bf, Bt, Lp.
  exists paid.
  split; [apply sortByValue_ascending|].
  split; [apply sortByValue_perm|].
  split; [unfold sorted; now rewrite Bf|].
  split; [now rewrite Bt|].
  split; [exact D|].
  split.
  { destruct (bankIteration_None _ E1) as [Hr|Hb]; [left; lia | right; congruence]. }
  split.
  { apply Permutation_of_sumBy. intros w. rewrite !sumBy_app. apply W. }
  split.
  { rewrite Bf, <- (Permutation_length (sortByValue_perm (p_bank from))), A.
    rewrite length_app. lia. }
  split; [now rewrite E in Lp|].
  split; [apply Of|].
  assert (Hpaid : (remaining r <= 0)%Z ->
                  (Z.min amount (assetValue from)
                   <= assetValue (toPlayer r) - assetValue to)%Z) by lia.
  destruct (propertyIteration_None _ E2) as [Hr|Hp]; [auto|].
  destruct (bankIteration_None _ E1) as [Hr1|Hb1].
  - apply Hpaid. unfold r, processPayment. fold st0. fold st1.
    rewrite (while_stuck _ _ _ (propertyIteration_paid _ Hr1)). exact Hr1.
  - specialize (W c_value). unfold assetCards at 1 in W.
    rewrite Bf, Hb1, Hp in W. simpl in W.
    unfold assetValue, totalValue. lia.
Qed.

(** ** What the parts of a resolution leave alone *)

Ltac break_match :=
  match goal with
  | |- context [match ?x with _ => _ end] => destruct x eqn:?
  end.

Ltac break_inner :=
  match goal with
  | |- context [match ?x with _ => _ end] =>
      lazymatch x with
      | context [match _ with _ => _ end] => fail
      | _ => destruct x eqn:?
      end
  end.

Lemma checkWinCondition_frame s :
  let s' := snd (checkWinCondition s) in
  g_player0 s' = g_player0 s /\ g_player1 s' = g_player1 s
  /\ g_activePlayerIndex s' = g_activePlayerIndex s
  /\ g_deck s' = g_deck s /\ g_discardPile s' = g_discardPile s
  /\ g_actionsRemaining s' = g_actionsRemaining s
  /\ g_logs s' = g_logs s /\ g_pendingAction s' = g_pendingAction s.
Proof.
  unfold checkWinCondition. break_match; simpl; repeat split.
Qed.

Lemma applyEffect_frame pa s :
  let s' := applyEffect pa s in
  g_activePlayerIndex s' = g_activePlayerIndex s
  /\ g_deck s' = g_deck s /\ g_discardPile s' = g_discardPile s
  /\ g_phase s' = g_phase s /\ g_actionsRemaining s' = g_actionsRemaining s
  /\ g_winner s' = g_winner s /\ g_pendingAction s' = g_pendingAction s.
Proof.
  unfold applyEffect. destruct (pa_attackerIndex pa);
    repeat break_match; simpl; repeat split.
Qed.

Lemma findIndex_absent {A : Type} (f : A -> bool) l :
  (forall x, In x l -> f x = false) -> findIndex f l = None.
Proof.
  induction l as [|a l IH]; simpl; intros H; auto.
  rewrite (H a (or_introl eq_refl)), IH; auto.
Qed.

Lemma findEntry_absent {A : Type} (f : A -> bool) l :
  (forall x, In x l -> f x = false) -> findEntry f l = None.
Proof. intros H. unfold findEntry. now rewrite findIndex_absent. Qed.

(** C2.  The final response of a counter chain, [useJSN] false or no
    'Just Say No' in the responder's hand.  The parity of [jsnStack] alone
    selects the branch: on an even stack the effect of the action runs (the
    state is the conclusion of [applyEffect]), on an odd stack the action is
    blocked (the state is [blockAction]: both players are as before and the
    log starts with the blocked entry).  Either way the triggering card is
    appended to the discard pile, [pendingAction] is null and
    [actionsRemaining] is one less. *)
Theorem resolve_final_response (useJSN : bool) (prev : GameState)
  (pa : PendingAction) :
  g_pendingAction prev = Some pa ->
  (useJSN = false
   \/ forall c, In c (p_hand (getPlayer (responderIndex pa) prev)) ->
                isJustSayNo c = false) ->
  let next := resolvePendingAction useJSN prev in
  (Nat.even (jsnStackOf pa) = true ->
   next = concludeAction pa (applyEffect pa prev))
  /\ (Nat.odd (jsnStackOf pa) = true ->
      next = blockAction pa prev
      /\ g_player0 next = g_player0 prev /\ g_player1 next = g_player1 prev
      /\ g_logs next
         = template ["Action "; c_name (pa_card pa); " blocked by Just Say No."]
             :: g_logs prev)
  /\ (Nat.even (jsnStackOf pa) = true \/ Nat.odd (jsnStackOf pa) = true)
  /\ g_discardPile next = g_discardPile prev ++ [pa_card pa]
  /\ g_pendingAction next = None
  /\ g_actionsRemaining next = (g_actionsRemaining prev - 1)%Z.
Proof.
  intros Hpa Hfinal next.
  assert (Hnext : next = if Nat.odd (jsnStackOf pa) then blockAction pa prev
                         else concludeAction pa (applyEffect pa prev)).
  { unfold next, resolvePendingAction. rewrite Hpa.
    destruct Hfinal as [->|Hno]; [reflexivity|].
    rewrite (findEntry_absent _ _ Hno). now destruct useJSN. }
  clearbody next. subst next.
  destruct (applyEffect_frame pa prev) as (_ & _ & Ed & _ & Ea & _ & _).
  unfold Nat.odd. destruct (Nat.even (jsnStackOf pa)) eqn:Even; simpl negb.
  - split; [reflexivity|]. split; [discriminate|]. split; [now left|].
    unfold concludeAction.
    match goal with
    | |- context [checkWinCondition ?s] =>
        destruct (checkWinCondition_frame s) as (_ & _ & _ & _ & Hd & Ha & _ & Hp)
    end.
    rewrite Hd, Ha, Hp. simpl. rewrite Ed, Ea. auto.
  - split; [discriminate|]. split; [intros _; repeat split|].
    split; [now right|]. repeat split.
Qed.

Lemma getPlayer_setPlayer_same i p s : getPlayer i (setPlayer i p s) = p.
Proof. now destruct i. Qed.

Lemma getPlayer_setPlayer_other i p s :
  getPlayer (other i) (setPlayer i p s) = getPlayer (other i) s.
Proof. now destruct i. Qed.

Lemma getPlayer_setPlayer_other' i p s :
  getPlayer i (setPlayer (other i) p s) = getPlayer i s.
Proof. now destruct i. Qed.

Lemma getPlayer_checkWinCondition i s :
  getPlayer i (snd (checkWinCondition s)) = getPlayer i s.
Proof.
  destruct (checkWinCondition_frame s) as (A & B & _). destruct i; simpl; auto.
Qed.

Lemma nonEmpty_false (s : PropertySet) :
  (0 <? length (s_cards s))%nat = false -> s_cards s = [].
Proof. destruct (s_cards s); [reflexivity | discriminate]. Qed.

(** C5 (amended).  In the property loop of the settlement, each iteration
    takes the most recently added card of the debtor's first set that holds
    a card and hands it to the creditor by the placement of the PROPERTY
    move, [assignToProperty]: the first existing set of the card's primary
    colour, complete or not, else a new set.  Neither incompleteness nor the
    secondary colour is consulted. *)
Theorem settlement_uses_assignToProperty (st st' : Payment) :
  propertyIteration st = Some st' ->
  exists setIdx set rest card,
    nth_error (p_properties (fromPlayer st)) setIdx = Some set
    /\ (forall j s, (j < setIdx)%nat ->
          nth_error (p_properties (fromPlayer st)) j = Some s -> s_cards s = [])
    /\ s_cards set = rest ++ [card]
    /\ p_properties (fromPlayer st')
       = afterPop setIdx rest (p_properties (fromPlayer st))
    /\ p_properties (toPlayer st')
       = assignToProperty (p_properties (toPlayer st)) card
    /\ remaining st' = (remaining st - c_value card)%Z.
Proof.
  intros H.
  destruct (propertyIteration_Some _ _ H)
    as (i & set & card & rest & F & Hc & Pf & Pt & _ & _ & T).
  destruct (findEntry_Some _ _ _ _ F) as (Fi & Hn & _).
  destruct (findIndex_Some _ _ _ Fi) as (x & _ & _ & Hfirst).
  exists i, set, rest, card. repeat split; auto.
  - intros j s Hj Hs. apply nonEmpty_false. apply (Hfirst j s Hj Hs).
  - apply T.
Qed.

(** The final response of a counter chain takes the branch the parity of
    the stack selects, and a conclusion discards the card, consumes one
    action and clears the pending action. *)
Lemma resolve_final_form (useJSN : bool) (prev : GameState) (pa : PendingAction) :
  g_pendingAction prev = Some pa ->
  (useJSN = false
   \/ forall c, In c (p_hand (getPlayer (responderIndex pa) prev)) ->
                isJustSayNo c = false) ->
  resolvePendingAction useJSN prev
  = if Nat.odd (jsnStackOf pa) then blockAction pa prev
    else concludeAction pa (applyEffect pa prev).
Proof.
  intros Hpa Hfinal. unfold resolvePendingAction. rewrite Hpa.
  destruct Hfinal as [->|Hno]; [reflexivity|].
  rewrite (findEntry_absent _ _ Hno). now destruct useJSN.
Qed.

Lemma concludeAction_fields pa s :
  g_discardPile (concludeAction pa s) = g_discardPile s ++ [pa_card pa]
  /\ g_pendingAction (concludeAction pa s) = None
  /\ g_actionsRemaining (concludeAction pa s) = (g_actionsRemaining s - 1)%Z
  /\ g_logs (concludeAction pa s) = g_logs s
  /\ g_deck (concludeAction pa s) = g_deck s
  /\ forall i, getPlayer i (concludeAction pa s) = getPlayer i s.
Proof.
  unfold concludeAction.
  match goal with
  | |- context [checkWinCondition ?x] =>
      destruct (checkWinCondition_frame x) as (_ & _ & _ & Hk & Hd & Ha & Hl & Hp)
  end.
  rewrite Hd, Ha, Hp, Hl, Hk. repeat split.
  intros i. rewrite getPlayer_checkWinCondition. now destruct i.
Qed.

(** C8 (amended).  A Sly Deal that resolves unblocked on a chosen target
    set.  When the set is complete or empty nothing moves between the
    players and the log receives the failure entry; when it is incomplete
    and holds a card, its most recently added card leaves the opponent (an
    emptied set is deleted, otherwise the set is marked incomplete) and
    joins the attacker's first incomplete set of its primary colour, else
    the first incomplete set of its secondary colour, else a new set of the
    primary colour: an existing complete set is not used.  In both cases the
    Sly Deal card is discarded, one action is consumed and the pending
    action is cleared. *)
Theorem sly_deal_resolution (useJSN : bool) (prev : GameState)
  (pa : PendingAction) (targetSetIndex : nat) (targetSet : PropertySet) :
  g_pendingAction prev = Some pa ->
  pa_type pa = SLY_DEAL ->
  (useJSN = false
   \/ forall c, In c (p_hand (getPlayer (responderIndex pa) prev)) ->
                isJustSayNo c = false) ->
  Nat.even (jsnStackOf pa) = true ->
  pa_targetSetIndex pa = Some targetSetIndex ->
  nth_error (p_properties (getPlayer (other (pa_attackerIndex pa)) prev))
    targetSetIndex = Some targetSet ->
  let attacker := getPlayer (pa_attackerIndex pa) prev in
  let opponent := getPlayer (other (pa_attackerIndex pa)) prev in
  let next := resolvePendingAction useJSN prev in
  let attacker' := getPlayer (pa_attackerIndex pa) next in
  let opponent' := getPlayer (other (pa_attackerIndex pa)) next in
  let incompleteOf k :=
    findIndex (fun s => colorEqb (s_color s) k && negb (s_isComplete s))
      (p_properties attacker) in
  (s_isComplete targetSet = true \/ s_cards targetSet = [] ->
   attacker' = attacker /\ opponent' = opponent
   /\ g_logs next
      = template [p_name attacker; " tried Sly Deal but target was invalid."]
          :: g_logs prev)
  /\ (forall rest stolen,
        s_isComplete targetSet = false -> s_cards targetSet = rest ++ [stolen] ->
        p_properties opponent'
        = afterPop targetSetIndex rest (p_properties opponent)
        /\ (forall j, incompleteOf (colorOrAny stolen) = Some j ->
              p_properties attacker'
              = updateAt j (pushCard stolen) (p_properties attacker))
        /\ (forall k j, incompleteOf (colorOrAny stolen) = None ->
              c_secondaryColor stolen = Some k -> incompleteOf k = Some j ->
              p_properties attacker'
              = updateAt j (pushCard stolen) (p_properties attacker))
        /\ (incompleteOf (colorOrAny stolen) = None ->
            (forall k, c_secondaryColor stolen = Some k -> incompleteOf k = None) ->
            p_properties attacker'
            = p_properties attacker
                ++ [mkSet (colorOrAny stolen) [stolen]
                      (reachesLimit (colorOrAny stolen) [stolen])])
        /\ p_hand attacker' = p_hand attacker /\ p_bank attacker' = p_bank attacker
        /\ p_hand opponent' = p_hand opponent /\ p_bank opponent' = p_bank opponent)
  /\ g_discardPile next = g_discardPile prev ++ [pa_card pa]
  /\ g_actionsRemaining next = (g_actionsRemaining prev - 1)%Z
  /\ g_pendingAction next = None.
Proof.
  intros Hpa Hty Hfinal Even Hti Hset attacker opponent next attacker' opponent'
         incompleteOf.
  pose proof (resolve_final_form useJSN prev pa Hpa Hfinal) as Hrun.
  unfold Nat.odd in Hrun. rewrite Even in Hrun. cbn [negb] in Hrun.
  destruct (concludeAction_fields pa (applyEffect pa prev))
    as (Hd & Hp & Ha & _).
  destruct (applyEffect_frame pa prev) as (_ & _ & Ed0 & _ & Ea0 & _ & _).
  rewrite Ed0 in Hd. rewrite Ea0 in Ha. rewrite <- Hrun in Hd, Hp, Ha.
  clear Ed0 Ea0.
  split; [|split; [|auto]].
  - intros Hbad.
    subst attacker' opponent' next. rewrite Hrun.
    unfold concludeAction. rewrite !getPlayer_checkWinCondition.
    match goal with
    | |- context [checkWinCondition ?s] =>
        destruct (checkWinCondition_frame s) as (_ & _ & _ & _ & _ & _ & Hl & _)
    end.
    rewrite Hl. clear Hl.
    subst attacker opponent.
    unfold applyEffect. rewrite Hty, Hti, Hset.
    destruct Hbad as [Hc|He].
    + rewrite Hc. simpl. destruct (pa_attackerIndex pa); auto.
    + rewrite He. simpl. destruct (s_isComplete targetSet); simpl;
        destruct (pa_attackerIndex pa); auto.
  - intros rest stolen Hinc Hcards.
    subst attacker' opponent' next. rewrite Hrun.
    unfold concludeAction. rewrite !getPlayer_checkWinCondition.
    subst incompleteOf attacker opponent. cbv beta.
    unfold applyEffect. rewrite Hty, Hti, Hset, Hinc, Hcards, pop_snoc.
    cbn [negb].
    assert (Ea : forall X Y (s : GameState) d n m,
               getPlayer (pa_attackerIndex pa)
                 (withPendingAction None
                    (withActionsRemaining n
                       (withDiscardPile d
                          (unshiftLog m
                             (setPlayer (pa_attackerIndex pa) X
                                (setPlayer (other (pa_attackerIndex pa)) Y s))))))
               = X) by (intros; destruct (pa_attackerIndex pa); reflexivity).
    assert (Eo : forall X Y (s : GameState) d n m,
               getPlayer (other (pa_attackerIndex pa))
                 (withPendingAction None
                    (withActionsRemaining n
                       (withDiscardPile d
                          (unshiftLog m
                             (setPlayer (pa_attackerIndex pa) X
                                (setPlayer (other (pa_attackerIndex pa)) Y s))))))
               = Y) by (intros; destruct (pa_attackerIndex pa); reflexivity).
    rewrite Ea, Eo. clear Ea Eo.
    split; [reflexivity|].
    unfold slyDealPlace.
    split; [|split; [|split]].
    + intros j Hj. rewrite Hj. reflexivity.
    + intros k j Hn Hk Hj. rewrite Hn, Hk, Hj. reflexivity.
    + intros Hn Hk. rewrite Hn.
      destruct (c_secondaryColor stolen) as [k|] eqn:Ek.
      * rewrite (Hk k eq_refl). reflexivity.
      * reflexivity.
    + repeat break_match; repeat split.
Qed.

(** ** Randomness *)

(** C9 (amended).  The result of [executeMove] depends on the random draws
    only when an automated player plays a Force Deal or a Sly Deal: for a
    player that is not automated, for a BANK or PROPERTY move, and for any
    card of another name, two invocations on the same state and move give
    the same state whatever the draws. *)
Theorem executeMove_draws_irrelevant (r1 r2 r1' r2' : nat) (type : Move.t)
  (cardId : string) (a : App) :
  (p_isAI (getPlayer (g_activePlayerIndex (gameState a)) (gameState a)) = false
   \/ type <> Move.ACTION_PLAY
   \/ forall c, In c (p_hand (getPlayer (g_activePlayerIndex (gameState a))
                                (gameState a))) ->
                c_id c = cardId ->
                c_name c <> "Force Deal" /\ c_name c <> "Sly Deal") ->
  executeMove r1 r2 type cardId a = executeMove r1' r2' type cardId a.
Proof.
  intros H. unfold executeMove.
  destruct (_ || _ || _ || _); [reflexivity|].
  destruct (findEntry _ _) as [[cardIndex card]|] eqn:F; [|reflexivity].
  destruct (findEntry_Some _ _ _ _ F) as (_ & Hn & Hid).
  apply nth_error_In in Hn. apply String.eqb_eq in Hid.
  destruct type; try reflexivity.
  destruct (hasType RENT card); [reflexivity|].
  destruct (String.eqb (c_name card) "Force Deal") eqn:FD.
  - destruct (p_isAI _) eqn:AI; [|reflexivity].
    destruct H as [H|[H|H]]; [congruence | congruence |].
    apply String.eqb_eq in FD. destruct (H card Hn Hid); congruence.
  - destruct (String.eqb (c_name card) "Sly Deal") eqn:SD; [|reflexivity].
    destruct (p_isAI _) eqn:AI; [|reflexivity].
    destruct H as [H|[H|H]]; [congruence | congruence |].
    apply String.eqb_eq in SD. destruct (H card Hn Hid); congruence.
Qed.

(** ** Rewriting through the field updates *)

Create Rewrite HintDb frame.

Lemma getPlayer_withDeck i x s : getPlayer i (withDeck x s) = getPlayer i s.
Proof. now destruct i. Qed.

Lemma getPlayer_withDiscardPile i x s : getPlayer i (withDiscardPile x s) = getPlayer i s.
Proof. now destruct i. Qed.

Lemma getPlayer_withPhase i x s : getPlayer i (withPhase x s) = getPlayer i s.
Proof. now destruct i. Qed.

Lemma getPlayer_withActionsRemaining i x s : getPlayer i (withActionsRemaining x s) = getPlayer i s.
Proof. now destruct i. Qed.

Lemma getPlayer_withLogs i x s : getPlayer i (withLogs x s) = getPlayer i s.
Proof. now destruct i. Qed.

Lemma getPlayer_withWinner i x s : getPlayer i (withWinner x s) = getPlayer i s.
Proof. now destruct i. Qed.

Lemma getPlayer_withPendingAction i x s : getPlayer i (withPendingAction x s) = getPlayer i s.
Proof. now destruct i. Qed.

Lemma getPlayer_withActivePlayerIndex i x s : getPlayer i (withActivePlayerIndex x s) = getPlayer i s.
Proof. now destruct i. Qed.

Lemma getPlayer_unshiftLog i x s : getPlayer i (unshiftLog x s) = getPlayer i s.
Proof. now destruct i. Qed.

Lemma g_activePlayerIndex_setPlayer i p s : g_activePlayerIndex (setPlayer i p s) = g_activePlayerIndex s.
Proof. now destruct i. Qed.

Lemma g_deck_setPlayer i p s : g_deck (setPlayer i p s) = g_deck s.
Proof. now destruct i. Qed.

Lemma g_discardPile_setPlayer i p s : g_discardPile (setPlayer i p s) = g_discardPile s.
Proof. now destruct i. Qed.

Lemma g_phase_setPlayer i p s : g_phase (setPlayer i p s) = g_phase s.
Proof. now destruct i. Qed.

Lemma g_actionsRemaining_setPlayer i p s : g_actionsRemaining (setPlayer i p s) = g_actionsRemaining s.
Proof. now destruct i. Qed.

Lemma g_logs_setPlayer i p s : g_logs (setPlayer i p s) = g_logs s.
Proof. now destruct i. Qed.

Lemma g_winner_setPlayer i p s : g_winner (setPlayer i p s) = g_winner s.
Proof. now destruct i. Qed.

Lemma g_pendingAction_setPlayer i p s : g_pendingAction (setPlayer i p s) = g_pendingAction s.
Proof. now destruct i. Qed.

Lemma g_multiplayerRole_setPlayer i p s : g_multiplayerRole (setPlayer i p s) = g_multiplayerRole s.
Proof. now destruct i. Qed.

Lemma name_setPlayer i j X s :
  p_name X = p_name (getPlayer j s) ->
  p_name (getPlayer i (setPlayer j X s)) = p_name (getPlayer i s).
Proof. destruct i, j; simpl; auto. Qed.

Lemma properties_setPlayer i j X s :
  p_properties X = p_properties (getPlayer j s) ->
  p_properties (getPlayer i (setPlayer j X s)) = p_properties (getPlayer i s).
Proof. destruct i, j; simpl; auto. Qed.

#[local] Hint Rewrite getPlayer_withDeck getPlayer_withDiscardPile getPlayer_withPhase getPlayer_withActionsRemaining getPlayer_withLogs getPlayer_withWinner getPlayer_withPendingAction getPlayer_withActivePlayerIndex getPlayer_unshiftLog
  : frame.
#[local] Hint Rewrite g_activePlayerIndex_setPlayer g_deck_setPlayer g_discardPile_setPlayer g_phase_setPlayer g_actionsRemaining_setPlayer g_logs_setPlayer g_winner_setPlayer g_pendingAction_setPlayer g_multiplayerRole_setPlayer
  : frame.
#[local] Hint Rewrite getPlayer_setPlayer_same getPlayer_setPlayer_other
  getPlayer_setPlayer_other' getPlayer_checkWinCondition : frame.

(** ** The shape of the steps *)

Lemma Quiet_refl g : Quiet g g.
Proof. repeat split. Qed.

Ltac frame := cbn; repeat progress (autorewrite with frame; cbn).

Ltac names :=
  unfold sameNames; intros; frame;
  repeat (rewrite name_setPlayer by (frame; reflexivity); frame);
  try reflexivity.

Ltac sets :=
  unfold sameSets; intros; frame;
  repeat (rewrite properties_setPlayer by (frame; reflexivity); frame);
  try reflexivity.

Ltac quiet :=
  unfold Quiet; frame; repeat split; try solve [names]; try solve [sets].

Lemma placeCard_owner p c : sameOwner p (placeCard p c)
                            /\ p_bank (placeCard p c) = p_bank p.
Proof. unfold placeCard. repeat break_match; repeat split. Qed.

Lemma slyDealPlace_owner p c : sameOwner p (slyDealPlace p c)
                               /\ p_bank (slyDealPlace p c) = p_bank p.
Proof. unfold slyDealPlace. repeat break_match; repeat split. Qed.

Lemma store_names (i : PlayerIndex) (a o : Player) (s : GameState) j :
  p_name a = p_name (getPlayer i s) ->
  p_name o = p_name (getPlayer (other i) s) ->
  p_name (getPlayer j (setPlayer i a (setPlayer (other i) o s)))
  = p_name (getPlayer j s).
Proof. destruct i, j; simpl; auto. Qed.

Lemma placeCard_name p c : p_name (placeCard p c) = p_name p.
Proof. apply placeCard_owner. Qed.

Lemma slyDealPlace_name p c : p_name (slyDealPlace p c) = p_name p.
Proof. apply slyDealPlace_owner. Qed.

Lemma processPayment_names from to amount lg :
  p_name (fromPlayer (processPayment from to amount lg)) = p_name from
  /\ p_name (toPlayer (processPayment from to amount lg)) = p_name to.
Proof.
  destruct (processPayment_conserves from to amount lg)
    as (_ & _ & (_ & Nf & _) & (_ & Nt & _)). auto.
Qed.

Lemma applyEffect_names pa g : sameNames g (applyEffect pa g).
Proof.
  intros j. unfold applyEffect.
  destruct (pa_type pa); try reflexivity;
    repeat break_match; try reflexivity; frame;
    apply store_names;
    rewrite ?placeCard_name, ?slyDealPlace_name; try reflexivity;
    apply processPayment_names.
Qed.

Lemma resolvePendingAction_shape useJSN g :
  Quiet g (resolvePendingAction useJSN g)
  \/ Checked g (resolvePendingAction useJSN g).
Proof.
  unfold resolvePendingAction.
  destruct (g_pendingAction g) as [pa|]; [|left; apply Quiet_refl].
  match goal with
  | |- context [match ?c with Some _ => _ | None => _ end] =>
      destruct c as [[jsnIndex jsnCard]|]
  end.
  - left. unfold playJustSayNo. quiet.
  - destruct (Nat.odd (jsnStackOf pa)).
    + left. unfold blockAction. quiet.
    + right. unfold concludeAction. eexists. split; [reflexivity|].
      destruct (applyEffect_frame pa g) as (A & _ & _ & P & _ & W & _).
      cbn. repeat split; auto. apply applyEffect_names.
Qed.

Lemma finishMove_Checked a g s :
  g_winner s = g_winner g -> g_phase s = g_phase g ->
  g_activePlayerIndex s = g_activePlayerIndex g -> sameNames g s ->
  Checked g (gameState (finishMove a s)).
Proof.
  intros W P A N. exists s. cbn. auto.
Qed.

Lemma executeMove_shape r1 r2 type cardId a :
  Quiet (gameState a) (gameState (executeMove r1 r2 type cardId a))
  \/ Checked (gameState a) (gameState (executeMove r1 r2 type cardId a)).
Proof.
  unfold executeMove.
  destruct (_ || _ || _ || _); [left; apply Quiet_refl|].
  destruct (findEntry _ _) as [[cardIndex card]|]; [|left; apply Quiet_refl].
  destruct type.
  - right. apply finishMove_Checked; frame; try reflexivity. names.
  - destruct (_ && _); [left; apply Quiet_refl|].
    right. apply finishMove_Checked; frame; try reflexivity; names.
  - destruct (hasType RENT card); [left; quiet|].
    destruct (String.eqb (c_name card) "Force Deal");
      [ destruct (p_isAI _); [repeat break_match|]; left; quiet |].
    destruct (String.eqb (c_name card) "Sly Deal");
      [ destruct (p_isAI _); [repeat break_match|]; left; quiet |].
    repeat break_match;
      right; apply finishMove_Checked; frame; try reflexivity; names.
Qed.

Lemma handleRentCollection_shape setIndex a a' :
  handleRentCollection setIndex a = Some a' ->
  Quiet (gameState a) (gameState a') \/ Checked (gameState a) (gameState a').
Proof.
  unfold handleRentCollection. intros H.
  destruct (pendingRentCard a) as [rentCard|];
    [|inversion H; left; apply Quiet_refl].
  destruct (nth_error _ setIndex) as [targetSet|]; [|discriminate].
  inversion H; subst; clear H. right. cbn.
  eexists. split; [reflexivity|]. frame. repeat split.
  unfold sameNames. intros i. frame.
  apply store_names; apply processPayment_names.
Qed.

Lemma startTurn_shape a : StepShape (gameState a) (gameState (startTurn a)).
Proof.
  unfold startTurn. destruct (g_phase (gameState a)) eqn:P;
    try (left; apply Quiet_refl).
  right; right. unfold TurnChange. frame. rewrite P.
  repeat split; try discriminate; try solve [names]; try solve [sets].
Qed.

Lemma endTurn_shape a : StepShape (gameState a) (gameState (endTurn a)).
Proof.
  unfold endTurn. destruct (g_phase (gameState a)) eqn:P;
    try (left; apply Quiet_refl).
  right; right. unfold TurnChange. frame. rewrite P.
  repeat split; try discriminate; try solve [names]; try solve [sets].
Qed.

Lemma applyOp_shape o a a' :
  applyOp o a = Some a' -> StepShape (gameState a) (gameState a').
Proof.
  destruct o; simpl; intros H; try (injection H as <-).
  - destruct (executeMove_shape r1 r2 type cardId a); [left | right; left]; auto.
  - destruct (resolvePendingAction_shape useJSN (gameState a));
      [left | right; left]; auto.
  - destruct (handleRentCollection_shape _ _ _ H); [left | right; left]; auto.
  - left. unfold selectMySet. destruct (pendingForceDeal a); apply Quiet_refl.
  - left. unfold initiateForceDeal. repeat break_match; quiet.
  - left. unfold initiateSlyDeal. repeat break_match; quiet.
  - apply startTurn_shape.
  - apply endTurn_shape.
Qed.

(** ** Winner and phase *)

Lemma checkWinCondition_cases s :
  let p := getPlayer (g_activePlayerIndex s) s in
  ((3 <= fullSets p)%nat
   /\ g_winner (snd (checkWinCondition s)) = Some (p_name p)
   /\ g_phase (snd (checkWinCondition s)) = GAME_OVER)
  \/ ((fullSets p < 3)%nat /\ snd (checkWinCondition s) = s).
Proof.
  unfold checkWinCondition. cbv zeta.
  destruct (3 <=? fullSets _)%nat eqn:E.
  - apply Nat.leb_le in E. left. auto.
  - apply Nat.leb_gt in E. right. auto.
Qed.

Lemma WinInv_step g g' : WinInv g -> StepShape g g' -> WinInv g'.
Proof.
  unfold WinInv. intros I [Q|[C|T]].
  - destruct Q as (W & P & A & N & _). rewrite W, P, A.
    destruct (g_winner g); auto. now rewrite N.
  - destruct C as (s & -> & W & P & A & N).
    destruct (checkWinCondition_frame s) as (_ & _ & Ea & _).
    destruct (checkWinCondition_cases s) as [(_ & Hw & Hp)|(_ & ->)].
    + rewrite Hw, Hp, Ea. autorewrite with frame. auto.
    + rewrite W, P, A. destruct (g_winner g); auto. now rewrite N.
  - destruct T as (P & P' & W & _). rewrite W.
    destruct (g_winner g); auto. destruct I. contradiction.
Qed.

Lemma reachable_WinInv a : reachable a -> WinInv (gameState a).
Proof.
  intros (deck & vsAI & multi & R). induction R.
  - unfold WinInv. simpl. discriminate.
  - eapply WinInv_step; eauto. eapply applyOp_shape; eauto.
Qed.

(** C6.  In any state of a game, a move request issued while the phase is
    not PLAY_PHASE, or no action remains, or a winner is set, or an action
    is pending, or the acting player's hand holds no card of the given
    identifier, is absorbed: [executeMove] returns the state it was given,
    and being a total function it raises nothing. *)
Theorem executeMove_rejects (a : App) (r1 r2 : nat) (type : Move.t)
  (cardId : string) :
  reachable a ->
  (g_phase (gameState a) <> PLAY_PHASE
   \/ (g_actionsRemaining (gameState a) <= 0)%Z
   \/ g_winner (gameState a) <> None
   \/ g_pendingAction (gameState a) <> None
   \/ (forall c,
         In c (p_hand (getPlayer (g_activePlayerIndex (gameState a))
                         (gameState a))) -> c_id c <> cardId)) ->
  executeMove r1 r2 type cardId a = a.
Proof.
  intros R H. apply reachable_WinInv in R. unfold WinInv in R.
  unfold executeMove.
  destruct (g_actionsRemaining (gameState a) <=? 0)%Z eqn:A; [reflexivity|].
  apply Z.leb_gt in A.
  destruct (g_phase (gameState a)) eqn:P; try reflexivity.
  destruct (g_winner (gameState a)) as [n|] eqn:W;
    [destruct R; discriminate|].
  destruct (g_pendingAction (gameState a)) as [pa|] eqn:Pa; [reflexivity|].
  cbn [orb truthyWinner isSome].
  destruct H as [H|[H|[H|[H|H]]]]; try congruence; try lia.
  rewrite findEntry_absent; [reflexivity|].
  intros c Hc. unfold cardHasId.
  apply String.eqb_neq. now apply H.
Qed.

(** C7 (amended).  In every state of a game and for every step of the
    engine: the winner is null exactly while the phase is not GAME_OVER;
    the winner becomes non-null only in a step after which the active
    player holds at least 3 sets flagged complete, the phase becomes
    GAME_OVER in that same step and the winner is that player's name; a step
    that brings the active player's count of complete sets from below 3 to
    3 or more sets the winner; and once the winner is set, winner and phase
    stay as they are.  The count of the other player is not examined. *)
Theorem win_exactness (a a' : App) (o : Op) :
  reachable a -> applyOp o a = Some a' ->
  let g := gameState a in
  let g' := gameState a' in
  let active' := g_activePlayerIndex g' in
  (g_winner g = None <-> g_phase g <> GAME_OVER)
  /\ (g_winner g = None -> forall n, g_winner g' = Some n ->
        (3 <= completeCount active' g')%nat
        /\ g_phase g' = GAME_OVER
        /\ n = p_name (getPlayer active' g'))
  /\ (g_winner g = None ->
      (completeCount active' g < 3 <= completeCount active' g')%nat ->
      g_winner g' <> None)
  /\ (g_winner g <> None ->
      g_winner g' = g_winner g /\ g_phase g' = g_phase g).
Proof.
  intros R Hstep g g' active'.
  pose proof (reachable_WinInv a R) as I. fold g in I.
  pose proof (applyOp_shape o a a' Hstep) as S. fold g g' in S.
  subst active'. unfold completeCount, WinInv in *.
  split; [|split; [|split]].
  - destruct (g_winner g) as [n|].
    + destruct I as (P & _). split; [discriminate | intros H; contradiction].
    + split; auto.
  - intros W n W'. destruct S as [Q|[C|T]].
    + destruct Q as (E & _). congruence.
    + destruct C as (s & E & Ws & Ps & As & N).
      destruct (checkWinCondition_frame s) as (E0 & E1 & Ea & _).
      destruct (checkWinCondition_cases s) as [(Hf & Hw & Hp)|(_ & Hs)].
      * rewrite E, Ea. autorewrite with frame.
        rewrite E, Hw in W'. inversion W'; subst n. auto.
      * rewrite E, Hs in W'. congruence.
    + destruct T as (_ & _ & E & _). congruence.
  - intros W Hc. destruct S as [Q|[C|T]].
    + destruct Q as (_ & _ & _ & _ & Hs). unfold fullSets in Hc.
      rewrite (Hs _) in Hc. lia.
    + destruct C as (s & E & Ws & Ps & As & N).
      destruct (checkWinCondition_frame s) as (E0 & E1 & Ea & _).
      destruct (checkWinCondition_cases s) as [(Hf & Hw & Hp)|(Hf & Hs)].
      * rewrite E, Hw. discriminate.
      * exfalso. rewrite E, Hs in Hc. lia.
    + destruct T as (_ & _ & _ & _ & Hs). unfold fullSets in Hc.
      rewrite (Hs _) in Hc. lia.
  - intros W. destruct (g_winner g) as [n|] eqn:Wn; [|congruence].
    destruct I as (P & Hn). destruct S as [Q|[C|T]].
    + destruct Q as (E1 & E2 & _). rewrite E1, E2. auto.
    + destruct C as (s & E & Ws & Ps & As & N).
      destruct (checkWinCondition_cases s) as [(Hf & Hw & Hp)|(Hf & Hs)].
      * rewrite E, Hw, Hp, P, As, (N _), Hn. auto.
      * rewrite E, Hs, Ws, Ps. auto.
    + destruct T as (P' & _). contradiction.
Qed.

(** ** Conservation of cards *)

Lemma sumBy_optCard w o : sumBy w (optCard o) = optWeight w o.
Proof. destruct o; simpl; lia. Qed.

Lemma allCards_weight i w a : sumBy w (allCards a) = appWeight i w a.
Proof.
  unfold allCards, inFlightCards, tableCards, playerCards, assetCards,
    appWeight, playerWeight.
  rewrite !sumBy_app, !sumBy_optCard. destruct i; simpl; lia.
Qed.

Lemma sumBy_assignToProperty w props card :
  sumBy w (propertyCards (assignToProperty props card))
  = (sumBy w (propertyCards props) + w card)%Z.
Proof.
  unfold assignToProperty. destruct (findIndex _ props) as [j|] eqn:E.
  - apply (sumBy_props_pushAt w _ _ _ _ E).
  - apply sumBy_props_pushNewSet.
Qed.

Lemma g_activePlayerIndex_checkWinCondition s :
  g_activePlayerIndex (snd (checkWinCondition s)) = g_activePlayerIndex s.
Proof. apply (checkWinCondition_frame s). Qed.

Lemma g_deck_checkWinCondition s :
  g_deck (snd (checkWinCondition s)) = g_deck s.
Proof. apply (checkWinCondition_frame s). Qed.

Lemma g_discardPile_checkWinCondition s :
  g_discardPile (snd (checkWinCondition s)) = g_discardPile s.
Proof. apply (checkWinCondition_frame s). Qed.

Lemma g_actionsRemaining_checkWinCondition s :
  g_actionsRemaining (snd (checkWinCondition s)) = g_actionsRemaining s.
Proof. apply (checkWinCondition_frame s). Qed.

Lemma g_logs_checkWinCondition s :
  g_logs (snd (checkWinCondition s)) = g_logs s.
Proof. apply (checkWinCondition_frame s). Qed.

Lemma g_pendingAction_checkWinCondition s :
  g_pendingAction (snd (checkWinCondition s)) = g_pendingAction s.
Proof. apply (checkWinCondition_frame s). Qed.

#[local] Hint Rewrite g_activePlayerIndex_checkWinCondition g_deck_checkWinCondition g_discardPile_checkWinCondition
  g_actionsRemaining_checkWinCondition g_logs_checkWinCondition g_pendingAction_checkWinCondition : frame.

#[local] Arguments firstn : simpl never.
#[local] Arguments skipn : simpl never.
#[local] Arguments sumBy : simpl never.
#[local] Arguments propertyCards : simpl never.

Create Rewrite HintDb weights.
#[local] Hint Rewrite sumBy_app sumBy_cons sumBy_nil sumBy_assignToProperty
  sumBy_props_pushNewSet : weights.

Ltac weigh :=
  unfold appWeight, playerWeight; frame;
  repeat match goal with
         | H : g_pendingAction _ = _ |- _ => rewrite H
         | H : sumBy _ (spliceOut _ _) = _ |- _ => rewrite H
         end;
  autorewrite with weights; cbn [optWeight option_map fd_card pa_card];
  try lia.

Lemma executeMove_weight w r1 r2 type cardId a :
  slotsEmpty a = true ->
  appWeight (g_activePlayerIndex (gameState a)) w
    (executeMove r1 r2 type cardId a)
  = appWeight (g_activePlayerIndex (gameState a)) w a.
Proof.
  intros Hs. destruct a as [g rent fd sly]. unfold slotsEmpty in Hs.
  simpl in Hs. destruct rent, fd, sly; try discriminate. clear Hs.
  unfold executeMove. cbn [gameState].
  destruct (g_pendingAction g) as [pa|] eqn:Pa;
    [now rewrite !orb_true_r|].
  destruct (_ || _ || _ || _); [reflexivity|].
  destruct (findEntry _ _) as [[cardIndex card]|] eqn:F; [|reflexivity].
  destruct (findEntry_Some _ _ _ _ F) as (_ & Hn & _).
  pose proof (sumBy_spliceOut w _ _ _ Hn) as Hsp.
  pose proof (sumBy_firstn_skipn w 2 (g_deck g)) as Hdraw.
  destruct type.
  - weigh.
  - destruct (_ && _); [reflexivity | weigh].
  - destruct (hasType RENT card); [weigh|].
    destruct (String.eqb (c_name card) "Force Deal");
      [ destruct (p_isAI _); [repeat break_match|]; weigh |].
    destruct (String.eqb (c_name card) "Sly Deal");
      [ destruct (p_isAI _); [repeat break_match|]; weigh |].
    repeat break_match; weigh.
Qed.

Lemma placeCard_weight w p c :
  playerWeight w (placeCard p c) = (playerWeight w p + w c)%Z.
Proof.
  unfold placeCard, playerWeight. cbv zeta.
  repeat break_inner; cbn [p_hand p_bank p_properties withProperties];
    rewrite ?sumBy_props_pushNewSet;
    repeat match goal with
           | H : findIndex _ _ = Some ?j |- context [updateAt ?j _ _] =>
               rewrite (sumBy_props_pushAt w _ _ _ _ H)
           end; lia.
Qed.

Lemma slyDealPlace_weight w p c :
  playerWeight w (slyDealPlace p c) = (playerWeight w p + w c)%Z.
Proof.
  unfold slyDealPlace, playerWeight. cbv zeta.
  repeat break_inner; cbn [p_hand p_bank p_properties withProperties];
    rewrite ?sumBy_props_pushNewSet;
    repeat match goal with
           | H : findIndex _ _ = Some ?j |- context [updateAt ?j _ _] =>
               rewrite (sumBy_props_pushAt w _ _ _ _ H)
           end; lia.
Qed.

Lemma afterPop_weight w p idx set card rest :
  nth_error (p_properties p) idx = Some set -> pop (s_cards set) = Some (card, rest) ->
  playerWeight w (withProperties (afterPop idx rest (p_properties p)) p)
  = (playerWeight w p - w card)%Z.
Proof.
  intros Hn Hp. apply pop_Some in Hp. unfold playerWeight.
  cbn [p_hand p_bank p_properties withProperties].
  rewrite (sumBy_props_afterPop w _ _ _ _ _ Hn Hp). lia.
Qed.

Lemma processPayment_weight w from to amount lg :
  (playerWeight w (fromPlayer (processPayment from to amount lg))
   + playerWeight w (toPlayer (processPayment from to amount lg))
   = playerWeight w from + playerWeight w to)%Z.
Proof.
  destruct (processPayment_conserves from to amount lg)
    as (W & _ & (_ & _ & Hf & _) & (_ & _ & Ht & _)).
  specialize (W w). unfold assetCards in W. rewrite !sumBy_app in W.
  unfold playerWeight. rewrite Hf, Ht. lia.
Qed.

Lemma applyEffect_weight w pa g :
  (playerWeight w (getPlayer (pa_attackerIndex pa) (applyEffect pa g))
   + playerWeight w (getPlayer (other (pa_attackerIndex pa)) (applyEffect pa g))
   = playerWeight w (getPlayer (pa_attackerIndex pa) g)
     + playerWeight w (getPlayer (other (pa_attackerIndex pa)) g))%Z.
Proof.
  unfold applyEffect.
  destruct (pa_type pa); try reflexivity.
  - repeat break_match; try reflexivity. frame.
    rewrite !placeCard_weight.
    match goal with
    | H1 : nth_error _ ?i = Some ?s1, H2 : pop (s_cards ?s1) = Some _ |- _ =>
        rewrite (afterPop_weight w _ _ _ _ _ H1 H2)
    end.
    match goal with
    | H1 : nth_error _ ?i = Some ?s1, H2 : pop (s_cards ?s1) = Some _
      |- context [afterPop ?i _ _] =>
        rewrite (afterPop_weight w _ _ _ _ _ H1 H2)
    end.
    lia.
  - repeat break_match; try reflexivity; frame; try reflexivity.
    rewrite slyDealPlace_weight.
    match goal with
    | H1 : nth_error _ ?i = Some ?s1, H2 : pop (s_cards ?s1) = Some _ |- _ =>
        rewrite (afterPop_weight w _ _ _ _ _ H1 H2)
    end.
    lia.
  - repeat break_match; try reflexivity. frame.
    match goal with
    | H : findEntry _ _ = Some _ |- _ =>
        destruct (findEntry_Some _ _ _ _ H) as (_ & Hn & _)
    end.
    unfold playerWeight. cbn [p_hand p_bank p_properties withProperties].
    rewrite (sumBy_props_spliceOut w _ _ _ Hn), propertyCards_app, sumBy_app.
    unfold propertyCards at 2. simpl. rewrite app_nil_r. lia.
  - frame. rewrite Z.add_comm. rewrite processPayment_weight. lia.
  - frame. rewrite Z.add_comm. rewrite processPayment_weight. lia.
Qed.

Lemma resolvePendingAction_weight w useJSN a :
  sumBy w (allCards (withGameState (resolvePendingAction useJSN (gameState a)) a))
  = sumBy w (allCards a).
Proof.
  destruct a as [g rent fd sly]. cbn [gameState withGameState pendingRentCard
                                      pendingForceDeal pendingSlyDeal].
  unfold resolvePendingAction.
  destruct (g_pendingAction g) as [pa|] eqn:Pa; [|reflexivity].
  match goal with
  | |- context [match ?c with Some _ => _ | None => _ end] =>
      destruct c as [[jsnIndex jsnCard]|] eqn:F
  end.
  - assert (Hn : nth_error (p_hand (getPlayer (responderIndex pa) g)) jsnIndex
                 = Some jsnCard).
    { destruct useJSN; [|discriminate].
      now destruct (findEntry_Some _ _ _ _ F) as (_ & Hn & _). }
    pose proof (sumBy_spliceOut w _ _ _ Hn) as Hsp.
    rewrite !(allCards_weight (responderIndex pa)).
    unfold playJustSayNo. weigh.
  - rewrite !(allCards_weight (pa_attackerIndex pa)).
    destruct (Nat.odd (jsnStackOf pa)).
    + unfold blockAction. weigh.
    + pose proof (applyEffect_weight w pa g) as He.
      destruct (applyEffect_frame pa g) as (_ & Ed & Ec & _ & _ & _ & _).
      unfold concludeAction, appWeight. frame. rewrite Pa, Ed, Ec.
      autorewrite with weights. cbn [optWeight option_map]. lia.
Qed.

Lemma handleRentCollection_weight w setIndex a a' :
  handleRentCollection setIndex a = Some a' ->
  sumBy w (allCards a') = sumBy w (allCards a).
Proof.
  unfold handleRentCollection. intros H.
  destruct (pendingRentCard a) as [rentCard|] eqn:Hr;
    [|now inversion H].
  destruct (nth_error _ setIndex) as [targetSet|]; [|discriminate].
  inversion H; subst; clear H.
  rewrite !(allCards_weight (g_activePlayerIndex (gameState a))).
  match goal with
  | |- context [processPayment ?f ?t ?n ?l] =>
      pose proof (processPayment_weight w f t n l) as Hp
  end.
  unfold appWeight. frame. rewrite Hr.
  autorewrite with weights. cbn [optWeight]. lia.
Qed.

Lemma startTurn_weight w a : sumBy w (allCards (startTurn a)) = sumBy w (allCards a).
Proof.
  unfold startTurn. destruct (g_phase (gameState a)); try reflexivity.
  rewrite !(allCards_weight (g_activePlayerIndex (gameState a))).
  match goal with
  | |- context [firstn ?n ?d] => pose proof (sumBy_firstn_skipn w n d) as Hd
  end.
  weigh.
Qed.

Lemma endTurn_weight w a :
  slotsEmpty a = true -> sumBy w (allCards (endTurn a)) = sumBy w (allCards a).
Proof.
  intros Hs. destruct a as [g rent fd sly]. unfold slotsEmpty in Hs.
  simpl in Hs. destruct rent, fd, sly; try discriminate. clear Hs.
  unfold endTurn. cbn [gameState].
  destruct (g_phase g); reflexivity.
Qed.

Lemma slot_step_weight w o a a' :
  SlotInv a -> guardOk o a = true -> applyOp o a = Some a' ->
  SlotInv a' /\ sumBy w (allCards a') = sumBy w (allCards a).
Proof.
  intros I G H. destruct o; simpl in G, H; try (injection H as <-).
  - split; [|rewrite !(allCards_weight (g_activePlayerIndex (gameState a)));
             now apply executeMove_weight].
    clear I. destruct a as [g rent fd sly]. unfold slotsEmpty in G.
    simpl in G. destruct rent, fd, sly; try discriminate. clear G.
    unfold executeMove, SlotInv. cbn [gameState].
    destruct (g_pendingAction g) as [pa|] eqn:Pa;
      [now rewrite !orb_true_r|].
    destruct (_ || _ || _ || _); [exact Logic.I|].
    destruct (findEntry _ _) as [[cardIndex card]|]; [|exact Logic.I].
    destruct type; try exact Logic.I.
    + destruct (_ && _); exact Logic.I.
    + destruct (hasType RENT card); [frame; exact Pa|].
      repeat (break_inner; frame); auto.
  - split; [|apply resolvePendingAction_weight].
    unfold SlotInv in *. cbn.
    destruct (pendingRentCard a), (pendingForceDeal a), (pendingSlyDeal a);
      auto; unfold resolvePendingAction; rewrite I; exact I.
  - split; [|eapply handleRentCollection_weight; eauto].
    unfold handleRentCollection in H. unfold SlotInv in *.
    destruct (pendingRentCard a) as [rentCard|] eqn:Hr;
      [|inversion H; subst; now rewrite Hr].
    destruct (nth_error _ setIndex); [|discriminate].
    inversion H; subst; clear H. cbn.
    destruct (pendingForceDeal a), (pendingSlyDeal a); auto; contradiction.
  - unfold selectMySet, SlotInv in *.
    destruct (pendingForceDeal a) as [fd|] eqn:Hf; [|split; [now rewrite Hf|auto]].
    split.
    + cbn. destruct (pendingRentCard a), (pendingSlyDeal a); auto.
    + rewrite !(allCards_weight P0). unfold appWeight. cbn. now rewrite Hf.
  - unfold initiateForceDeal, SlotInv in *.
    destruct a as [g rent fd sly]. cbn in *.
    destruct rent, fd as [[card [i|]]|], sly; try contradiction;
      try discriminate; (split; [cbn; auto|]);
      rewrite !(allCards_weight P0); weigh.
  - unfold initiateSlyDeal, SlotInv in *.
    destruct a as [g rent fd sly]. cbn in *.
    destruct rent, fd, sly; try contradiction; (split; [cbn; auto|]);
      rewrite !(allCards_weight P0); weigh.
  - split; [|apply startTurn_weight].
    unfold startTurn, SlotInv in *. destruct (g_phase (gameState a)); auto.
    cbn. destruct (pendingRentCard a), (pendingForceDeal a), (pendingSlyDeal a);
      auto; frame; exact I.
  - split; [|now apply endTurn_weight]. unfold SlotInv. cbn. exact Logic.I.
Qed.

Lemma initializeGame_weight w deck vsAI isMultiplayer :
  sumBy w (allCards (initializeGame deck vsAI isMultiplayer)) = sumBy w deck.
Proof.
  rewrite (allCards_weight P0).
  pose proof (sumBy_firstn_skipn w 5 deck) as H1.
  pose proof (sumBy_firstn_skipn w 5 (skipn 5 deck)) as H2.
  unfold initializeGame. weigh.
Qed.

(** ** The account of the cards over a step *)

Lemma executeMove_accounts w r1 r2 type cardId a :
  (appWeight (g_activePlayerIndex (gameState a)) w
     (executeMove r1 r2 type cardId a)
   + sumBy w (dropped (OpExecuteMove r1 r2 type cardId) a))%Z
  = appWeight (g_activePlayerIndex (gameState a)) w a.
Proof.
  destruct a as [g rent fd sly].
  unfold executeMove, dropped.
  cbn [gameState pendingRentCard pendingForceDeal pendingSlyDeal].
  destruct (g_pendingAction g) as [pa|] eqn:Pa;
    [rewrite !orb_true_r, sumBy_nil; lia|].
  destruct (_ || _ || _ || _); [rewrite sumBy_nil; lia|].
  destruct (findEntry _ _) as [[cardIndex card]|] eqn:F;
    [|destruct type; rewrite sumBy_nil; lia].
  destruct (findEntry_Some _ _ _ _ F) as (_ & Hn & _).
  pose proof (sumBy_spliceOut w _ _ _ Hn) as Hsp.
  pose proof (sumBy_firstn_skipn w 2 (g_deck g)) as Hdraw.
  destruct type.
  - weigh.
  - destruct (_ && _); [rewrite sumBy_nil; lia | weigh].
  - destruct (hasType RENT card); [rewrite sumBy_optCard; weigh|].
    destruct (String.eqb (c_name card) "Force Deal");
      [ destruct (p_isAI _); [repeat break_match|];
        rewrite ?sumBy_optCard; weigh |].
    destruct (String.eqb (c_name card) "Sly Deal");
      [ destruct (p_isAI _); [repeat break_match|];
        rewrite ?sumBy_optCard; weigh |].
    repeat break_match; weigh.
Qed.

(** Every operation accounts for every card: what the state holds after it,
    together with the cards it drops, is what the state held before. *)
Lemma step_accounts w o a a' :
  applyOp o a = Some a' ->
  (sumBy w (allCards a') + sumBy w (dropped o a))%Z = sumBy w (allCards a).
Proof.
  intros H. destruct o; simpl in H; try (injection H as <-).
  - rewrite !(allCards_weight (g_activePlayerIndex (gameState a))).
    apply executeMove_accounts.
  - unfold dropped. rewrite sumBy_nil, resolvePendingAction_weight. lia.
  - unfold dropped. rewrite sumBy_nil.
    rewrite (handleRentCollection_weight w _ _ _ H). lia.
  - unfold dropped, selectMySet. rewrite sumBy_nil.
    destruct (pendingForceDeal a) as [fd|] eqn:Hf; [|lia].
    rewrite !(allCards_weight P0). unfold appWeight. cbn. rewrite Hf. cbn. lia.
  - unfold dropped, initiateForceDeal. destruct a as [g rent fd sly].
    cbn [gameState pendingRentCard pendingForceDeal pendingSlyDeal].
    rewrite !(allCards_weight P0).
    destruct fd as [[card [i|]]|]; rewrite ?sumBy_optCard; weigh.
  - unfold dropped, initiateSlyDeal. destruct a as [g rent fd sly].
    cbn [gameState pendingRentCard pendingForceDeal pendingSlyDeal].
    rewrite !(allCards_weight P0).
    destruct sly as [card|]; rewrite ?sumBy_optCard; weigh.
  - unfold dropped. rewrite sumBy_nil, startTurn_weight. lia.
  - unfold dropped, endTurn. destruct a as [g rent fd sly].
    cbn [gameState pendingRentCard pendingForceDeal pendingSlyDeal].
    rewrite !(allCards_weight P0), !sumBy_app, !sumBy_optCard.
    destruct (g_phase g); weigh.
Qed.

(** Under the guards of the user interface no operation drops a card. *)
Lemma guarded_step_keeps o a :
  SlotInv a -> guardOk o a = true -> dropped o a = [].
Proof.
  intros I G. destruct a as [g rent fd sly]. unfold SlotInv in I.
  destruct o; cbn in G |- *; try reflexivity.
  - unfold slotsEmpty in G. cbn in G.
    destruct rent, fd, sly; try discriminate. repeat break_match; reflexivity.
  - cbn in I. destruct rent, fd as [[card [i|]]|], sly;
      try contradiction; try discriminate; try reflexivity;
      rewrite I; reflexivity.
  - cbn in I. destruct rent, fd, sly; try contradiction; try reflexivity;
      rewrite I; reflexivity.
  - unfold slotsEmpty in G. cbn in G.
    destruct rent, fd, sly; try discriminate. reflexivity.
Qed.

Lemma reachableGuarded_keeping a0 a :
  SlotInv a0 -> reachableGuarded a0 a -> reachableKeeping a0 a /\ SlotInv a.
Proof.
  intros I0 R. induction R as [|a o a' R [K I] G S].
  - split; [apply keep_init | exact I0].
  - split.
    + exact (keep_step a0 a o a' K (guarded_step_keeps o a I G) S).
    + exact (proj1 (slot_step_weight (fun _ => 0%Z) o a a' I G S)).
Qed.

(** C1 (amended).  In every state a game reaches through operations of the
    engine none of which drops a card it holds, the deck, the discard pile,
    both players' hands, banks and properties, together with the triggering
    card of the pending action and the card an interaction state holds, are
    a permutation of the deck the game started from: no card is duplicated
    or lost. *)
Theorem cards_conserved (deck : list Card) (vsAI isMultiplayer : bool) (a : App) :
  reachableKeeping (initializeGame deck vsAI isMultiplayer) a ->
  Permutation (allCards a) deck.
Proof.
  intros R. apply Permutation_of_sumBy.
  induction R as [|a o a' R W D S]; intros w.
  - apply initializeGame_weight.
  - rewrite <- (W w). pose proof (step_accounts w o a a' S) as H.
    rewrite D, sumBy_nil in H. lia.
Qed.

(** ** Runs and reachability *)

Lemma reachableFrom_front a0 a1 a o :
  applyOp o a0 = Some a1 -> reachableFrom a1 a -> reachableFrom a0 a.
Proof.
  intros H R. induction R.
  - eapply reach_step; [apply reach_init | exact H].
  - eapply reach_step; eauto.
Qed.

Lemma runOps_reachableFrom ops : forall a0 a,
  runOps ops a0 = Some a -> reachableFrom a0 a.
Proof.
  induction ops as [|o r IH]; simpl; intros a0 a H.
  - inversion H. apply reach_init.
  - destruct (applyOp o a0) as [a1|] eqn:E; [|discriminate].
    eapply reachableFrom_front; eauto.
Qed.

Lemma reachableGuarded_front a0 a1 a o :
  guardOk o a0 = true -> applyOp o a0 = Some a1 ->
  reachableGuarded a1 a -> reachableGuarded a0 a.
Proof.
  intros G H R. induction R.
  - eapply greach_step; [apply greach_init | exact G | exact H].
  - eapply greach_step; eauto.
Qed.

Lemma runGuarded_reachable ops : forall a0 a,
  runGuarded ops a0 = Some a -> reachableGuarded a0 a.
Proof.
  induction ops as [|o r IH]; simpl; intros a0 a H.
  - inversion H. apply greach_init.
  - destruct (guardOk o a0) eqn:G; [|discriminate].
    destruct (applyOp o a0) as [a1|] eqn:E; [|discriminate].
    eapply reachableGuarded_front; eauto.
Qed.

Lemma runKeeping_reachable ops : forall a0 a,
  runKeeping ops a0 = Some a -> reachableKeeping a0 a.
Proof.
  assert (Front : forall a0 a1 a o,
             dropped o a0 = [] -> applyOp o a0 = Some a1 ->
             reachableKeeping a1 a -> reachableKeeping a0 a).
  { intros a0 a1 a o D H R. induction R.
    - eapply keep_step; [apply keep_init | exact D | exact H].
    - eapply keep_step; eauto. }
  induction ops as [|o r IH]; simpl; intros a0 a H.
  - inversion H. apply keep_init.
  - unfold dropsNothing in H.
    destruct (dropped o a0) eqn:D; [|discriminate].
    destruct (applyOp o a0) as [a1|] eqn:E; [|discriminate].
    eapply Front; eauto.
Qed.

Lemma sameMultiset_sound l1 l2 : sameMultiset l1 l2 = true -> Permutation l1 l2.
Proof.
  unfold sameMultiset. intros H.
  apply (Permutation_count_occ Card_eq_dec). intros c.
  rewrite forallb_forall in H.
  destruct (in_dec Card_eq_dec c (l1 ++ l2)) as [Hin|Hout].
  - apply Nat.eqb_eq. now apply H.
  - assert (~ In c l1 /\ ~ In c l2) as [A B]
        by (split; intros X; apply Hout, in_or_app; auto).
    rewrite (proj1 (count_occ_not_In Card_eq_dec l1 c) A).
    rewrite (proj1 (count_occ_not_In Card_eq_dec l2 c) B). reflexivity.
Qed.

(** ** The example games *)

Lemma birthdayDeck_shuffle : Permutation birthdayDeck INITIAL_DECK.
Proof. apply sameMultiset_sound. vm_compute. reflexivity. Qed.

Lemma slyDeck_shuffle : Permutation slyDeck INITIAL_DECK.
Proof. apply sameMultiset_sound. vm_compute. reflexivity. Qed.

Lemma forceDeck_shuffle : Permutation forceDeck INITIAL_DECK.
Proof. apply sameMultiset_sound. vm_compute. reflexivity. Qed.

Lemma randomDeck_shuffle : Permutation randomDeck INITIAL_DECK.
Proof. apply sameMultiset_sound. vm_compute. reflexivity. Qed.

Lemma birthdayPending_run :
  runOps birthdayOps (initializeGame birthdayDeck false false)
  = Some birthdayPending.
Proof. vm_compute. reflexivity. Qed.

Lemma birthdayPaid_run :
  runOps (birthdayOps ++ [OpResolvePendingAction false])
    (initializeGame birthdayDeck false false)
  = Some birthdayPaid.
Proof. vm_compute. reflexivity. Qed.

Lemma slyPending_run :
  runOps slyOps (initializeGame slyDeck false false) = Some slyPending.
Proof. vm_compute. reflexivity. Qed.

Lemma forcePending_run :
  runOps forceOps (initializeGame forceDeck false false) = Some forcePending.
Proof. vm_compute. reflexivity. Qed.

Lemma randomTurn_run :
  runOps randomOps (initializeGame randomDeck true false) = Some randomTurn.
Proof. vm_compute. reflexivity. Qed.

Lemma birthdayPending_reachable : reachable birthdayPending.
Proof.
  exists birthdayDeck, false, false.
  apply (runOps_reachableFrom birthdayOps), birthdayPending_run.
Qed.

Lemma slyPending_reachable : reachable slyPending.
Proof.
  exists slyDeck, false, false.
  apply (runOps_reachableFrom slyOps), slyPending_run.
Qed.

Lemma forcePending_reachable : reachable forcePending.
Proof.
  exists forceDeck, false, false.
  apply (runOps_reachableFrom forceOps), forcePending_run.
Qed.

Lemma randomTurn_reachable : reachable randomTurn.
Proof.
  exists randomDeck, true, false.
  apply (runOps_reachableFrom randomOps), randomTurn_run.
Qed.

Lemma lossDeck_shuffle : Permutation lossDeck INITIAL_DECK.
Proof. apply sameMultiset_sound. vm_compute. reflexivity. Qed.

Lemma not_permutation_by_length (l l' : list Card) :
  length l <> length l' -> ~ Permutation l l'.
Proof. intros N P. apply N. now apply Permutation_length. Qed.

(** C1, counterexample.  (1) After Player 2 has played It's My Birthday the
    card is held by the pending action: the deck, the discard pile and the
    players' hands, banks and properties hold 89 of the 90 cards.  (2) The
    automated player plays a rent card, which awaits a set he never
    chooses, and his turn ends: the card is in no container, pending action
    or interaction state, and 89 cards are left in the game.  The same
    happens (3) when a second rent card replaces the first, (4) when a Force
    Deal is initiated before an own set is chosen, and (5) when a Sly Deal
    is initiated over a pending It's My Birthday. *)
Lemma table_cards_miss_pending_and_dropped_cards :
  (Permutation birthdayDeck INITIAL_DECK
   /\ runOps birthdayOps (initializeGame birthdayDeck false false)
      = Some birthdayPending
   /\ option_map pa_card (g_pendingAction (gameState birthdayPending))
      = Some birthdayCard
   /\ ~ In birthdayCard (tableCards (gameState birthdayPending))
   /\ ~ Permutation (tableCards (gameState birthdayPending)) birthdayDeck)
  /\ (Permutation lossDeck INITIAL_DECK
      /\ runOps rentThenEndTurn lossGame = Some rentCardLost
      /\ In brownRentCard lossDeck
      /\ ~ In brownRentCard (allCards rentCardLost)
      /\ length (allCards rentCardLost) = 89%nat
      /\ ~ Permutation (tableCards (gameState rentCardLost)) lossDeck
      /\ ~ Permutation (allCards rentCardLost) lossDeck)
  /\ (runOps rentTwice lossGame = Some rentCardOverwritten
      /\ ~ Permutation (allCards rentCardOverwritten) lossDeck)
  /\ (runOps forceDealWithoutOwnSet lossGame = Some forceDealLost
      /\ ~ Permutation (allCards forceDealLost) lossDeck)
  /\ (runOps slyDealOverBirthday lossGame = Some birthdayOverwritten
      /\ ~ Permutation (allCards birthdayOverwritten) lossDeck).
Proof.
  split.
  { split; [apply birthdayDeck_shuffle|].
    split; [apply birthdayPending_run|].
    split; [vm_compute; reflexivity|].
    split.
    - apply (proj2 (count_occ_not_In Card_eq_dec
                        (tableCards (gameState birthdayPending)) birthdayCard)).
      vm_compute. reflexivity.
    - apply not_permutation_by_length. vm_compute. discriminate. }
  split.
  { split; [apply lossDeck_shuffle|].
    split; [vm_compute; reflexivity|].
    split.
    - apply (proj2 (count_occ_In Card_eq_dec lossDeck brownRentCard)).
      vm_compute. apply le_n.
    - split.
      + apply (proj2 (count_occ_not_In Card_eq_dec
                        (allCards rentCardLost) brownRentCard)).
        vm_compute. reflexivity.
      + split; [vm_compute; reflexivity|].
        split; apply not_permutation_by_length; vm_compute; discriminate. }
  split; [|split];
    (split; [vm_compute; reflexivity
            |apply not_permutation_by_length; vm_compute; discriminate]).
Qed.

Lemma cards_conserved_witness :
  Permutation (allCards birthdayPaid) birthdayDeck.
Proof.
  apply (cards_conserved birthdayDeck false false birthdayPaid).
  apply (runKeeping_reachable (birthdayOps ++ [OpResolvePendingAction false])).
  vm_compute. reflexivity.
Defined.

Lemma resolve_final_response_witness :
  g_discardPile (resolvePendingAction false (gameState birthdayPending))
  = g_discardPile (gameState birthdayPending) ++ [birthdayCard]
  /\ g_pendingAction (resolvePendingAction false (gameState birthdayPending))
     = None.
Proof.
  destruct (resolve_final_response false (gameState birthdayPending)
              (mkPending BIRTHDAY birthdayCard P1 None None None (Some 0%nat)))
    as (_ & _ & _ & D & P & _).
  - vm_compute. reflexivity.
  - left. reflexivity.
  - exact (conj D P).
Defined.

(** C3.  The completion flag after a removal from a set that held more
    cards than its limit: when Player 1 surrenders the wildcard from his
    Dark Blue set of three, the two Park Lanes that stay are a full Dark
    Blue set, but the set is flagged incomplete. *)
Theorem completion_flag_stale_after_removal :
  runOps (birthdayOps ++ [OpResolvePendingAction false])
    (initializeGame birthdayDeck false false) = Some birthdayPaid
  /\ exists s,
       p_properties (g_player0 (gameState birthdayPaid)) = [s]
       /\ s_color s = DARK_BLUE /\ length (s_cards s) = 2%nat
       /\ SET_LIMITS (s_color s) = 2%nat
       /\ s_isComplete s = false
       /\ reachesLimit (s_color s) (s_cards s) = true
       /\ ~ completionHolds s.
Proof.
  split; [apply birthdayPaid_run|].
  eexists. split; [vm_compute; reflexivity|].
  unfold completionHolds. vm_compute.
  repeat split; try reflexivity. discriminate.
Qed.

(** C5, counterexample.  In the settlement of the birthday example the
    card taken is the Dark Blue/Green wildcard, and the creditor holds an
    incomplete Green set and no Dark Blue set: the rule of section 4.1 puts
    the card into the Green set, the settlement opens a new Dark Blue
    set. *)
Lemma settlement_departs_from_rule41 :
  reachable birthdayPending
  /\ propertyIteration birthdaySettlement = Some birthdaySettlementNext
  /\ fromPlayer (processPayment (fromPlayer birthdaySettlement)
                   (toPlayer birthdaySettlement) 2 (log birthdaySettlement))
     = fromPlayer birthdaySettlementNext
  /\ map s_cards (p_properties (fromPlayer birthdaySettlement))
     = [map (fun k => nth k INITIAL_DECK darkBlueGreenWild) [80; 81]
          ++ [darkBlueGreenWild]]%nat
  /\ map s_cards (p_properties (fromPlayer birthdaySettlementNext))
     = [map (fun k => nth k INITIAL_DECK darkBlueGreenWild) [80; 81]]%nat
  /\ p_properties (toPlayer birthdaySettlementNext)
     <> colorResolution41 (p_properties (toPlayer birthdaySettlement))
          darkBlueGreenWild
  /\ p_properties (toPlayer (processPayment (fromPlayer birthdaySettlement)
                               (toPlayer birthdaySettlement) 2
                               (log birthdaySettlement)))
     <> colorResolution41 (p_properties (toPlayer birthdaySettlement))
          darkBlueGreenWild.
Proof.
  split; [apply birthdayPending_reachable|].
  split; [vm_compute; reflexivity|].
  split; [vm_compute; reflexivity|].
  split; [vm_compute; reflexivity|].
  split; [vm_compute; reflexivity|].
  split; intros H; apply (f_equal (@length PropertySet)) in H;
    vm_compute in H; discriminate.
Qed.

Lemma settlement_uses_assignToProperty_witness :
  exists setIdx set rest card,
    nth_error (p_properties (fromPlayer birthdaySettlement)) setIdx = Some set
    /\ (forall j s, (j < setIdx)%nat ->
          nth_error (p_properties (fromPlayer birthdaySettlement)) j = Some s ->
          s_cards s = [])
    /\ s_cards set = rest ++ [card]
    /\ p_properties (fromPlayer birthdaySettlementNext)
       = afterPop setIdx rest (p_properties (fromPlayer birthdaySettlement))
    /\ p_properties (toPlayer birthdaySettlementNext)
       = assignToProperty (p_properties (toPlayer birthdaySettlement)) card
    /\ remaining birthdaySettlementNext
       = (remaining birthdaySettlement - c_value card)%Z.
Proof.
  apply (settlement_uses_assignToProperty birthdaySettlement
           birthdaySettlementNext).
  vm_compute. reflexivity.
Defined.

Lemma executeMove_rejects_witness :
  executeMove 0 0 Move.BANK "Bond Street-0" birthdayPending = birthdayPending.
Proof.
  apply (executeMove_rejects birthdayPending 0 0 Move.BANK "Bond Street-0").
  - apply birthdayPending_reachable.
  - right; right; right; left. vm_compute. discriminate.
Defined.

(** C7, counterexample.  The Force Deal of the example hands Player 2 the
    second Water Works: Player 2's count of complete sets goes from 2 to 3
    in this step, no player held 3 before, and the winner stays null and
    the phase PLAY_PHASE, because only the active player, Player 1, is
    examined. *)
Lemma opponent_reaches_three_sets_unnoticed :
  Permutation forceDeck INITIAL_DECK
  /\ runOps forceOps (initializeGame forceDeck false false) = Some forcePending
  /\ applyOp (OpResolvePendingAction false) forcePending = Some forceResolved
  /\ completeCount P0 (gameState forcePending) = 0%nat
  /\ completeCount P1 (gameState forcePending) = 2%nat
  /\ completeCount P1 (gameState forceResolved) = 3%nat
  /\ g_activePlayerIndex (gameState forceResolved) = P0
  /\ g_winner (gameState forceResolved) = None
  /\ g_phase (gameState forceResolved) = PLAY_PHASE.
Proof.
  split; [apply forceDeck_shuffle|].
  split; [apply forcePending_run|].
  vm_compute. repeat split; reflexivity.
Qed.

Lemma win_exactness_witness :
  (g_winner (gameState forcePending) = None
   <-> g_phase (gameState forcePending) <> GAME_OVER)
  /\ (g_winner (gameState forcePending) <> None ->
      g_winner (gameState forceResolved) = g_winner (gameState forcePending)
      /\ g_phase (gameState forceResolved) = g_phase (gameState forcePending)).
Proof.
  destruct (win_exactness forcePending forceResolved
              (OpResolvePendingAction false)) as (A & _ & _ & D).
  - apply forcePending_reachable.
  - vm_compute. reflexivity.
  - exact (conj A D).
Defined.

(** C8, counterexample.  The Sly Deal of the example steals the Dark
    Blue/Green wildcard from an incomplete set while the attacker holds a
    complete Dark Blue set and no incomplete set of either colour: the rule
    of section 4.1 adds the card to the existing Dark Blue set, the
    resolution opens a second Dark Blue set. *)
Lemma sly_deal_departs_from_rule41 :
  Permutation slyDeck INITIAL_DECK
  /\ runOps slyOps (initializeGame slyDeck false false) = Some slyPending
  /\ g_pendingAction (gameState slyPending)
     = Some (mkPending SLY_DEAL slyDealCard P0 None (Some 0%nat) None
               (Some 0%nat))
  /\ nth_error (p_properties (g_player1 (gameState slyPending))) 0
     = Some (mkSet DARK_BLUE [darkBlueGreenWild] false)
  /\ map s_isComplete (p_properties (g_player0 (gameState slyPending))) = [true]
  /\ map s_isComplete
       (p_properties
          (g_player0 (resolvePendingAction false (gameState slyPending))))
     = [true; false]
  /\ map s_isComplete
       (colorResolution41 (p_properties (g_player0 (gameState slyPending)))
          darkBlueGreenWild)
     = [true]
  /\ p_properties (g_player0 (resolvePendingAction false (gameState slyPending)))
     <> colorResolution41 (p_properties (g_player0 (gameState slyPending)))
          darkBlueGreenWild.
Proof.
  split; [apply slyDeck_shuffle|].
  split; [apply slyPending_run|].
  do 5 (split; [vm_compute; reflexivity|]).
  intros H. apply (f_equal (@length PropertySet)) in H.
  vm_compute in H. discriminate.
Qed.

Lemma sly_deal_resolution_witness :
  g_discardPile (resolvePendingAction false (gameState slyPending))
  = g_discardPile (gameState slyPending) ++ [slyDealCard]
  /\ g_actionsRemaining (resolvePendingAction false (gameState slyPending))
     = (g_actionsRemaining (gameState slyPending) - 1)%Z
  /\ g_pendingAction (resolvePendingAction false (gameState slyPending)) = None.
Proof.
  destruct (sly_deal_resolution false (gameState slyPending)
              (mkPending SLY_DEAL slyDealCard P0 None (Some 0%nat) None
                 (Some 0%nat))
              0 (mkSet DARK_BLUE [darkBlueGreenWild] false))
    as (_ & _ & D & A & P).
  - vm_compute. reflexivity.
  - vm_compute. reflexivity.
  - left. reflexivity.
  - vm_compute. reflexivity.
  - vm_compute. reflexivity.
  - vm_compute. reflexivity.
  - exact (conj D (conj A P)).
Defined.

(** C9, counterexample.  The automated player plays a Sly Deal while the
    opponent holds two incomplete sets: with the draw 0 the pending action
    targets set 0, with the draw 1 it targets set 1.  Two invocations on
    the same state and move give different states. *)
Lemma executeMove_depends_on_draw :
  Permutation randomDeck INITIAL_DECK
  /\ runOps randomOps (initializeGame randomDeck true false) = Some randomTurn
  /\ option_map pa_targetSetIndex
       (g_pendingAction
          (gameState (executeMove 0 0 Move.ACTION_PLAY "Sly Deal-0" randomTurn)))
     = Some (Some 0%nat)
  /\ option_map pa_targetSetIndex
       (g_pendingAction
          (gameState (executeMove 1 0 Move.ACTION_PLAY "Sly Deal-0" randomTurn)))
     = Some (Some 1%nat)
  /\ executeMove 0 0 Move.ACTION_PLAY "Sly Deal-0" randomTurn
     <> executeMove 1 0 Move.ACTION_PLAY "Sly Deal-0" randomTurn.
Proof.
  split; [apply randomDeck_shuffle|].
  split; [apply randomTurn_run|].
  do 2 (split; [vm_compute; reflexivity|]).
  intros H.
  apply (f_equal (fun a => option_map pa_targetSetIndex
                             (g_pendingAction (gameState a)))) in H.
  vm_compute in H. discriminate.
Qed.

Lemma executeMove_draws_irrelevant_witness :
  executeMove 0 0 Move.BANK "Sly Deal-0" randomTurn
  = executeMove 1 1 Move.BANK "Sly Deal-0" randomTurn.
Proof.
  apply (executeMove_draws_irrelevant 0 0 1 1 Move.BANK "Sly Deal-0" randomTurn).
  right; left. discriminate.
Defined.

(** ** The shuffle and the deal *)

Lemma nth_error_updateAt_same {A : Type} (f : A -> A) l i x :
  nth_error l i = Some x -> nth_error (updateAt i f l) i = Some (f x).
Proof.
  revert i. induction l as [|a l IH]; intros [|i] H; simpl in *;
    try discriminate; [now inversion H | auto].
Qed.

Lemma nth_error_updateAt_other {A : Type} (f : A -> A) l i j :
  i <> j -> nth_error (updateAt i f l) j = nth_error l j.
Proof.
  revert i j. induction l as [|a l IH]; intros [|i] [|j] H; simpl; auto;
    try contradiction.
Qed.

Lemma length_updateAt {A : Type} (f : A -> A) l i :
  length (updateAt i f l) = length l.
Proof.
  revert i. induction l as [|a l IH]; intros [|i]; simpl; auto.
Qed.

Lemma sumBy_updateAt w f (l : list Card) i x :
  nth_error l i = Some x ->
  sumBy w (updateAt i f l) = (sumBy w l - w x + w (f x))%Z.
Proof.
  intros H. destruct (updateAt_split f l i x H) as (l1 & l2 & -> & -> & _).
  rewrite !sumBy_app, !sumBy_cons. lia.
Qed.

Lemma sumBy_swapAt w i j (l : list Card) : sumBy w (swapAt i j l) = sumBy w l.
Proof.
  unfold swapAt.
  destruct (nth_error l i) as [ai|] eqn:Hi; [|reflexivity].
  destruct (nth_error l j) as [aj|] eqn:Hj; [|reflexivity].
  destruct (Nat.eq_dec i j) as [->|Hne].
  - rewrite (sumBy_updateAt w _ _ j aj);
      [|exact (nth_error_updateAt_same (fun _ => aj) l j ai Hi)].
    rewrite (sumBy_updateAt w _ _ j ai Hi). rewrite Hi in Hj. inversion Hj. lia.
  - rewrite (sumBy_updateAt w _ _ j aj);
      [|now rewrite nth_error_updateAt_other].
    rewrite (sumBy_updateAt w _ _ i ai Hi). lia.
Qed.

Lemma length_swapAt {T : Type} i j (l : list T) : length (swapAt i j l) = length l.
Proof.
  unfold swapAt. destruct (nth_error l i), (nth_error l j); auto.
  now rewrite !length_updateAt.
Qed.

Lemma shuffleLoop_permutation (rand : nat -> nat) :
  forall i (l : list Card),
    Permutation (shuffleLoop rand i l) l
    /\ length (shuffleLoop rand i l) = length l.
Proof.
  induction i as [|k IH]; intros l; [split; reflexivity|].
  cbn [shuffleLoop].
  match goal with
  | |- context [shuffleLoop rand k ?x] => destruct (IH x) as [P L]
  end.
  split.
  - rewrite P. apply Permutation_of_sumBy. intros w. apply sumBy_swapAt.
  - rewrite L. apply length_swapAt.
Qed.

(** X1.  Whatever the random draws, [shuffle] returns a permutation of the
    array it is given: no card is dropped or duplicated and the length is
    kept. *)
Theorem shuffle_permutation (rand : nat -> nat) (deck : list Card) :
  Permutation (shuffle rand deck) deck
  /\ length (shuffle rand deck) = length deck.
Proof.
  unfold shuffle.
  destruct (shuffleLoop_permutation rand (length deck - 1) deck) as [P L].
  split; [exact P | exact L].
Qed.

Lemma allCards_initializeGame deck vsAI isMultiplayer :
  Permutation (allCards (initializeGame deck vsAI isMultiplayer)) deck.
Proof. apply Permutation_of_sumBy. intros w. apply initializeGame_weight. Qed.

(** X2.  A game started on any shuffle of a deck of at least ten cards
    deals the first five cards to the first player and the next five to the
    second, leaves the rest as the draw deck, and starts with empty banks,
    property areas and discard pile, no pending action, three actions, and
    the first player about to start his turn; the cards dealt are exactly
    the cards of the deck.  With [INITIAL_DECK] the draw deck holds 80
    cards. *)
Theorem initializeGame_deal (rand : nat -> nat) (rawDeck : list Card)
  (vsAI isMultiplayer : bool) :
  (10 <= length rawDeck)%nat ->
  let deck := shuffle rand rawDeck in
  let g := gameState (initializeGame deck vsAI isMultiplayer) in
  p_hand (g_player0 g) = firstn 5 deck
  /\ p_hand (g_player1 g) = firstn 5 (skipn 5 deck)
  /\ g_deck g = skipn 10 deck
  /\ length (p_hand (g_player0 g)) = 5%nat
  /\ length (p_hand (g_player1 g)) = 5%nat
  /\ length (g_deck g) = (length rawDeck - 10)%nat
  /\ p_bank (g_player0 g) = [] /\ p_bank (g_player1 g) = []
  /\ p_properties (g_player0 g) = [] /\ p_properties (g_player1 g) = []
  /\ g_discardPile g = [] /\ g_pendingAction g = None /\ g_winner g = None
  /\ g_phase g = START_TURN /\ g_activePlayerIndex g = P0
  /\ g_actionsRemaining g = 3%Z
  /\ p_isAI (g_player0 g) = false /\ p_isAI (g_player1 g) = vsAI
  /\ Permutation (tableCards g) rawDeck
  /\ (rawDeck = INITIAL_DECK -> length (g_deck g) = 80%nat).
Proof.
  intros Hlen deck g.
  destruct (shuffleLoop_permutation rand (length rawDeck - 1) rawDeck)
    as (P & L).
  change (shuffleLoop rand (length rawDeck - 1) rawDeck) with deck in P, L.
  assert (E10 : skipn 5 (skipn 5 deck) = skipn 10 deck)
    by (rewrite skipn_skipn; reflexivity).
  assert (Ld : length (g_deck g) = (length rawDeck - 10)%nat).
  { unfold g. cbn [gameState initializeGame g_deck]. rewrite E10, length_skipn. lia. }
  split; [reflexivity|]. split; [reflexivity|]. split; [exact E10|].
  split; [cbn; rewrite length_firstn; lia|].
  split; [cbn; rewrite length_firstn, length_skipn; lia|].
  split; [exact Ld|].
  do 12 (split; [reflexivity|]).
  split.
  - rewrite <- P.
    pose proof (allCards_initializeGame deck vsAI isMultiplayer) as Q.
    unfold allCards, inFlightCards in Q. cbn in Q.
    rewrite app_nil_r in Q. exact Q.
  - intros ->. rewrite Ld. reflexivity.
Qed.

(** ** Property sets stay sound *)

Lemma Forall_updateAt {A : Type} (P : A -> Prop) (f : A -> A) l i :
  (forall x, P x -> P (f x)) -> Forall P l -> Forall P (updateAt i f l).
Proof.
  intros Hf. revert i. induction l as [|a l IH]; intros [|i] H; simpl; auto;
    inversion H; subst; constructor; auto.
Qed.

Lemma Forall_spliceOut {A : Type} (P : A -> Prop) l i :
  Forall P l -> Forall P (spliceOut i l).
Proof.
  revert i. induction l as [|a l IH]; intros [|i] H; simpl; auto;
    inversion H; subst; auto.
Qed.

Lemma setSound_pushCard c s : setSound (pushCard c s).
Proof.
  unfold setSound, pushCard. simpl. split; [|auto].
  destruct (s_cards s); discriminate.
Qed.

Lemma sound_pushAt c j props :
  Forall setSound props -> Forall setSound (updateAt j (pushCard c) props).
Proof. apply Forall_updateAt. intros x _. apply setSound_pushCard. Qed.

Lemma sound_pushNewSet color c props :
  Forall setSound props -> Forall setSound (pushNewSet color c props).
Proof.
  intros H. unfold pushNewSet. apply Forall_app. split; [exact H|].
  constructor; [apply setSound_pushCard | constructor].
Qed.

Lemma sound_afterPop idx rest props :
  Forall setSound props -> Forall setSound (afterPop idx rest props).
Proof.
  intros H. unfold afterPop. destruct rest as [|c r].
  - now apply Forall_spliceOut.
  - apply Forall_updateAt; [|exact H].
    intros x _. split; simpl; [discriminate | discriminate].
Qed.

Lemma sound_assignToProperty props c :
  Forall setSound props -> Forall setSound (assignToProperty props c).
Proof.
  intros H. unfold assignToProperty.
  destruct (findIndex _ props); [now apply sound_pushAt | now apply sound_pushNewSet].
Qed.

Lemma sound_placeCard p c : playerSound p -> playerSound (placeCard p c).
Proof.
  unfold playerSound, placeCard. intros H. cbv zeta.
  repeat break_inner; cbn [p_properties withProperties];
    first [now apply sound_pushAt | now apply sound_pushNewSet].
Qed.

Lemma sound_slyDealPlace p c : playerSound p -> playerSound (slyDealPlace p c).
Proof.
  unfold playerSound, slyDealPlace. intros H. cbv zeta.
  repeat break_inner; cbn [p_properties withProperties];
    first [now apply sound_pushAt | now apply sound_pushNewSet].
Qed.

Lemma processPayment_sound from to amount lg :
  playerSound from -> playerSound to ->
  playerSound (fromPlayer (processPayment from to amount lg))
  /\ playerSound (toPlayer (processPayment from to amount lg)).
Proof.
  intros Hf Ht. unfold processPayment.
  apply (while_invariant
           (fun st => playerSound (fromPlayer st) /\ playerSound (toPlayer st))).
  - intros s s' H [A B].
    destruct (propertyIteration_Some _ _ H)
      as (i & x & c & r & _ & _ & Pf & Pt & _).
    unfold playerSound in *. rewrite Pf, Pt. split.
    + now apply sound_afterPop.
    + destruct (findIndex _ _); [now apply sound_pushAt | now apply sound_pushNewSet].
  - apply (while_invariant
             (fun st => playerSound (fromPlayer st) /\ playerSound (toPlayer st))).
    + intros s s' H [A B].
      destruct (bankIteration_Some _ _ H) as (c & _ & _ & Pf & Pt & _).
      unfold playerSound in *. now rewrite Pf, Pt.
    + split; [exact Hf | exact Ht].
Qed.

Lemma sound_setPlayer i j X s :
  playerSound X -> playerSound (getPlayer i s) ->
  playerSound (getPlayer i (setPlayer j X s)).
Proof. destruct i, j; simpl; auto. Qed.

Ltac sound_step :=
  frame;
  repeat (apply sound_setPlayer; frame);
  unfold playerSound in *; cbn [p_properties withProperties withHand withBank];
  auto.

Lemma applyEffect_sound pa g : stateSound g -> stateSound (applyEffect pa g).
Proof.
  intros H i. pose proof (H (pa_attackerIndex pa)) as Ha.
  pose proof (H (other (pa_attackerIndex pa))) as Ho.
  unfold applyEffect.
  destruct (pa_type pa); try apply H.
  - repeat break_match; try apply H. frame.
    apply sound_setPlayer; [|apply sound_setPlayer; [|apply H]];
      apply sound_placeCard; unfold playerSound;
      cbn [p_properties withProperties]; now apply sound_afterPop.
  - repeat break_match; try apply H; frame; try apply H.
    apply sound_setPlayer; [|apply sound_setPlayer; [|apply H]].
    + now apply sound_slyDealPlace.
    + unfold playerSound; cbn [p_properties withProperties].
      now apply sound_afterPop.
  - repeat break_match; try apply H. frame.
    match goal with
    | E : findEntry _ _ = Some _ |- _ =>
        destruct (findEntry_Some _ _ _ _ E) as (_ & Hn & _)
    end.
    apply sound_setPlayer; [|apply sound_setPlayer; [|apply H]];
      unfold playerSound; cbn [p_properties withProperties].
    + apply Forall_app. split; [exact Ha|].
      constructor; [|constructor].
      unfold playerSound in Ho.
      apply (proj1 (Forall_forall _ _) Ho). eapply nth_error_In; eauto.
    + apply Forall_spliceOut. exact Ho.
  - frame.
    match goal with
    | |- context [processPayment ?f ?t ?n ?l] =>
        destruct (processPayment_sound f t n l Ho Ha) as [Sf St]
    end.
    apply sound_setPlayer; [|apply sound_setPlayer; [|apply H]]; auto.
  - frame.
    match goal with
    | |- context [processPayment ?f ?t ?n ?l] =>
        destruct (processPayment_sound f t n l Ho Ha) as [Sf St]
    end.
    apply sound_setPlayer; [|apply sound_setPlayer; [|apply H]]; auto.
Qed.

Lemma resolvePendingAction_sound useJSN g :
  stateSound g -> stateSound (resolvePendingAction useJSN g).
Proof.
  intros H. unfold resolvePendingAction.
  destruct (g_pendingAction g) as [pa|]; [|exact H].
  match goal with
  | |- context [match ?c with Some _ => _ | None => _ end] =>
      destruct c as [[jsnIndex jsnCard]|]
  end.
  - intros i. unfold playJustSayNo. frame.
    apply sound_setPlayer; [|apply H].
    pose proof (H (responderIndex pa)) as Hr.
    unfold playerSound in *. exact Hr.
  - destruct (Nat.odd (jsnStackOf pa)).
    + intros i. unfold blockAction. frame. apply H.
    + intros i. destruct (concludeAction_fields pa (applyEffect pa g))
        as (_ & _ & _ & _ & _ & E). rewrite E. now apply applyEffect_sound.
Qed.

Lemma executeMove_sound r1 r2 type cardId a :
  stateSound (gameState a) ->
  stateSound (gameState (executeMove r1 r2 type cardId a)).
Proof.
  intros H. pose proof (H (g_activePlayerIndex (gameState a))) as Hp.
  unfold executeMove.
  destruct (_ || _ || _ || _); [exact H|].
  destruct (findEntry _ _) as [[cardIndex card]|]; [|exact H].
  destruct type.
  - intros i. sound_step. apply H.
  - destruct (_ && _); [exact H|]. intros i. sound_step.
    + now apply sound_assignToProperty.
    + apply H.
  - destruct (hasType RENT card); [intros i; sound_step; apply H|].
    destruct (String.eqb (c_name card) "Force Deal");
      [ destruct (p_isAI _); [repeat break_match|]; intros i; sound_step; apply H |].
    destruct (String.eqb (c_name card) "Sly Deal");
      [ destruct (p_isAI _); [repeat break_match|]; intros i; sound_step; apply H |].
    repeat break_match; intros i; sound_step; apply H.
Qed.

Lemma handleRentCollection_sound setIndex a a' :
  handleRentCollection setIndex a = Some a' ->
  stateSound (gameState a) -> stateSound (gameState a').
Proof.
  unfold handleRentCollection. intros E H.
  destruct (pendingRentCard a) as [rentCard|]; [|injection E as <-; exact H].
  destruct (nth_error _ setIndex) as [targetSet|]; [|discriminate].
  injection E as <-. intros i. frame.
  match goal with
  | |- context [processPayment ?f ?t ?n ?l] =>
      destruct (processPayment_sound f t n l
                  (H (other (g_activePlayerIndex (gameState a))))
                  (H (g_activePlayerIndex (gameState a)))) as [Sf St]
  end.
  apply sound_setPlayer; [|apply sound_setPlayer; [|apply H]]; auto.
Qed.

Lemma applyOp_sound o a a' :
  applyOp o a = Some a' -> stateSound (gameState a) -> stateSound (gameState a').
Proof.
  destruct o; simpl; intros E H; try (injection E as <-).
  - now apply executeMove_sound.
  - now apply resolvePendingAction_sound.
  - eapply handleRentCollection_sound; eauto.
  - unfold selectMySet. destruct (pendingForceDeal a); exact H.
  - unfold initiateForceDeal. repeat break_match; intros i; frame; apply H.
  - unfold initiateSlyDeal. repeat break_match; intros i; frame; apply H.
  - unfold startTurn. destruct (g_phase (gameState a)); try exact H.
    intros i. sound_step; try apply H.
  - unfold endTurn. destruct (g_phase (gameState a)); exact H.
Qed.

(** X3.  In every state of a game no property set is empty, and every set
    flagged complete holds at least as many cards as [SET_LIMITS] requires
    for its colour: the flag never overstates a set, so the sets counted by
    [checkWinCondition] are full. *)
Theorem property_sets_sound (a : App) :
  reachable a ->
  forall i s, In s (p_properties (getPlayer i (gameState a))) ->
    s_cards s <> []
    /\ (s_isComplete s = true ->
        (SET_LIMITS (s_color s) <= length (s_cards s))%nat).
Proof.
  intros (deck & vsAI & multi & R).
  assert (H : stateSound (gameState a)).
  { induction R.
    - intros i. destruct i; constructor.
    - eapply applyOp_sound; eauto. }
  intros i s Hs. specialize (H i). unfold playerSound in H.
  rewrite Forall_forall in H. destruct (H s Hs) as [A B].
  split; [exact A|]. intros C. specialize (B C).
  unfold reachesLimit in B. now apply Nat.leb_le in B.
Qed.

(** ** Phases and turns *)

Lemma Checked_phase g g' :
  Checked g g' ->
  g_activePlayerIndex g' = g_activePlayerIndex g
  /\ (g_phase g' = g_phase g
      \/ (g_phase g' = GAME_OVER
          /\ (3 <= completeCount (g_activePlayerIndex g') g')%nat)).
Proof.
  intros (s & -> & _ & P & A & _).
  rewrite g_activePlayerIndex_checkWinCondition. split; [exact A|].
  destruct (checkWinCondition_cases s) as [(Hf & _ & Hp)|(_ & ->)].
  - right. split; [exact Hp|]. unfold completeCount.
    now rewrite getPlayer_checkWinCondition.
  - now left.
Qed.

Lemma Quiet_or_Checked_phase x y :
  Quiet x y \/ Checked x y ->
  (g_phase y = g_phase x /\ g_activePlayerIndex y = g_activePlayerIndex x)
  \/ (g_phase y = GAME_OVER
      /\ g_activePlayerIndex y = g_activePlayerIndex x
      /\ (3 <= completeCount (g_activePlayerIndex y) y)%nat).
Proof.
  intros [(_ & P & A & _)|C]; [left; auto|].
  destruct (Checked_phase _ _ C) as (A & [P|[P F]]); [left | right]; auto.
Qed.

(** The phase after a step: the phase before it, or GAME_OVER, or the
    phase [startTurn] and [endTurn] move to. *)
Lemma phase_step (o : Op) (a a' : App) :
  applyOp o a = Some a' ->
  g_phase (gameState a') = g_phase (gameState a)
  \/ g_phase (gameState a') = GAME_OVER
  \/ g_phase (gameState a') = PLAY_PHASE
  \/ g_phase (gameState a') = START_TURN.
Proof.
  intros H.
  assert (QC : forall x y, Quiet x y \/ Checked x y ->
                 g_phase y = g_phase x \/ g_phase y = GAME_OVER).
  { intros x y Hxy.
    destruct (Quiet_or_Checked_phase x y Hxy) as [(P & _)|(P & _)]; auto. }
  destruct o; simpl in H; try (injection H as <-).
  - destruct (QC _ _ (executeMove_shape r1 r2 type cardId a)); auto.
  - destruct (QC _ _ (resolvePendingAction_shape useJSN (gameState a))); auto.
  - destruct (QC _ _ (handleRentCollection_shape _ _ _ H)); auto.
  - left. unfold selectMySet. destruct (pendingForceDeal a); auto.
  - left. unfold initiateForceDeal. repeat break_match; auto.
  - left. unfold initiateSlyDeal. repeat break_match; auto.
  - unfold startTurn. destruct (g_phase (gameState a)) eqn:P; auto.
  - unfold endTurn. destruct (g_phase (gameState a)) eqn:P; auto.
Qed.

(** X4.  The phases form a small state machine.  A step of the engine
    either keeps phase and active player; or ends the game (phase
    GAME_OVER, with the active player holding three sets flagged complete);
    or is a [startTurn] from START_TURN to PLAY_PHASE that resets the
    actions to 3; or is an [endTurn] from PLAY_PHASE to START_TURN, the only
    step that changes the active player, which resets the actions to 3 and
    leaves players, deck, discard pile and pending action untouched. *)
Theorem turn_state_machine (o : Op) (a a' : App) :
  applyOp o a = Some a' ->
  let g := gameState a in
  let g' := gameState a' in
  (g_phase g' = g_phase g /\ g_activePlayerIndex g' = g_activePlayerIndex g)
  \/ (g_phase g' = GAME_OVER
      /\ g_activePlayerIndex g' = g_activePlayerIndex g
      /\ (3 <= completeCount (g_activePlayerIndex g') g')%nat)
  \/ (o = OpStartTurn /\ g_phase g = START_TURN /\ g_phase g' = PLAY_PHASE
      /\ g_activePlayerIndex g' = g_activePlayerIndex g
      /\ g_actionsRemaining g' = 3%Z)
  \/ (o = OpEndTurn /\ g_phase g = PLAY_PHASE /\ g_phase g' = START_TURN
      /\ g_activePlayerIndex g' = other (g_activePlayerIndex g)
      /\ g_actionsRemaining g' = 3%Z
      /\ g_player0 g' = g_player0 g /\ g_player1 g' = g_player1 g
      /\ g_deck g' = g_deck g /\ g_discardPile g' = g_discardPile g
      /\ g_pendingAction g' = g_pendingAction g).
Proof.
  intros H g g'. subst g g'.
  pose proof Quiet_or_Checked_phase as QC.
  destruct o; simpl in H; try (injection H as <-).
  - destruct (QC _ _ (executeMove_shape r1 r2 type cardId a)); auto.
  - destruct (QC _ _ (resolvePendingAction_shape useJSN (gameState a))); auto.
  - destruct (QC _ _ (handleRentCollection_shape _ _ _ H)); auto.
  - left. unfold selectMySet. destruct (pendingForceDeal a); auto.
  - left. unfold initiateForceDeal. repeat break_match; auto.
  - left. unfold initiateSlyDeal. repeat break_match; auto.
  - unfold startTurn. destruct (g_phase (gameState a)) eqn:P; auto.
    right; right; left. frame. auto.
  - unfold endTurn. destruct (g_phase (gameState a)) eqn:P; auto.
    right; right; right. cbn. repeat split; auto.
Qed.

(** X5.  In every state of a game the phase is START_TURN, PLAY_PHASE or
    GAME_OVER: the phases LOBBY and END_TURN of the type are never
    entered. *)
Theorem phase_never_lobby_nor_end_turn (a : App) :
  reachable a ->
  g_phase (gameState a) = START_TURN
  \/ g_phase (gameState a) = PLAY_PHASE
  \/ g_phase (gameState a) = GAME_OVER.
Proof.
  intros (deck & vsAI & multi & R). induction R as [|a o a' R IH E].
  - left. reflexivity.
  - destruct (phase_step o a a' E) as [P|[P|[P|P]]]; auto.
    now rewrite P.
Qed.

(** ** Logs, discard pile and deck only grow or shrink one way *)

Lemma extendsFront_refl {A : Type} (l : list A) : extendsFront l l.
Proof. now exists []. Qed.

Lemma extendsFront_cons {A : Type} (x : A) l l' :
  extendsFront l l' -> extendsFront l (x :: l').
Proof. intros (new & ->). now exists (x :: new). Qed.

Lemma extendsFront_trans {A : Type} (l1 l2 l3 : list A) :
  extendsFront l1 l2 -> extendsFront l2 l3 -> extendsFront l1 l3.
Proof. intros (n1 & ->) (n2 & ->). exists (n2 ++ n1). now rewrite app_assoc. Qed.

Lemma extendsBack_refl {A : Type} (l : list A) : extendsBack l l.
Proof. exists []. now rewrite app_nil_r; simpl; split; [|lia]. Qed.

Lemma extendsBack_one {A : Type} (l : list A) x : extendsBack l (l ++ [x]).
Proof. exists [x]. simpl. split; [reflexivity | lia]. Qed.

Lemma processPayment_log from to amount lg :
  extendsFront lg (log (processPayment from to amount lg)).
Proof.
  unfold processPayment.
  apply (while_invariant (fun st => extendsFront lg (log st))).
  - intros s s' H E. revert H. unfold propertyIteration. cbv zeta.
    repeat break_inner; intros H; try discriminate; injection H as <-; cbn;
      now apply extendsFront_cons.
  - apply (while_invariant (fun st => extendsFront lg (log st))).
    + intros s s' H E. revert H. unfold bankIteration. cbv zeta.
      repeat break_inner; intros H; try discriminate; injection H as <-; cbn;
        repeat apply extendsFront_cons; exact E.
    + apply extendsFront_refl.
Qed.

Lemma applyEffect_log pa g : extendsFront (g_logs g) (g_logs (applyEffect pa g)).
Proof.
  unfold applyEffect.
  destruct (pa_type pa); try apply extendsFront_refl;
    repeat break_match; frame;
    try (repeat apply extendsFront_cons; apply extendsFront_refl);
    (eapply extendsFront_trans; [|apply processPayment_log]);
    apply extendsFront_cons, extendsFront_refl.
Qed.

Ltac grows :=
  frame;
  first [ apply extendsFront_refl
        | apply extendsBack_refl
        | apply extendsBack_one
        | repeat apply extendsFront_cons; apply extendsFront_refl ].

Lemma resolvePendingAction_grows useJSN g :
  let g' := resolvePendingAction useJSN g in
  extendsFront (g_logs g) (g_logs g')
  /\ extendsBack (g_discardPile g) (g_discardPile g')
  /\ g_deck g' = g_deck g.
Proof.
  cbv zeta. unfold resolvePendingAction.
  destruct (g_pendingAction g) as [pa|];
    [|split; [apply extendsFront_refl | split; [apply extendsBack_refl | reflexivity]]].
  match goal with
  | |- context [match ?c with Some _ => _ | None => _ end] =>
      destruct c as [[jsnIndex jsnCard]|]
  end.
  - unfold playJustSayNo. split; [grows | split; [grows | frame; reflexivity]].
  - destruct (Nat.odd (jsnStackOf pa)).
    + unfold blockAction. split; [grows | split; [grows | frame; reflexivity]].
    + destruct (concludeAction_fields pa (applyEffect pa g))
        as (Hd & _ & _ & Hl & Hk & _).
      destruct (applyEffect_frame pa g) as (_ & Ek & Ed & _).
      rewrite Hd, Hl, Hk, Ed, Ek.
      split; [apply applyEffect_log | split; [apply extendsBack_one | reflexivity]].
Qed.

Lemma executeMove_grows r1 r2 type cardId a :
  let g := gameState a in
  let g' := gameState (executeMove r1 r2 type cardId a) in
  extendsFront (g_logs g) (g_logs g')
  /\ extendsBack (g_discardPile g) (g_discardPile g')
  /\ (g_deck g' = g_deck g \/ g_deck g' = skipn 2 (g_deck g)).
Proof.
  cbv zeta.
  assert (Same : extendsFront (g_logs (gameState a)) (g_logs (gameState a))
                 /\ extendsBack (g_discardPile (gameState a))
                      (g_discardPile (gameState a))
                 /\ (g_deck (gameState a) = g_deck (gameState a)
                     \/ g_deck (gameState a) = skipn 2 (g_deck (gameState a))))
    by (split; [apply extendsFront_refl
               | split; [apply extendsBack_refl | now left]]).
  unfold executeMove.
  destruct (_ || _ || _ || _); [exact Same|].
  destruct (findEntry _ _) as [[cardIndex card]|]; [|exact Same].
  destruct type.
  - split; [grows | split; [grows | left; frame; reflexivity]].
  - destruct (_ && _); [exact Same|].
    split; [grows | split; [grows | left; frame; reflexivity]].
  - destruct (hasType RENT card);
      [split; [grows | split; [grows | left; frame; reflexivity]]|].
    destruct (String.eqb (c_name card) "Force Deal");
      [ destruct (p_isAI _); [repeat break_match|];
        (split; [grows | split; [grows | left; frame; reflexivity]]) |].
    destruct (String.eqb (c_name card) "Sly Deal");
      [ destruct (p_isAI _); [repeat break_match|];
        (split; [grows | split; [grows | left; frame; reflexivity]]) |].
    repeat break_match;
      (split; [grows | split; [grows | frame; auto]]).
Qed.

Lemma containers_grow_core (o : Op) (a a' : App) :
  applyOp o a = Some a' ->
  let g := gameState a in
  let g' := gameState a' in
  extendsFront (g_logs g) (g_logs g')
  /\ extendsBack (g_discardPile g) (g_discardPile g')
  /\ exists n, g_deck g' = skipn n (g_deck g) /\ (n <= 5)%nat.
Proof.
  intros H. cbv zeta.
  assert (Same : forall g : GameState,
             extendsFront (g_logs g) (g_logs g)
             /\ extendsBack (g_discardPile g) (g_discardPile g)
             /\ exists n, g_deck g = skipn n (g_deck g) /\ (n <= 5)%nat).
  { intros g. split; [apply extendsFront_refl|].
    split; [apply extendsBack_refl|]. exists 0%nat. split; [reflexivity | lia]. }
  destruct o; simpl in H; try (injection H as <-).
  - destruct (executeMove_grows r1 r2 type cardId a) as (L & D & K).
    split; [exact L|]. split; [exact D|].
    destruct K as [K|K]; [exists 0%nat | exists 2%nat]; split; auto; lia.
  - destruct (resolvePendingAction_grows useJSN (gameState a)) as (L & D & K).
    split; [exact L|]. split; [exact D|].
    exists 0%nat. split; [exact K | lia].
  - unfold handleRentCollection in H.
    destruct (pendingRentCard a) as [rentCard|];
      [|injection H as <-; apply Same].
    destruct (nth_error _ setIndex) as [targetSet|]; [|discriminate].
    injection H as <-. frame.
    split; [|split; [apply extendsBack_one|]].
    + eapply extendsFront_trans; [|apply processPayment_log].
      apply extendsFront_cons, extendsFront_refl.
    + exists 0%nat. split; [reflexivity | lia].
  - unfold selectMySet. destruct (pendingForceDeal a); apply Same.
  - unfold initiateForceDeal. repeat break_match; frame; apply Same.
  - unfold initiateSlyDeal. repeat break_match; frame; apply Same.
  - unfold startTurn. destruct (g_phase (gameState a)); try apply Same.
    frame. split; [grows|]. split; [grows|].
    destruct (p_hand _); [exists 5%nat | exists 2%nat]; split; auto; lia.
  - unfold endTurn. destruct (g_phase (gameState a)); try apply Same.
    frame. split; [grows|]. split; [grows|].
    exists 0%nat. split; [reflexivity | lia].
Qed.

(** X6.  No step of the engine rewrites history: the log only receives new
    entries at its front, the discard pile only receives at most one card
    at its end and is never recycled, and the deck only loses cards from
    its front, at most five in a step.  Once the deck is empty no card is
    drawn any more. *)
Theorem containers_grow_one_way (o : Op) (a a' : App) :
  applyOp o a = Some a' ->
  let g := gameState a in
  let g' := gameState a' in
  (exists new, g_logs g' = new ++ g_logs g)
  /\ (exists added, g_discardPile g' = g_discardPile g ++ added
                    /\ (length added <= 1)%nat)
  /\ (exists n, g_deck g' = skipn n (g_deck g) /\ (n <= 5)%nat)
  /\ (g_deck g = [] -> g_deck g' = []).
Proof.
  intros H. destruct (containers_grow_core o a a' H) as (L & D & n & K & Hn).
  cbv zeta. split; [exact L|]. split; [exact D|]. split; [eauto|].
  intros E. rewrite K, E. apply skipn_nil.
Qed.

(** ** The number of actions *)

Lemma executeMove_actions r1 r2 type cardId a :
  slotsEmpty a = true ->
  let a' := executeMove r1 r2 type cardId a in
  a' = a
  \/ ((0 < g_actionsRemaining (gameState a))%Z
      /\ g_actionsRemaining (gameState a')
         = (g_actionsRemaining (gameState a) - 1)%Z
      /\ busy a' = false)
  \/ ((0 < g_actionsRemaining (gameState a))%Z
      /\ g_actionsRemaining (gameState a') = g_actionsRemaining (gameState a)).
Proof.
  intros Hs. destruct a as [g rent fd sly]. unfold slotsEmpty in Hs.
  simpl in Hs. destruct rent, fd, sly; try discriminate. clear Hs.
  cbv zeta. unfold executeMove. cbn [gameState].
  destruct (g_actionsRemaining g <=? 0)%Z eqn:A; [now left|].
  apply Z.leb_gt in A.
  destruct (g_pendingAction g) as [pa|] eqn:Pa;
    [left; now rewrite !orb_true_r|].
  destruct (_ || _ || _ || _); [now left|].
  destruct (findEntry _ _) as [[cardIndex card]|]; [|now left].
  assert (Consume : forall s : GameState,
             g_pendingAction s = None ->
             g_actionsRemaining s = (g_actionsRemaining g - 1)%Z ->
             (0 < g_actionsRemaining g)%Z
             /\ g_actionsRemaining (gameState (mkApp s None None None))
                = (g_actionsRemaining g - 1)%Z
             /\ busy (mkApp s None None None) = false).
  { intros s Ps As. unfold busy. cbn. rewrite Ps. auto. }
  destruct type.
  - right; left. apply Consume; frame; auto.
  - destruct (_ && _); [now left|]. right; left. apply Consume; frame; auto.
  - destruct (hasType RENT card); [right; right; frame; auto|].
    destruct (String.eqb (c_name card) "Force Deal").
    { destruct (p_isAI _); [repeat break_match|];
        first [ right; left; apply Consume; frame; auto; fail
              | right; right; frame; auto ]. }
    destruct (String.eqb (c_name card) "Sly Deal").
    { destruct (p_isAI _); [repeat break_match|];
        first [ right; left; apply Consume; frame; auto; fail
              | right; right; frame; auto ]. }
    repeat break_match;
      first [ right; left; apply Consume; frame; auto; fail
            | right; right; frame; auto ].
Qed.

Lemma SlotInv_pending a pa :
  SlotInv a -> g_pendingAction (gameState a) = Some pa -> slotsEmpty a = true.
Proof.
  unfold SlotInv, slotsEmpty. intros I P.
  destruct (pendingRentCard a), (pendingForceDeal a), (pendingSlyDeal a);
    try contradiction; try congruence; reflexivity.
Qed.

Lemma actions_step o a a' :
  SlotInv a -> guardOk o a = true -> applyOp o a = Some a' ->
  ((0 <= g_actionsRemaining (gameState a) <= 3)%Z
   /\ (busy a = true -> (1 <= g_actionsRemaining (gameState a))%Z)) ->
  (0 <= g_actionsRemaining (gameState a') <= 3)%Z
  /\ (busy a' = true -> (1 <= g_actionsRemaining (gameState a'))%Z).
Proof.
  intros I G H [B1 B2].
  destruct o; simpl in G, H; try (injection H as <-).
  - destruct (executeMove_actions r1 r2 type cardId a G) as [E|[(P & E & Bz)|(P & E)]].
    + rewrite E. auto.
    + rewrite E, Bz. split; [lia | discriminate].
    + rewrite E. split; [lia | intros _; lia].
  - unfold resolvePendingAction.
    destruct (g_pendingAction (gameState a)) as [pa|] eqn:Pa;
      [|destruct a; cbn in *; unfold busy in *; cbn in *; rewrite Pa in *; auto].
    pose proof (SlotInv_pending a pa I Pa) as Se.
    assert (Hb : (1 <= g_actionsRemaining (gameState a))%Z)
      by (apply B2; unfold busy; now rewrite Pa).
    match goal with
    | |- context [match ?c with Some _ => _ | None => _ end] =>
        destruct c as [[jsnIndex jsnCard]|]
    end.
    + unfold playJustSayNo. frame. split; [lia | intros _; lia].
    + assert (Done : forall s : GameState,
                 g_pendingAction s = None ->
                 g_actionsRemaining s = (g_actionsRemaining (gameState a) - 1)%Z ->
                 (0 <= g_actionsRemaining (gameState (withGameState s a)) <= 3)%Z
                 /\ (busy (withGameState s a) = true ->
                     (1 <= g_actionsRemaining (gameState (withGameState s a)))%Z)).
      { intros s Ps As. unfold busy. destruct a as [g r f y]. cbn in *.
        unfold slotsEmpty in *. cbn in *. rewrite Ps, As, Se. cbn.
        split; [lia | discriminate]. }
      destruct (Nat.odd (jsnStackOf pa)).
      * apply Done; unfold blockAction; frame; reflexivity.
      * destruct (concludeAction_fields pa (applyEffect pa (gameState a)))
          as (_ & Hp & Ha & _).
        destruct (applyEffect_frame pa (gameState a)) as (_ & _ & _ & _ & Ea & _).
        apply Done; [exact Hp | now rewrite Ha, Ea].
  - unfold handleRentCollection in H.
    destruct (pendingRentCard a) as [rentCard|] eqn:Hr;
      [|injection H as <-; auto].
    destruct (nth_error _ setIndex) as [targetSet|]; [|discriminate].
    injection H as <-.
    assert (Hb : (1 <= g_actionsRemaining (gameState a))%Z).
    { apply B2. unfold busy, slotsEmpty. rewrite Hr. cbn.
      now rewrite orb_true_r. }
    unfold SlotInv in I. rewrite Hr in I.
    destruct (pendingForceDeal a) eqn:Hf; [contradiction|].
    destruct (pendingSlyDeal a) eqn:Hy; [contradiction|].
    unfold busy, slotsEmpty. frame. rewrite I. cbn.
    split; [lia | discriminate].
  - unfold selectMySet. destruct (pendingForceDeal a) as [fd|] eqn:Hf; [|auto].
    cbn. split; [exact B1|]. intros _. apply B2.
    unfold busy, slotsEmpty. rewrite Hf. cbn.
    rewrite andb_false_r. cbn. now rewrite orb_true_r.
  - unfold initiateForceDeal.
    destruct (pendingForceDeal a) as [[card [i|]]|] eqn:Hf; try discriminate.
    + frame. split; [exact B1|]. intros _. apply B2.
      unfold busy, slotsEmpty. rewrite Hf. cbn.
      rewrite andb_false_r. cbn. now rewrite orb_true_r.
    + cbn. split; [exact B1|]. intros Hb. apply B2.
      revert Hb. unfold busy, slotsEmpty. cbn. rewrite Hf. cbn. auto.
  - unfold initiateSlyDeal.
    destruct (pendingSlyDeal a) as [card|] eqn:Hy.
    + frame. split; [exact B1|]. intros _. apply B2.
      unfold busy, slotsEmpty. rewrite Hy. cbn.
      rewrite andb_false_r. now rewrite orb_true_r.
    + cbn. split; [exact B1|]. intros Hb. apply B2.
      revert Hb. unfold busy, slotsEmpty. cbn. rewrite Hy. cbn. auto.
  - unfold startTurn. destruct (g_phase (gameState a)); auto.
    frame. split; [lia | intros _; lia].
  - unfold endTurn. destruct (g_phase (gameState a));
      try (frame; split; [lia | intros _; lia]);
      (cbn; split; [exact B1|]; intros Hb; apply B2;
       revert Hb; unfold busy, slotsEmpty; cbn;
       destruct (g_pendingAction (gameState a)); cbn; auto; discriminate).
Qed.

(** X7.  Under the guards of the user interface the number of remaining
    actions stays between 0 and 3 in every state of a game, and it is at
    least 1 while an action is pending or a played card awaits its target:
    the conclusion of a contested action or of a rent collection never
    drives the counter below zero. *)
Theorem actions_within_bounds (deck : list Card) (vsAI isMultiplayer : bool)
  (a : App) :
  reachableGuarded (initializeGame deck vsAI isMultiplayer) a ->
  (0 <= g_actionsRemaining (gameState a) <= 3)%Z
  /\ (g_pendingAction (gameState a) <> None \/ slotsEmpty a = false ->
      (1 <= g_actionsRemaining (gameState a))%Z).
Proof.
  intros R.
  assert (H : SlotInv a
              /\ (0 <= g_actionsRemaining (gameState a) <= 3)%Z
              /\ (busy a = true -> (1 <= g_actionsRemaining (gameState a))%Z)).
  { induction R as [|a o a' R (I & B) G S].
    - split; [exact Logic.I|]. cbn. split; [lia | intros _; lia].
    - split.
      + exact (proj1 (slot_step_weight (fun _ => 0%Z) o a a' I G S)).
      + exact (actions_step o a a' I G S B). }
  destruct H as (_ & B1 & B2). split; [exact B1|].
  intros Hb. apply B2. unfold busy.
  destruct Hb as [Hb|Hb].
  - destruct (g_pendingAction (gameState a)); [reflexivity | contradiction].
  - rewrite Hb. now rewrite orb_true_r.
Qed.

(** ** Settlement: the two extremes *)

Lemma sumBy_nonneg w l : (forall c, 0 <= w c)%Z -> (0 <= sumBy w l)%Z.
Proof.
  intros Hw. induction l as [|c l IH]; [reflexivity|].
  rewrite sumBy_cons. specialize (Hw c). lia.
Qed.

Lemma totalValue_deficit l : (- sumBy deficit l <= totalValue l)%Z.
Proof.
  unfold totalValue. induction l as [|c l IH]; [reflexivity|].
  rewrite !sumBy_cons. unfold deficit at 1. lia.
Qed.

Lemma deficit_none l :
  Forall (fun c => 0 <= c_value c)%Z l -> sumBy deficit l = 0%Z.
Proof.
  induction 1 as [|c l Hc _ IH]; [reflexivity|].
  rewrite sumBy_cons, IH. unfold deficit. lia.
Qed.

(** While the loops run, the debt that remains is the amount less what has
    left the debtor, and the debtor holds no card he did not hold before. *)
Lemma payment_loops_account (from to : Player) (amount : Z) (lg : list string)
  n m :
  let st0 := mkPayment (withBank (sortByValue (p_bank from)) from) to amount lg in
  let st := while m propertyIteration (while n bankIteration st0) in
  remaining st = (amount - assetValue from + assetValue (fromPlayer st))%Z
  /\ (forall w, (forall c, 0 <= w c)%Z ->
        (sumBy w (assetCards (fromPlayer st)) <= sumBy w (assetCards from))%Z).
Proof.
  intros st0 st. unfold st.
  assert (S0 : forall w, sumBy w (assetCards (fromPlayer st0))
                         = sumBy w (assetCards from)).
  { intros w. unfold st0, assetCards. cbn [fromPlayer withBank p_bank p_properties].
    rewrite !sumBy_app.
    now rewrite (sumBy_perm w _ _ (sortByValue_perm (p_bank from))). }
  apply (payment_loop_invariant
           (fun s =>
              remaining s = (amount - assetValue from + assetValue (fromPlayer s))%Z
              /\ (forall w, (forall c, 0 <= w c)%Z ->
                    (sumBy w (assetCards (fromPlayer s))
                     <= sumBy w (assetCards from))%Z))).
  - intros s s' card (Tf & _ & Tr & _) (A & B). split.
    + unfold assetValue, totalValue in *. rewrite Tr, A, (Tf c_value). lia.
    + intros w Hw. rewrite (Tf w). specialize (B w Hw). specialize (Hw card). lia.
  - split.
    + unfold assetValue, totalValue. rewrite (S0 c_value). cbn. lia.
    + intros w _. rewrite (S0 w). lia.
Qed.

Lemma bank_loop_as_payment_loop n (st : Payment) :
  while 0 propertyIteration (while n bankIteration st) = while n bankIteration st.
Proof. reflexivity. Qed.

(** X8.  A debt the bank covers is paid from the bank alone: when the
    values in the debtor's bank add up to the amount or more, [processPayment]
    leaves the properties of both players as they are and the debt ends at
    0 or below; what is paid is a prefix of the sorted bank. *)
Theorem payment_from_bank_alone (from to : Player) (amount : Z)
  (lg : list string) :
  (amount <= totalValue (p_bank from))%Z ->
  let r := processPayment from to amount lg in
  p_properties (fromPlayer r) = p_properties from
  /\ p_properties (toPlayer r) = p_properties to
  /\ (remaining r <= 0)%Z
  /\ exists paid,
       sortByValue (p_bank from) = paid ++ p_bank (fromPlayer r)
       /\ p_bank (toPlayer r) = p_bank to ++ paid
       /\ remaining r = (amount - totalValue paid)%Z.
Proof.
  intros Hbank r.
  destruct (bank_loop_paid from to amount lg (assetCount from))
    as (paid & A & B & C & _ & E & F).
  destruct (payment_loops_reach_exit from to amount lg) as (E1 & _).
  cbv zeta in A, B, C, E, F.
  set (st1 := while (assetCount from) bankIteration
                (mkPayment (withBank (sortByValue (p_bank from)) from) to
                   amount lg)) in *.
  assert (R : (remaining st1 <= 0)%Z).
  { destruct (bankIteration_None _ E1) as [R|R]; [exact R|].
    rewrite R, app_nil_r in A. rewrite C, <- A.
    unfold totalValue in *.
    rewrite (sumBy_perm c_value _ _ (sortByValue_perm (p_bank from))). lia. }
  assert (Hr : r = st1).
  { unfold r, processPayment. cbv zeta. fold st1.
    apply while_stuck, propertyIteration_paid, R. }
  rewrite Hr. repeat split; auto. exists paid. auto.
Qed.

(** X9.  A debtor whose cards have no negative value and are worth less
    than the amount loses all of them: bank and sets end without a card,
    the creditor's bank and sets hold exactly his cards and the debtor's,
    and the unpaid rest of the debt, [amount] less the debtor's asset value,
    is dropped. *)
Theorem payment_of_insolvent_debtor (from to : Player) (amount : Z)
  (lg : list string) :
  Forall (fun c => 0 <= c_value c)%Z (assetCards from) ->
  (assetValue from < amount)%Z ->
  let r := processPayment from to amount lg in
  p_bank (fromPlayer r) = []
  /\ propertyCards (p_properties (fromPlayer r)) = []
  /\ Permutation (assetCards (toPlayer r)) (assetCards to ++ assetCards from)
  /\ remaining r = (amount - assetValue from)%Z
  /\ assetValue (toPlayer r) = (assetValue to + assetValue from)%Z.
Proof.
  intros Hpos Hless r.
  pose proof (deficit_none _ Hpos) as D0.
  assert (Hd : forall c, (0 <= deficit c)%Z) by (intros c; unfold deficit; lia).
  assert (Open : forall n m,
             let st := while m propertyIteration
                         (while n bankIteration
                            (mkPayment (withBank (sortByValue (p_bank from)) from)
                               to amount lg)) in
             (0 < remaining st)%Z).
  { intros n m st.
    destruct (payment_loops_account from to amount lg n m) as (A & B).
    fold st in A, B. specialize (B deficit Hd). rewrite D0 in B.
    pose proof (totalValue_deficit (assetCards (fromPlayer st))) as T.
    unfold assetValue in *. lia. }
  destruct (payment_loops_reach_exit from to amount lg) as (E1 & E2).
  pose proof (Open (assetCount from) 0%nat) as O1.
  pose proof (Open (assetCount from) (assetCount from)) as O2.
  cbv zeta in O1, O2. rewrite bank_loop_as_payment_loop in O1.
  set (st1 := while (assetCount from) bankIteration
                (mkPayment (withBank (sortByValue (p_bank from)) from) to
                   amount lg)) in *.
  assert (Hr : r = while (assetCount from) propertyIteration st1) by reflexivity.
  change (processPayment from to amount lg) with r in E2.
  rewrite <- Hr in O2.
  assert (Bk : p_bank (fromPlayer r) = []).
  { destruct (property_loop_banks (assetCount from) st1) as (Bf & _).
    cbv zeta in Bf. rewrite <- Hr in Bf.
    rewrite Bf. destruct (bankIteration_None _ E1) as [R|R]; [lia | exact R]. }
  assert (Pr : propertyCards (p_properties (fromPlayer r)) = []).
  { destruct (propertyIteration_None _ E2) as [R|R]; [lia | exact R]. }
  assert (Empty : assetCards (fromPlayer r) = []).
  { unfold assetCards. now rewrite Bk, Pr. }
  destruct (processPayment_conserves from to amount lg) as (Cw & Cr & _).
  cbv zeta in Cw, Cr.
  change (processPayment from to amount lg) with r in Cw, Cr.
  assert (Hw : forall w, sumBy w (assetCards (toPlayer r))
                         = sumBy w (assetCards to ++ assetCards from)).
  { intros w. specialize (Cw w). rewrite Empty, sumBy_nil in Cw.
    rewrite sumBy_app. lia. }
  assert (Hv : assetValue (toPlayer r) = (assetValue to + assetValue from)%Z).
  { unfold assetValue, totalValue. rewrite (Hw c_value), sumBy_app. lia. }
  repeat split; auto.
  - apply Permutation_of_sumBy, Hw.
  - lia.
Qed.

(** ** Rent *)

(** X10.  The rent of a set rises with the number of its cards and stops at
    the rent of the full set: between two sets of one colour the one with
    no fewer cards collects no less, rent lies between 0 and 8, cards beyond
    the set limit add nothing, and the rent is 0 exactly for a set without
    cards or of the colour [ANY]. *)
Theorem rentValue_monotone_capped (s s' : PropertySet) :
  s_color s' = s_color s ->
  (length (s_cards s) <= length (s_cards s'))%nat ->
  (0 <= rentValue s <= rentValue s')%Z
  /\ (rentValue s' <= 8)%Z
  /\ ((SET_LIMITS (s_color s) <= length (s_cards s))%nat ->
      rentValue s' = rentValue s)
  /\ (rentValue s = 0%Z <-> s_cards s = [] \/ s_color s = ANY).
Proof.
  intros Hc Hl. unfold rentValue. rewrite Hc.
  rewrite <- (length_zero_iff_nil (s_cards s)).
  set (n := length (s_cards s)) in *. set (n' := length (s_cards s')) in *.
  clearbody n n'. clear Hc.
  destruct (s_color s);
    destruct n as [|[|[|[|n]]]]; destruct n' as [|[|[|[|n']]]];
    cbn; rewrite ?Nat.min_0_r; repeat split; intros;
    try lia; try discriminate; try (left; reflexivity); try (right; reflexivity);
    try match goal with
        | H : _ \/ _ |- _ => destruct H; discriminate
        end.
Qed.

(** What the creditor receives: at least the smaller of the amount and the
    debtor's asset value. *)
Lemma processPayment_receipt (from to : Player) (amount : Z) (lg : list string) :
  let r := processPayment from to amount lg in
  (Z.min amount (assetValue from) <= assetValue (toPlayer r) - assetValue to)%Z.
Proof.
  intros r.
  destruct (payment_loops_reach_exit from to amount lg) as (E1 & E2).
  destruct (processPayment_conserves from to amount lg) as (W & R & _).
  cbv zeta in W, R.
  set (st1 := while (assetCount from) bankIteration
                (mkPayment (withBank (sortByValue (p_bank from)) from) to
                   amount lg)) in *.
  assert (Hr : r = while (assetCount from) propertyIteration st1) by reflexivity.
  change (processPayment from to amount lg) with r in E2, W, R.
  destruct (property_loop_banks (assetCount from) st1) as (Bf & _).
  cbv zeta in Bf. rewrite <- Hr in Bf.
  destruct (propertyIteration_None _ E2) as [Hp|Hp]; [lia|].
  destruct (bankIteration_None _ E1) as [Hb|Hb].
  - assert (r = st1) as ->
        by (rewrite Hr; apply while_stuck, propertyIteration_paid, Hb).
    lia.
  - specialize (W c_value). unfold assetCards at 1 in W.
    rewrite Bf, Hb, Hp in W. cbn [app] in W. rewrite sumBy_nil in W.
    unfold assetValue, totalValue. lia.
Qed.

(** X11.  A rent collection.  With a rent card awaiting its set, an index
    that is not one of the active player's sets raises an exception; on a
    set of his, the rent card goes to the end of the discard pile, one
    action is used, the card no longer awaits a set, hands, deck and
    pending action are as before, bank and property cards only move between
    the two players, and the active player receives at least the smaller of
    the rent of the set and the value of the opponent's assets. *)
Theorem rent_collection (setIndex : nat) (a : App) (rentCard : Card) :
  pendingRentCard a = Some rentCard ->
  let g := gameState a in
  let active := g_activePlayerIndex g in
  match nth_error (p_properties (getPlayer active g)) setIndex with
  | None => handleRentCollection setIndex a = None
  | Some targetSet =>
      exists a',
        handleRentCollection setIndex a = Some a'
        /\ pendingRentCard a' = None
        /\ pendingForceDeal a' = pendingForceDeal a
        /\ pendingSlyDeal a' = pendingSlyDeal a
        /\ g_discardPile (gameState a') = g_discardPile g ++ [rentCard]
        /\ g_actionsRemaining (gameState a') = (g_actionsRemaining g - 1)%Z
        /\ g_deck (gameState a') = g_deck g
        /\ g_pendingAction (gameState a') = g_pendingAction g
        /\ g_activePlayerIndex (gameState a') = active
        /\ (forall i, p_hand (getPlayer i (gameState a'))
                      = p_hand (getPlayer i g))
        /\ Permutation
             (assetCards (getPlayer active (gameState a'))
                ++ assetCards (getPlayer (other active) (gameState a')))
             (assetCards (getPlayer active g)
                ++ assetCards (getPlayer (other active) g))
        /\ (Z.min (rentValue targetSet)
                  (assetValue (getPlayer (other active) g))
            <= assetValue (getPlayer active (gameState a'))
               - assetValue (getPlayer active g))%Z
  end.
Proof.
  intros Hr g active. unfold handleRentCollection. rewrite Hr.
  fold g. fold active.
  destruct (nth_error (p_properties (getPlayer active g)) setIndex)
    as [targetSet|]; [|reflexivity].
  eexists. split; [reflexivity|].
  match goal with
  | |- context [processPayment ?f ?t ?n ?l] =>
      pose proof (processPayment_receipt f t n l) as Hrec;
      destruct (processPayment_conserves f t n l)
        as (Hw & _ & (_ & _ & Hhf & _) & (_ & _ & Hht & _));
      cbv zeta in Hrec, Hw, Hhf, Hht;
      set (paid := processPayment f t n l) in *
  end.
  frame.
  repeat match goal with |- _ /\ _ => split end; try reflexivity.
  - intros i. destruct i, active; frame;
      match goal with
      | |- context [snd (checkWinCondition ?s)] =>
          destruct (checkWinCondition_frame s) as (Q0 & Q1 & _);
          cbv zeta in Q0, Q1; rewrite ?Q0, ?Q1
      end; cbn; assumption.
  - apply Permutation_of_sumBy. intros w. rewrite !sumBy_app.
    specialize (Hw w). lia.
  - exact Hrec.
Qed.

(** ** The responses to a pending action *)

Lemma other_involutive i : other (other i) = i.
Proof. now destruct i. Qed.

Lemma filter_spliceOut {A : Type} (f : A -> bool) (l : list A) i x :
  nth_error l i = Some x -> f x = true ->
  length (filter f l) = S (length (filter f (spliceOut i l))).
Proof.
  intros H Fx. destruct (spliceOut_split l i x H) as (l1 & l2 & -> & -> & _).
  rewrite !filter_app, !length_app. cbn [filter]. rewrite Fx. cbn [length]. lia.
Qed.

Lemma spliceOut_perm {A : Type} (l : list A) i x :
  nth_error l i = Some x -> Permutation (x :: spliceOut i l) l.
Proof.
  intros H. destruct (spliceOut_split l i x H) as (l1 & l2 & -> & -> & _).
  apply Permutation_middle.
Qed.

(** X12.  A counter.  When the responder answers with [useJSN] and holds a
    'Just Say No', the first such card of his hand goes to the end of the
    discard pile and nothing else moves; the action stays pending with its
    type, card, attacker and targets, its chain is one longer and the
    response passes to the other player; no action is consumed, and the two
    hands hold one counter card less, so that a chain of counters ends. *)
Theorem just_say_no_counter (prev : GameState) (pa : PendingAction)
  (jsnIndex : nat) (jsnCard : Card) :
  g_pendingAction prev = Some pa ->
  findEntry isJustSayNo (p_hand (getPlayer (responderIndex pa) prev))
  = Some (jsnIndex, jsnCard) ->
  let responder := responderIndex pa in
  let next := resolvePendingAction true prev in
  exists pa',
    g_pendingAction next = Some pa'
    /\ pa_type pa' = pa_type pa /\ pa_card pa' = pa_card pa
    /\ pa_attackerIndex pa' = pa_attackerIndex pa
    /\ pa_targetSetIndex pa' = pa_targetSetIndex pa
    /\ pa_mySetIndex pa' = pa_mySetIndex pa
    /\ jsnStackOf pa' = S (jsnStackOf pa)
    /\ responderIndex pa' = other responder
    /\ isJustSayNo jsnCard = true
    /\ p_hand (getPlayer responder next)
       = spliceOut jsnIndex (p_hand (getPlayer responder prev))
    /\ Permutation (jsnCard :: p_hand (getPlayer responder next))
         (p_hand (getPlayer responder prev))
    /\ g_discardPile next = g_discardPile prev ++ [jsnCard]
    /\ p_bank (getPlayer responder next) = p_bank (getPlayer responder prev)
    /\ p_properties (getPlayer responder next)
       = p_properties (getPlayer responder prev)
    /\ getPlayer (other responder) next = getPlayer (other responder) prev
    /\ g_actionsRemaining next = g_actionsRemaining prev
    /\ g_deck next = g_deck prev /\ g_phase next = g_phase prev
    /\ g_activePlayerIndex next = g_activePlayerIndex prev
    /\ g_winner next = g_winner prev
    /\ S (jsnCount next) = jsnCount prev.
Proof.
  intros Hpa Hfind responder next.
  destruct (findEntry_Some _ _ _ _ Hfind) as (_ & Hnth & Hjsn).
  assert (Hnext : next = playJustSayNo pa jsnIndex jsnCard prev).
  { unfold next, resolvePendingAction. rewrite Hpa. cbv zeta.
    now rewrite Hfind. }
  rewrite Hnext. unfold playJustSayNo. fold responder.
  eexists. split; [frame; reflexivity|].
  cbn [pa_type pa_card pa_attackerIndex pa_targetSetIndex pa_mySetIndex].
  unfold jsnStackOf at 1, responderIndex at 1.
  cbn [pa_jsnStack pa_attackerIndex jsnStackOf].
  do 5 (split; [reflexivity|]).
  split; [lia|].
  split.
  { unfold responder, responderIndex.
    replace (jsnStackOf pa + 1)%nat with (S (jsnStackOf pa)) by lia.
    rewrite Nat.even_succ. unfold Nat.odd.
    destruct (Nat.even (jsnStackOf pa)); cbn [negb];
      rewrite ?other_involutive; reflexivity. }
  split; [exact Hjsn|].
  frame.
  split; [reflexivity|].
  split; [now apply spliceOut_perm|].
  repeat (split; [reflexivity|]).
  unfold jsnCount. fold responder in Hnth.
  destruct responder; cbn in Hnth |- *; rewrite !filter_app, !length_app;
    rewrite (filter_spliceOut isJustSayNo _ _ _ Hnth Hjsn); lia.
Qed.

Lemma fullSets_snoc p (s : PropertySet) :
  s_isComplete s = true ->
  fullSets (withProperties (p_properties p ++ [s]) p) = S (fullSets p).
Proof.
  intros H. unfold fullSets. cbn [p_properties withProperties].
  rewrite filter_app, length_app. cbn [filter]. rewrite H. cbn [length]. lia.
Qed.

Lemma fullSets_spliceOut p i (s : PropertySet) :
  nth_error (p_properties p) i = Some s -> s_isComplete s = true ->
  S (fullSets (withProperties (spliceOut i (p_properties p)) p)) = fullSets p.
Proof.
  intros Hn H. unfold fullSets. cbn [p_properties withProperties].
  now rewrite (filter_spliceOut s_isComplete _ _ _ Hn H).
Qed.

(** X13.  A Deal Breaker that resolves unanswered on an even chain moves
    the opponent's first complete set, whole and still complete, to the end
    of the attacker's sets: the attacker counts one complete set more and
    the opponent one less, hands and banks stay, and an attacker who is the
    active player and already had two complete sets wins the game.  With no
    complete set on the other side the players are as before. *)
Theorem deal_breaker_resolution (prev : GameState) (pa : PendingAction) :
  g_pendingAction prev = Some pa ->
  pa_type pa = DEAL_BREAKER ->
  Nat.even (jsnStackOf pa) = true ->
  let attacker := pa_attackerIndex pa in
  let victim := other attacker in
  let next := resolvePendingAction false prev in
  (forall i, p_hand (getPlayer i next) = p_hand (getPlayer i prev)
             /\ p_bank (getPlayer i next) = p_bank (getPlayer i prev))
  /\ match findEntry s_isComplete (p_properties (getPlayer victim prev)) with
     | Some (i, targetSet) =>
         p_properties (getPlayer attacker next)
         = p_properties (getPlayer attacker prev) ++ [targetSet]
         /\ p_properties (getPlayer victim next)
            = spliceOut i (p_properties (getPlayer victim prev))
         /\ nth_error (p_properties (getPlayer victim prev)) i = Some targetSet
         /\ s_isComplete targetSet = true
         /\ (forall j s, (j < i)%nat ->
               nth_error (p_properties (getPlayer victim prev)) j = Some s ->
               s_isComplete s = false)
         /\ fullSets (getPlayer attacker next)
            = S (fullSets (getPlayer attacker prev))
         /\ S (fullSets (getPlayer victim next))
            = fullSets (getPlayer victim prev)
         /\ (g_activePlayerIndex prev = attacker ->
             (2 <= fullSets (getPlayer attacker prev))%nat ->
             g_phase next = GAME_OVER
             /\ g_winner next = Some (p_name (getPlayer attacker prev)))
     | None => forall i, getPlayer i next = getPlayer i prev
     end.
Proof.
  intros Hpa Hty Heven attacker victim next.
  assert (Hatt : pa_attackerIndex pa = attacker) by reflexivity.
  clearbody attacker. subst victim.
  assert (Hnext : next = concludeAction pa (applyEffect pa prev)).
  { unfold next. rewrite (resolve_final_form false prev pa Hpa (or_introl eq_refl)).
    unfold Nat.odd. now rewrite Heven. }
  destruct (concludeAction_fields pa (applyEffect pa prev))
    as (_ & _ & _ & _ & _ & Hplayers).
  rewrite <- Hnext in Hplayers.
  assert (Heff : applyEffect pa prev
                 = match findEntry s_isComplete
                           (p_properties (getPlayer (other attacker) prev)) with
                   | Some (i, targetSet) =>
                       unshiftLog
                         (template [p_name (getPlayer attacker prev);
                                    " played Deal Breaker: Stole a complete ";
                                    colorName (s_color targetSet); " set!"])
                         (setPlayer attacker
                            (withProperties
                               (p_properties (getPlayer attacker prev) ++ [targetSet])
                               (getPlayer attacker prev))
                            (setPlayer (other attacker)
                               (withProperties
                                  (spliceOut i (p_properties (getPlayer (other attacker) prev)))
                                  (getPlayer (other attacker) prev)) prev))
                   | None => prev
                   end).
  { unfold applyEffect. rewrite Hty, Hatt. reflexivity. }
  destruct (findEntry s_isComplete (p_properties (getPlayer (other attacker) prev)))
    as [[i targetSet]|] eqn:Hfind.
  - destruct (findEntry_Some _ _ _ _ Hfind) as (Hidx & Hnth & Hc).
    destruct (findIndex_Some _ _ _ Hidx) as (x & Hx & _ & Hfirst).
    assert (Ha : getPlayer attacker next
                 = withProperties
                     (p_properties (getPlayer attacker prev) ++ [targetSet])
                     (getPlayer attacker prev)).
    { rewrite Hplayers, Heff. frame. reflexivity. }
    assert (Hv : getPlayer (other attacker) next
                 = withProperties
                     (spliceOut i (p_properties (getPlayer (other attacker) prev)))
                     (getPlayer (other attacker) prev)).
    { rewrite Hplayers, Heff. frame. reflexivity. }
    assert (Hfa : fullSets (getPlayer attacker next)
                  = S (fullSets (getPlayer attacker prev)))
      by (rewrite Ha; now apply fullSets_snoc).
    split.
    { intros j. destruct attacker, j; cbn [other] in *;
        first [rewrite Ha | rewrite Hv]; split; reflexivity. }
    rewrite Ha, Hv. cbn [p_properties withProperties].
    rewrite <- Ha, <- Hv.
    repeat (split; [first [reflexivity | assumption]|]).
    split; [rewrite Hv; now apply (fullSets_spliceOut _ i targetSet)|].
    intros Hact Htwo.
    rewrite Hnext. unfold concludeAction, checkWinCondition.
    cbn [g_activePlayerIndex withPendingAction withActionsRemaining withDiscardPile].
    destruct (applyEffect_frame pa prev) as (Eact & _).
    cbv zeta in Eact. rewrite Eact, Hact.
    match goal with
    | |- context [fullSets ?p] =>
        replace p with (getPlayer attacker next)
          by (rewrite Hplayers; destruct attacker; reflexivity)
    end.
    rewrite Hfa.
    destruct (3 <=? S (fullSets (getPlayer attacker prev)))%nat eqn:E3;
      [|apply Nat.leb_gt in E3; lia].
    cbn. rewrite Ha. split; reflexivity.
  - split; intros i; rewrite Hplayers, Heff; auto.
Qed.

(** ** Force Deal *)

Lemma placeCard_props_weight w p c :
  sumBy w (propertyCards (p_properties (placeCard p c)))
  = (sumBy w (propertyCards (p_properties p)) + w c)%Z.
Proof.
  pose proof (placeCard_weight w p c) as H. unfold playerWeight in H.
  destruct (placeCard_owner p c) as ((_ & _ & Hh & _) & Hb).
  rewrite Hh, Hb in H. lia.
Qed.

Lemma applyEffect_force_deal pa g m t mySet oppSet myCard myRest oppCard oppRest :
  pa_type pa = FORCE_DEAL ->
  pa_mySetIndex pa = Some m -> pa_targetSetIndex pa = Some t ->
  nth_error (p_properties (getPlayer (pa_attackerIndex pa) g)) m = Some mySet ->
  nth_error (p_properties (getPlayer (other (pa_attackerIndex pa)) g)) t
  = Some oppSet ->
  s_cards mySet = myRest ++ [myCard] -> s_cards oppSet = oppRest ++ [oppCard] ->
  let attacker := getPlayer (pa_attackerIndex pa) g in
  let opponent := getPlayer (other (pa_attackerIndex pa)) g in
  applyEffect pa g
  = unshiftLog
      (template [p_name attacker; " played Force Deal: Swapped ";
                 c_name myCard; " for "; c_name oppCard; "."])
      (setPlayer (pa_attackerIndex pa)
         (placeCard
            (withProperties (afterPop m myRest (p_properties attacker)) attacker)
            oppCard)
         (setPlayer (other (pa_attackerIndex pa))
            (placeCard
               (withProperties (afterPop t oppRest (p_properties opponent))
                  opponent) myCard) g)).
Proof.
  intros Hty Hm Ht Hn1 Hn2 Hc1 Hc2 attacker opponent.
  unfold applyEffect. rewrite Hty, Hm, Ht. cbv zeta.
  rewrite Hn1, Hn2, Hc1, Hc2, !pop_snoc. reflexivity.
Qed.

(** X14.  A Force Deal takes effect as an exchange of one card for one
    card.  When both chosen indices name sets that hold a card, the most
    recently added card of each set changes sides and is placed by
    [placeCard]: each player's property cards are the former ones with the
    card given replaced by the card received, whether the opponent's set is
    complete or not.  In every other case the state is returned unchanged.
    Hands and banks are never touched. *)
Theorem force_deal_exchange (pa : PendingAction) (g : GameState) :
  pa_type pa = FORCE_DEAL ->
  let attacker := pa_attackerIndex pa in
  let victim := other attacker in
  let g' := applyEffect pa g in
  (forall i, p_hand (getPlayer i g') = p_hand (getPlayer i g)
             /\ p_bank (getPlayer i g') = p_bank (getPlayer i g))
  /\ (forall m t mySet oppSet myCard myRest oppCard oppRest,
        pa_mySetIndex pa = Some m -> pa_targetSetIndex pa = Some t ->
        nth_error (p_properties (getPlayer attacker g)) m = Some mySet ->
        nth_error (p_properties (getPlayer victim g)) t = Some oppSet ->
        s_cards mySet = myRest ++ [myCard] ->
        s_cards oppSet = oppRest ++ [oppCard] ->
        getPlayer attacker g'
        = placeCard
            (withProperties
               (afterPop m myRest (p_properties (getPlayer attacker g)))
               (getPlayer attacker g)) oppCard
        /\ getPlayer victim g'
           = placeCard
               (withProperties
                  (afterPop t oppRest (p_properties (getPlayer victim g)))
                  (getPlayer victim g)) myCard
        /\ Permutation
             (myCard :: propertyCards (p_properties (getPlayer attacker g')))
             (oppCard :: propertyCards (p_properties (getPlayer attacker g)))
        /\ Permutation
             (oppCard :: propertyCards (p_properties (getPlayer victim g')))
             (myCard :: propertyCards (p_properties (getPlayer victim g))))
  /\ (g' = g
      \/ exists m t mySet oppSet myCard myRest oppCard oppRest,
           pa_mySetIndex pa = Some m /\ pa_targetSetIndex pa = Some t
           /\ nth_error (p_properties (getPlayer attacker g)) m = Some mySet
           /\ nth_error (p_properties (getPlayer victim g)) t = Some oppSet
           /\ s_cards mySet = myRest ++ [myCard]
           /\ s_cards oppSet = oppRest ++ [oppCard]).
Proof.
  intros Hty attacker victim g'.
  assert (Hatt : pa_attackerIndex pa = attacker) by reflexivity.
  assert (Swap : forall m t mySet oppSet myCard myRest oppCard oppRest,
        pa_mySetIndex pa = Some m -> pa_targetSetIndex pa = Some t ->
        nth_error (p_properties (getPlayer attacker g)) m = Some mySet ->
        nth_error (p_properties (getPlayer victim g)) t = Some oppSet ->
        s_cards mySet = myRest ++ [myCard] ->
        s_cards oppSet = oppRest ++ [oppCard] ->
        getPlayer attacker g'
        = placeCard
            (withProperties
               (afterPop m myRest (p_properties (getPlayer attacker g)))
               (getPlayer attacker g)) oppCard
        /\ getPlayer victim g'
           = placeCard
               (withProperties
                  (afterPop t oppRest (p_properties (getPlayer victim g)))
                  (getPlayer victim g)) myCard).
  { intros m t mySet oppSet myCard myRest oppCard oppRest Hm Ht Hn1 Hn2 Hc1 Hc2.
    unfold g'.
    rewrite (applyEffect_force_deal pa g m t mySet oppSet myCard myRest
               oppCard oppRest Hty Hm Ht Hn1 Hn2 Hc1 Hc2).
    cbv zeta. fold attacker. fold victim. unfold victim.
    frame. split; reflexivity. }
  assert (Cases : g' = g
      \/ exists m t mySet oppSet myCard myRest oppCard oppRest,
           pa_mySetIndex pa = Some m /\ pa_targetSetIndex pa = Some t
           /\ nth_error (p_properties (getPlayer attacker g)) m = Some mySet
           /\ nth_error (p_properties (getPlayer victim g)) t = Some oppSet
           /\ s_cards mySet = myRest ++ [myCard]
           /\ s_cards oppSet = oppRest ++ [oppCard]).
  { unfold g', applyEffect. rewrite Hty. cbv zeta. fold attacker. fold victim.
    destruct (pa_mySetIndex pa) as [m|]; [|now left].
    destruct (pa_targetSetIndex pa) as [t|]; [|now left].
    destruct (nth_error (p_properties (getPlayer attacker g)) m)
      as [mySet|] eqn:Hn1; [|now left].
    destruct (nth_error (p_properties (getPlayer victim g)) t)
      as [oppSet|] eqn:Hn2; [|now left].
    destruct (pop (s_cards mySet)) as [[myCard myRest]|] eqn:Hp1; [|now left].
    destruct (pop (s_cards oppSet)) as [[oppCard oppRest]|] eqn:Hp2; [|now left].
    right. exists m, t, mySet, oppSet, myCard, myRest, oppCard, oppRest.
    apply pop_Some in Hp1. apply pop_Some in Hp2. repeat split; auto. }
  split; [|split; [|exact Cases]].
  - destruct Cases as [->|(m & t & mySet & oppSet & myCard & myRest & oppCard
                           & oppRest & Hm & Ht & Hn1 & Hn2 & Hc1 & Hc2)];
      [intros i; split; reflexivity|].
    destruct (Swap m t mySet oppSet myCard myRest oppCard oppRest
                Hm Ht Hn1 Hn2 Hc1 Hc2) as (Ha & Hv).
    assert (Both : forall p props c,
               p_hand (placeCard (withProperties props p) c) = p_hand p
               /\ p_bank (placeCard (withProperties props p) c) = p_bank p).
    { intros p props c.
      destruct (placeCard_owner (withProperties props p) c)
        as ((_ & _ & Hh & _) & Hb). rewrite Hh, Hb. split; reflexivity. }
    intros i.
    assert (Hi : i = attacker \/ i = victim)
      by (unfold victim; destruct i, attacker; auto).
    destruct Hi as [->| ->]; [rewrite Ha | rewrite Hv]; apply Both.
  - intros m t mySet oppSet myCard myRest oppCard oppRest Hm Ht Hn1 Hn2 Hc1 Hc2.
    destruct (Swap m t mySet oppSet myCard myRest oppCard oppRest
                Hm Ht Hn1 Hn2 Hc1 Hc2) as (Ha & Hv).
    split; [exact Ha|]. split; [exact Hv|].
    split; apply Permutation_of_sumBy; intros w; rewrite !sumBy_cons;
      [rewrite Ha | rewrite Hv];
      rewrite placeCard_props_weight; cbn [p_properties withProperties];
      [rewrite (sumBy_props_afterPop w _ m mySet myCard myRest Hn1 Hc1)
      |rewrite (sumBy_props_afterPop w _ t oppSet oppCard oppRest Hn2 Hc2)];
      lia.
Qed.

(** ** An accepted move *)



Ltac drawn :=
  first
    [ left; split; reflexivity
    | right; repeat split; (reflexivity || assumption) ].


(** ** The end of the game *)

Lemma StepShape_names g g' : StepShape g g' -> sameNames g g'.
Proof.
  intros [Q|[C|T]].
  - apply Q.
  - destruct C as (s & -> & _ & _ & _ & N). intros i.
    rewrite getPlayer_checkWinCondition. apply N.
  - apply T.
Qed.

Lemma game_over_step g g' :
  WinInv g -> g_phase g = GAME_OVER -> StepShape g g' ->
  g_phase g' = GAME_OVER /\ g_winner g' = g_winner g
  /\ g_activePlayerIndex g' = g_activePlayerIndex g.
Proof.
  unfold WinInv. intros I P [Q|[C|T]].
  - destruct Q as (W & P' & A & _). rewrite W, P', A. auto.
  - destruct C as (s & -> & W & Ps & A & N).
    destruct (checkWinCondition_frame s) as (_ & _ & Ea & _).
    cbv zeta in Ea. rewrite Ea, A.
    destruct (checkWinCondition_cases s) as [(_ & Hw & Hp)|(_ & ->)].
    + rewrite Hw, Hp. split; [reflexivity|]. split; [|reflexivity].
      destruct (g_winner g) as [n|]; [|contradiction].
      destruct I as (_ & ->). now rewrite A, N.
    + rewrite Ps, W. auto.
  - destruct T as (P' & _). contradiction.
Qed.

(** X16.  The end of a game is final.  From a state of a game in phase
    GAME_OVER, whatever operations follow, the phase stays GAME_OVER, the
    winner stays the name of the player who was active when the game ended,
    the active player does not change, and moves, [startTurn] and [endTurn]
    leave the game state as it is. *)
Theorem game_over_is_final (a a' : App) :
  reachable a ->
  g_phase (gameState a) = GAME_OVER ->
  reachableFrom a a' ->
  g_phase (gameState a') = GAME_OVER
  /\ g_winner (gameState a') = g_winner (gameState a)
  /\ g_winner (gameState a)
     = Some (p_name (getPlayer (g_activePlayerIndex (gameState a))
                       (gameState a)))
  /\ g_activePlayerIndex (gameState a') = g_activePlayerIndex (gameState a)
  /\ (forall r1 r2 type cardId, executeMove r1 r2 type cardId a' = a')
  /\ gameState (startTurn a') = gameState a'
  /\ gameState (endTurn a') = gameState a'.
Proof.
  intros R P R'.
  pose proof (reachable_WinInv a R) as I.
  assert (H : WinInv (gameState a')
              /\ g_phase (gameState a') = GAME_OVER
              /\ g_winner (gameState a') = g_winner (gameState a)
              /\ g_activePlayerIndex (gameState a')
                 = g_activePlayerIndex (gameState a)).
  { induction R' as [|b o b' R' (Ib & Pb & Wb & Ab) E]; [auto|].
    pose proof (applyOp_shape o b b' E) as S.
    destruct (game_over_step _ _ Ib Pb S) as (P' & W' & A').
    split; [eapply WinInv_step; eauto|].
    rewrite P', W', A'. auto. }
  destruct H as (_ & P' & W' & A').
  split; [exact P'|]. split; [exact W'|].
  split.
  { unfold WinInv in I. destruct (g_winner (gameState a)) as [n|];
      [destruct I as (_ & ->); reflexivity | contradiction]. }
  split; [exact A'|].
  split.
  - intros r1 r2 type cardId. unfold executeMove. rewrite P'.
    now rewrite orb_true_r.
  - unfold startTurn, endTurn. rewrite P'. split; reflexivity.
Qed.

(** X17.  The draw that opens a turn.  In phase START_TURN the active
    player draws from the top of the deck, five cards on an empty hand and
    two otherwise, or what is left of the deck when it holds fewer: the
    discard pile is not turned over, so on an empty deck nothing is drawn.
    Banks, sets and the other player are untouched, and the log entry
    names the intended number of cards. *)
Theorem startTurn_draws (a : App) :
  g_phase (gameState a) = START_TURN ->
  let g := gameState a in
  let active := g_activePlayerIndex g in
  let player := getPlayer active g in
  let drawCount := match p_hand player with [] => 5%nat | _ :: _ => 2%nat end in
  let g' := gameState (startTurn a) in
  p_hand (getPlayer active g') = p_hand player ++ firstn drawCount (g_deck g)
  /\ g_deck g' = skipn drawCount (g_deck g)
  /\ length (p_hand (getPlayer active g'))
     = (length (p_hand player) + Nat.min drawCount (length (g_deck g)))%nat
  /\ (g_deck g = [] -> getPlayer active g' = player /\ g_deck g' = [])
  /\ g_discardPile g' = g_discardPile g
  /\ p_bank (getPlayer active g') = p_bank player
  /\ p_properties (getPlayer active g') = p_properties player
  /\ getPlayer (other active) g' = getPlayer (other active) g
  /\ g_logs g'
     = template [p_name player; " draws "; showZ (Z.of_nat drawCount); " cards."]
         :: g_logs g
  /\ g_pendingAction g' = g_pendingAction g.
Proof.
  intros P g active player drawCount g'.
  subst g' drawCount player active g. unfold startTurn. rewrite P. frame.
  split; [reflexivity|]. split; [reflexivity|].
  split; [now rewrite length_app, length_firstn|].
  split.
  { intros D. rewrite D.
    destruct (p_hand (getPlayer (g_activePlayerIndex (gameState a)) (gameState a)))
      eqn:Hh; unfold firstn, skipn; rewrite ?app_nil_r; split; try reflexivity;
      rewrite <- Hh;
      destruct (getPlayer (g_activePlayerIndex (gameState a)) (gameState a));
      reflexivity. }
  repeat split.
Qed.

(** ** Debt Collector and It's My Birthday *)

(** The cards a settlement moves, in the order it moves them: each moves
    while debt remains, and they are what the debtor loses and the creditor
    gains. *)
Lemma processPayment_moves (from to : Player) (amount : Z) (lg : list string) :
  let r := processPayment from to amount lg in
  exists moved,
    (forall w, (sumBy w (assetCards (fromPlayer r)) + sumBy w moved
                = sumBy w (assetCards from))%Z)
    /\ (forall w, sumBy w (assetCards (toPlayer r))
                  = (sumBy w (assetCards to) + sumBy w moved)%Z)
    /\ remaining r = (amount - totalValue moved)%Z
    /\ (forall q c q', moved = q ++ c :: q' -> (totalValue q < amount)%Z).
Proof.
  intros r. unfold r, processPayment.
  set (st0 := mkPayment (withBank (sortByValue (p_bank from)) from) to amount lg).
  assert (S0 : forall w, sumBy w (assetCards (fromPlayer st0))
                         = sumBy w (assetCards from)).
  { intros w. unfold st0, assetCards. cbn [fromPlayer withBank p_bank p_properties].
    rewrite !sumBy_app.
    now rewrite (sumBy_perm w _ _ (sortByValue_perm (p_bank from))). }
  apply (payment_loop_invariant
           (fun st => exists moved,
              (forall w, (sumBy w (assetCards (fromPlayer st)) + sumBy w moved
                          = sumBy w (assetCards from))%Z)
              /\ (forall w, sumBy w (assetCards (toPlayer st))
                            = (sumBy w (assetCards to) + sumBy w moved)%Z)
              /\ remaining st = (amount - totalValue moved)%Z
              /\ (forall q c q', moved = q ++ c :: q' ->
                    (totalValue q < amount)%Z))).
  - intros s s' card (Tf & Tt & Tr & Tp & _) (moved & A & B & C & D).
    exists (moved ++ [card]). unfold totalValue in *.
    split; [intros w; rewrite (Tf w), sumBy_app, sumBy_cons, sumBy_nil;
            specialize (A w); lia|].
    split; [intros w; rewrite (Tt w), (B w), sumBy_app, sumBy_cons, sumBy_nil;
            lia|].
    split; [rewrite Tr, C, sumBy_app, sumBy_cons, sumBy_nil; lia|].
    intros q c q' E.
    destruct (snoc_split moved q q' card c E) as [(-> & _ & _)|(q'' & _ & ->)].
    + lia.
    + eapply D. reflexivity.
  - exists []. split; [intros w; rewrite (S0 w), sumBy_nil; lia|].
    split; [intros w; rewrite sumBy_nil; unfold st0; cbn [toPlayer]; lia|].
    split; [unfold st0, totalValue; cbn [remaining]; rewrite sumBy_nil; lia|].
    intros q c q' E. destruct q; discriminate.
Qed.

(** A settlement stops only when the debt is covered or the debtor has no
    bank or property card left. *)
Lemma processPayment_stops (from to : Player) (amount : Z) (lg : list string) :
  let r := processPayment from to amount lg in
  (remaining r <= 0)%Z \/ assetCards (fromPlayer r) = [].
Proof.
  intros r.
  destruct (payment_loops_reach_exit from to amount lg) as (E1 & E2).
  set (st1 := while (assetCount from) bankIteration
                (mkPayment (withBank (sortByValue (p_bank from)) from) to
                   amount lg)) in *.
  assert (Hr : r = while (assetCount from) propertyIteration st1) by reflexivity.
  change (processPayment from to amount lg) with r in E2.
  destruct (property_loop_banks (assetCount from) st1) as (Bf & _).
  cbv zeta in Bf. rewrite <- Hr in Bf.
  destruct (propertyIteration_None _ E2) as [Hp|Hp]; [now left|].
  destruct (bankIteration_None _ E1) as [Hb|Hb].
  - left. assert (r = st1) as ->
        by (rewrite Hr; apply while_stuck, propertyIteration_paid, Hb).
    exact Hb.
  - right. unfold assetCards. now rewrite Bf, Hb, Hp.
Qed.

(** X18.  Debt Collector and It's My Birthday take effect as the settlement
    of 5M and of 2M from the opponent to the attacker, announced in the
    log.  The cards moved leave the opponent's bank and sets for the
    attacker's; each card moves while the cards moved before it are worth
    less than the amount, so nothing moves once the amount is covered, and
    the transfer stops only when the amount is covered or the opponent has
    no bank or property card left.  Hands are unchanged, and the attacker
    receives at least the smaller of the amount and the value of the
    opponent's assets. *)
Theorem debt_actions_collect (pa : PendingAction) (g : GameState) :
  pa_type pa = DEBT_COLLECTOR \/ pa_type pa = BIRTHDAY ->
  let attacker := pa_attackerIndex pa in
  let victim := other attacker in
  let amount := match pa_type pa with DEBT_COLLECTOR => 5%Z | _ => 2%Z end in
  let entry :=
    match pa_type pa with
    | DEBT_COLLECTOR =>
        template [p_name (getPlayer attacker g); " used Debt Collector: ";
                  p_name (getPlayer victim g); " owes 5M."]
    | _ =>
        template [p_name (getPlayer attacker g); " used It's My Birthday! ";
                  p_name (getPlayer victim g); " owes 2M."]
    end in
  let paid := processPayment (getPlayer victim g) (getPlayer attacker g) amount
                (entry :: g_logs g) in
  let g' := applyEffect pa g in
  g' = withLogs (log paid)
         (setPlayer attacker (toPlayer paid)
            (setPlayer victim (fromPlayer paid) g))
  /\ (forall i, p_hand (getPlayer i g') = p_hand (getPlayer i g))
  /\ (exists moved,
        Permutation (assetCards (getPlayer attacker g'))
          (assetCards (getPlayer attacker g) ++ moved)
        /\ Permutation (assetCards (getPlayer victim g') ++ moved)
             (assetCards (getPlayer victim g))
        /\ (forall q c q', moved = q ++ c :: q' -> (totalValue q < amount)%Z)
        /\ ((amount <= totalValue moved)%Z
            \/ assetCards (getPlayer victim g') = []))
  /\ (Z.min amount (assetValue (getPlayer victim g))
      <= assetValue (getPlayer attacker g') - assetValue (getPlayer attacker g))%Z.
Proof.
  intros Hty attacker victim amount entry paid g'.
  assert (Hatt : pa_attackerIndex pa = attacker) by reflexivity.
  clearbody attacker. subst victim.
  assert (Hg : g' = withLogs (log paid)
                      (setPlayer attacker (toPlayer paid)
                         (setPlayer (other attacker) (fromPlayer paid) g))).
  { unfold g', paid, entry, amount, applyEffect. rewrite Hatt.
    destruct Hty as [-> | ->]; reflexivity. }
  assert (Ha : getPlayer attacker g' = toPlayer paid)
    by (rewrite Hg; frame; reflexivity).
  assert (Hv : getPlayer (other attacker) g' = fromPlayer paid)
    by (rewrite Hg; frame; reflexivity).
  clearbody g'.
  pose proof (processPayment_receipt (getPlayer (other attacker) g)
                (getPlayer attacker g) amount (entry :: g_logs g)) as Hrec.
  destruct (processPayment_conserves (getPlayer (other attacker) g)
              (getPlayer attacker g) amount (entry :: g_logs g))
    as (_ & _ & (_ & _ & Hhf & _) & (_ & _ & Hht & _)).
  destruct (processPayment_moves (getPlayer (other attacker) g)
              (getPlayer attacker g) amount (entry :: g_logs g))
    as (moved & Mf & Mt & Mr & Mp).
  pose proof (processPayment_stops (getPlayer (other attacker) g)
                (getPlayer attacker g) amount (entry :: g_logs g)) as Hstop.
  cbv zeta in Hrec, Hhf, Hht, Mf, Mt, Mr, Hstop.
  fold paid in Hrec, Hhf, Hht, Mf, Mt, Mr, Hstop.
  rewrite <- Ha in Hrec, Hht, Mt. rewrite <- Hv in Hhf, Mf, Hstop.
  split; [exact Hg|]. split; [|split; [|exact Hrec]].
  - intros i. assert (Hi : i = attacker \/ i = other attacker)
      by (destruct i, attacker; auto).
    destruct Hi as [-> | ->]; assumption.
  - exists moved.
    split; [apply Permutation_of_sumBy; intros w; rewrite sumBy_app; apply Mt|].
    split; [apply Permutation_of_sumBy; intros w; rewrite sumBy_app; apply Mf|].
    split; [exact Mp|].
    destruct Hstop as [Hs|Hs]; [left; lia | right; exact Hs].
Qed.

(** ** The targets the automated player chooses *)

Lemma eligibleFrom_sound props : forall k i,
  In i (eligibleFrom k props) ->
  exists s, (k <= i)%nat /\ nth_error props (i - k) = Some s
            /\ s_isComplete s = false /\ s_cards s <> [].
Proof.
  induction props as [|p r IH]; intros k i H; cbn [eligibleFrom] in H;
    [contradiction|].
  assert (Later : In i (eligibleFrom (S k) r) ->
                  exists s, (k <= i)%nat /\ nth_error (p :: r) (i - k) = Some s
                            /\ s_isComplete s = false /\ s_cards s <> []).
  { intros Hin. destruct (IH (S k) i Hin) as (s & Hk & Hn & Hc & He).
    exists s. split; [lia|]. split; [|auto].
    replace (i - k)%nat with (S (i - S k)) by lia. exact Hn. }
  destruct (negb (s_isComplete p) && (0 <? length (s_cards p))%nat) eqn:E;
    [|auto].
  destruct H as [<-|H]; [|auto].
  apply andb_prop in E. destruct E as [Ec El].
  exists p. split; [lia|]. rewrite Nat.sub_diag. split; [reflexivity|].
  split; [now destruct (s_isComplete p)|].
  destruct (s_cards p); [discriminate El | discriminate].
Qed.

Lemma pickRandom_eligible r props x l :
  eligibleIndices props = x :: l ->
  exists s, nth_error props (pickRandom r (x :: l)) = Some s
            /\ s_isComplete s = false /\ s_cards s <> [].
Proof.
  intros E.
  assert (Hin : In (pickRandom r (x :: l)) (eligibleIndices props)).
  { rewrite E. unfold pickRandom. apply nth_In. apply Nat.mod_upper_bound.
    discriminate. }
  destruct (eligibleFrom_sound props 0 _ Hin) as (s & _ & Hn & Hc & He).
  rewrite Nat.sub_0_r in Hn. eauto.
Qed.

(** X19.  The targets of the automated player are valid.  A Sly Deal or
    Force Deal that [executeMove] itself turns into a pending action, which
    it does for the automated player only, names a set of the opponent that
    is not flagged complete and holds a card, whatever the random draws;
    for a Force Deal the same holds of the attacker's own set. *)
Theorem ai_targets_are_eligible (r1 r2 : nat) (type : Move.t)
  (cardId : string) (a : App) (pa : PendingAction) :
  let g := gameState a in
  let g' := gameState (executeMove r1 r2 type cardId a) in
  let active := g_activePlayerIndex g in
  g_pendingAction g = None ->
  g_pendingAction g' = Some pa ->
  pa_type pa = SLY_DEAL \/ pa_type pa = FORCE_DEAL ->
  p_isAI (getPlayer active g) = true
  /\ pa_attackerIndex pa = active
  /\ pa_jsnStack pa = Some 0%nat
  /\ (exists t oppSet,
        pa_targetSetIndex pa = Some t
        /\ nth_error (p_properties (getPlayer (other active) g')) t = Some oppSet
        /\ s_isComplete oppSet = false /\ s_cards oppSet <> [])
  /\ (pa_type pa = FORCE_DEAL ->
      exists m mySet,
        pa_mySetIndex pa = Some m
        /\ nth_error (p_properties (getPlayer active g')) m = Some mySet
        /\ s_isComplete mySet = false /\ s_cards mySet <> []).
Proof.
  intros g g' active Hnone. subst g' active g.
  unfold executeMove.
  destruct (_ || _ || _ || _); [congruence|].
  destruct (findEntry _ _) as [[cardIndex card]|]; [|congruence].
  destruct type.
  - unfold finishMove. frame. congruence.
  - destruct (_ && _); [congruence|]. unfold finishMove. frame. congruence.
  - destruct (hasType RENT card); [frame; congruence|].
    destruct (String.eqb (c_name card) "Force Deal").
    { destruct (p_isAI _) eqn:Ai; [|frame; congruence].
      destruct (eligibleIndices (p_properties (getPlayer _ (gameState a))))
        as [|m0 ml] eqn:Em; [frame; congruence|].
      destruct (eligibleIndices
                  (p_properties (getPlayer (other _) (gameState a))))
        as [|t0 tl] eqn:Et; [frame; congruence|].
      destruct (pickRandom_eligible r1 _ _ _ Em) as (ms & Hm & Hmc & Hme).
      destruct (pickRandom_eligible r2 _ _ _ Et) as (ts & Ht & Htc & Hte).
      set (mi := pickRandom r1 (m0 :: ml)) in *.
      set (ti := pickRandom r2 (t0 :: tl)) in *. clearbody mi ti.
      frame. intros Hpa _. injection Hpa as <-.
      cbn [pa_type pa_attackerIndex pa_jsnStack pa_targetSetIndex pa_mySetIndex].
      repeat (split; [reflexivity|]). split.
      - eexists _, ts. repeat split; auto.
      - intros _. eexists _, ms. repeat split; auto. }
    destruct (String.eqb (c_name card) "Sly Deal").
    { destruct (p_isAI _) eqn:Ai; [|frame; congruence].
      destruct (eligibleIndices
                  (p_properties (getPlayer (other _) (gameState a))))
        as [|t0 tl] eqn:Et; [frame; congruence|].
      destruct (pickRandom_eligible r1 _ _ _ Et) as (ts & Ht & Htc & Hte).
      set (ti := pickRandom r1 (t0 :: tl)) in *. clearbody ti.
      frame. intros Hpa _. injection Hpa as <-.
      cbn [pa_type pa_attackerIndex pa_jsnStack pa_targetSetIndex pa_mySetIndex].
      repeat (split; [reflexivity|]). split.
      - eexists _, ts. repeat split; auto.
      - discriminate. }
    repeat break_match; unfold finishMove; frame; try congruence;
      intros Hpa [Hty|Hty]; injection Hpa as <-; discriminate.
Qed.

(** ** The properties on the example games *)

Lemma initializeGame_deal_witness :
  length (g_deck (gameState
            (initializeGame (shuffle (fun _ => 0%nat) INITIAL_DECK) false false)))
  = 80%nat.
Proof.
  destruct (initializeGame_deal (fun _ => 0%nat) INITIAL_DECK false false)
    as (_ & _ & _ & _ & _ & _ & _ & _ & _ & _ & _ & _ & _ & _ & _ & _ & _ & _
        & _ & L).
  - vm_compute. lia.
  - exact (L eq_refl).
Defined.

Lemma property_sets_sound_witness :
  s_cards (hd (mkSet ANY [] false)
             (p_properties (getPlayer P1 (gameState forcePending)))) <> [].
Proof.
  refine (proj1 (property_sets_sound forcePending forcePending_reachable P1
                   (hd (mkSet ANY [] false)
                      (p_properties (getPlayer P1 (gameState forcePending))))
                   _)).
  vm_compute. left. reflexivity.
Defined.

Lemma turn_state_machine_witness :
  g_phase (gameState (endTurn randomTurn)) = START_TURN
  /\ g_activePlayerIndex (gameState (endTurn randomTurn))
     = other (g_activePlayerIndex (gameState randomTurn)).
Proof.
  assert (E : applyOp OpEndTurn randomTurn = Some (endTurn randomTurn))
    by (vm_compute; reflexivity).
  pose proof (turn_state_machine OpEndTurn randomTurn (endTurn randomTurn) E)
    as H.
  cbv zeta in H.
  destruct H as [(P & _)|[(P & _)|[(F & _)|(_ & _ & P & A & _)]]].
  - vm_compute in P. discriminate.
  - vm_compute in P. discriminate.
  - discriminate.
  - exact (conj P A).
Defined.

Lemma phase_never_lobby_nor_end_turn_witness :
  g_phase (gameState forcePending) = START_TURN
  \/ g_phase (gameState forcePending) = PLAY_PHASE
  \/ g_phase (gameState forcePending) = GAME_OVER.
Proof.
  exact (phase_never_lobby_nor_end_turn forcePending forcePending_reachable).
Defined.

Lemma containers_grow_one_way_witness :
  exists n,
    g_deck (gameState firstTurn)
    = skipn n (g_deck (gameState (initializeGame birthdayDeck false false)))
    /\ (n <= 5)%nat.
Proof.
  assert (E : applyOp OpStartTurn (initializeGame birthdayDeck false false)
              = Some firstTurn) by (vm_compute; reflexivity).
  pose proof (containers_grow_one_way OpStartTurn
                (initializeGame birthdayDeck false false) firstTurn E) as H.
  cbv zeta in H. destruct H as (_ & _ & H & _). exact H.
Defined.

Lemma actions_within_bounds_witness :
  (0 <= g_actionsRemaining (gameState birthdayPending) <= 3)%Z.
Proof.
  refine (proj1 (actions_within_bounds birthdayDeck false false
                   birthdayPending _)).
  apply (runGuarded_reachable birthdayOps). vm_compute. reflexivity.
Defined.

Lemma payment_from_bank_alone_witness :
  p_properties (fromPlayer (processPayment debtor creditor 2 []))
  = p_properties debtor.
Proof.
  assert (H : (2 <= totalValue (p_bank debtor))%Z) by (vm_compute; discriminate).
  pose proof (payment_from_bank_alone debtor creditor 2 [] H) as R.
  cbv zeta in R. exact (proj1 R).
Defined.

Lemma payment_of_insolvent_debtor_witness :
  p_bank (fromPlayer (processPayment debtor creditor 12 [])) = [].
Proof.
  assert (F : Forall (fun c => 0 <= c_value c)%Z (assetCards debtor)).
  { repeat (apply Forall_cons; [vm_compute; discriminate|]). apply Forall_nil. }
  assert (H : (assetValue debtor < 12)%Z) by (vm_compute; reflexivity).
  pose proof (payment_of_insolvent_debtor debtor creditor 12 [] F H) as R.
  cbv zeta in R. exact (proj1 R).
Defined.

Lemma rentValue_monotone_capped_witness :
  (0 <= rentValue (mkSet DARK_BLUE [darkBlueGreenWild] false)
   <= rentValue (mkSet DARK_BLUE [darkBlueGreenWild; darkBlueGreenWild] true))%Z.
Proof.
  refine (proj1 (rentValue_monotone_capped
                   (mkSet DARK_BLUE [darkBlueGreenWild] false)
                   (mkSet DARK_BLUE [darkBlueGreenWild; darkBlueGreenWild] true)
                   _ _)).
  - reflexivity.
  - cbn. lia.
Defined.

Lemma rent_collection_witness :
  exists a',
    handleRentCollection 0 rentPending = Some a'
    /\ pendingRentCard a' = None
    /\ g_discardPile (gameState a')
       = g_discardPile (gameState rentPending) ++ [anyRentCard].
Proof.
  assert (E : pendingRentCard rentPending = Some anyRentCard) by reflexivity.
  pose proof (rent_collection 0 rentPending anyRentCard E) as H.
  cbv zeta in H.
  assert (N : nth_error
                (p_properties
                   (getPlayer (g_activePlayerIndex (gameState rentPending))
                      (gameState rentPending))) 0
              = Some (hd (mkSet ANY [] false)
                        (p_properties (g_player1 (gameState rentPending))))).
  { vm_compute. reflexivity. }
  rewrite N in H. destruct H as (a' & R & P & _ & _ & D & _).
  exists a'. exact (conj R (conj P D)).
Defined.

Lemma just_say_no_counter_witness :
  g_discardPile (resolvePendingAction true counterPending)
  = g_discardPile counterPending ++ [justSayNoCard]
  /\ S (jsnCount (resolvePendingAction true counterPending))
     = jsnCount counterPending.
Proof.
  assert (P : g_pendingAction counterPending
              = Some (mkPending BIRTHDAY birthdayCard P1 None None None
                        (Some 0%nat))) by (vm_compute; reflexivity).
  assert (F : findEntry isJustSayNo
                (p_hand (getPlayer
                           (responderIndex
                              (mkPending BIRTHDAY birthdayCard P1 None None None
                                 (Some 0%nat))) counterPending))
              = Some (0%nat, justSayNoCard)) by (vm_compute; reflexivity).
  pose proof (just_say_no_counter counterPending _ 0%nat justSayNoCard P F) as H.
  cbv zeta in H.
  destruct H as (pa' & _ & _ & _ & _ & _ & _ & _ & _ & _ & _ & _ & D & _ & _
                 & _ & _ & _ & _ & _ & _ & C).
  exact (conj D C).
Defined.

Lemma deal_breaker_resolution_witness :
  p_hand (getPlayer P0 (resolvePendingAction false dealBreakerPending))
  = p_hand (getPlayer P0 dealBreakerPending).
Proof.
  assert (P : g_pendingAction dealBreakerPending
              = Some (mkPending DEAL_BREAKER birthdayCard P0 None None None
                        (Some 0%nat))) by reflexivity.
  pose proof (deal_breaker_resolution dealBreakerPending _ P eq_refl eq_refl)
    as H.
  cbv zeta in H. destruct H as (Hh & _). destruct (Hh P0) as (E & _). exact E.
Defined.

Lemma force_deal_exchange_witness :
  p_hand (getPlayer P0
            (applyEffect
               (mkPending FORCE_DEAL birthdayCard P0 None (Some 3%nat)
                  (Some 0%nat) (Some 0%nat)) (gameState forcePending)))
  = p_hand (getPlayer P0 (gameState forcePending)).
Proof.
  pose proof (force_deal_exchange
                (mkPending FORCE_DEAL birthdayCard P0 None (Some 3%nat)
                   (Some 0%nat) (Some 0%nat)) (gameState forcePending) eq_refl)
    as H.
  cbv zeta in H. destruct H as (Hh & _). destruct (Hh P0) as (E & _). exact E.
Defined.


Lemma game_over_is_final_witness :
  g_phase (gameState (endTurn winReached)) = GAME_OVER.
Proof.
  assert (R : reachable winReached).
  { exists winDeck, false, false.
    apply (runOps_reachableFrom winOps). vm_compute. reflexivity. }
  assert (P : g_phase (gameState winReached) = GAME_OVER)
    by (vm_compute; reflexivity).
  assert (R' : reachableFrom winReached (endTurn winReached)).
  { apply (reach_step winReached winReached OpEndTurn (endTurn winReached)).
    - apply reach_init.
    - vm_compute. reflexivity. }
  exact (proj1 (game_over_is_final winReached (endTurn winReached) R P R')).
Defined.

Lemma startTurn_draws_witness :
  g_discardPile (gameState (startTurn (initializeGame birthdayDeck false false)))
  = g_discardPile (gameState (initializeGame birthdayDeck false false)).
Proof.
  assert (P : g_phase (gameState (initializeGame birthdayDeck false false))
              = START_TURN) by reflexivity.
  pose proof (startTurn_draws (initializeGame birthdayDeck false false) P) as H.
  cbv zeta in H. destruct H as (_ & _ & _ & _ & D & _). exact D.
Defined.

Lemma debt_actions_collect_witness :
  p_hand (getPlayer P0
            (applyEffect
               (mkPending BIRTHDAY birthdayCard P1 None None None (Some 0%nat))
               (gameState birthdayPending)))
  = p_hand (getPlayer P0 (gameState birthdayPending)).
Proof.
  pose proof (debt_actions_collect
                (mkPending BIRTHDAY birthdayCard P1 None None None (Some 0%nat))
                (gameState birthdayPending) (or_intror eq_refl)) as H.
  cbv zeta in H. destruct H as (_ & Hh & _). exact (Hh P0).
Defined.

Lemma ai_targets_are_eligible_witness :
  p_isAI (getPlayer (g_activePlayerIndex (gameState randomTurn))
            (gameState randomTurn)) = true.
Proof.
  assert (N : g_pendingAction (gameState randomTurn) = None)
    by (vm_compute; reflexivity).
  assert (P : g_pendingAction
                (gameState
                   (executeMove 0 0 Move.ACTION_PLAY "Sly Deal-0" randomTurn))
              = Some (mkPending SLY_DEAL slyDealCard P1 None (Some 0%nat) None
                        (Some 0%nat))) by (vm_compute; reflexivity).
  pose proof (ai_targets_are_eligible 0 0 Move.ACTION_PLAY "Sly Deal-0"
                randomTurn _ N P (or_introl eq_refl)) as H.
  cbv zeta in H. exact (proj1 H).
Defined.

